(** * Finance App DSL: the direct-text extractor, the reconciler and the validators

    A shallow embedding of [src/cli/parser.ts] (both revisions kept in the
    repository), of the validator registered by the language module and of
    the fuller validator kept under [FromClaude/], together with the
    fragment of the ECMAScript string and RegExp semantics these functions
    rely on; of the callers of the extractor, the path-parameter scan of
    the web generator and the argument handling of the command line. *)

From Stdlib Require Import NArith String Ascii.
From stdpp Require Import base option list strings gmap.

Local Open Scope N_scope.

(** ** ECMAScript strings

    A string is a sequence of UTF-16 code units.  Regular expressions
    without the [u] flag work on code units, so nothing below depends on
    how code points are encoded. *)

Module JS.

Abbreviation char := N (only parsing).
Abbreviation str := (list N) (only parsing).

(** Code units of a literal written in ASCII. *)
Fixpoint js (s : string) : str :=
  match s with
  | EmptyString => []
  | String a s' => N_of_ascii a :: js s'
  end.

Definition dquote : char := 34.
Definition squote : char := 39.
Definition newline : char := 10.

(** WhiteSpace and LineTerminator code points: the set [\s] matches and
    [String.prototype.trim] strips. *)
Definition is_space (c : char) : bool :=
  (9 <=? c) && (c <=? 13) || (c =? 32) || (c =? 160) || (c =? 5760)
  || (8192 <=? c) && (c <=? 8202) || (c =? 8232) || (c =? 8233)
  || (c =? 8239) || (c =? 8287) || (c =? 12288) || (c =? 65279).

(** [\w] is [A-Za-z0-9_]. *)
Definition is_word (c : char) : bool :=
  (48 <=? c) && (c <=? 57) || (65 <=? c) && (c <=? 90) || (c =? 95)
  || (97 <=? c) && (c <=? 122).

(** [.] matches everything but the four line terminators. *)
Definition is_line_terminator (c : char) : bool :=
  (c =? 10) || (c =? 13) || (c =? 8232) || (c =? 8233).

Fixpoint drop_while (p : char -> bool) (s : str) : str :=
  match s with
  | c :: s' => if p c then drop_while p s' else s
  | [] => []
  end.

(** [s.trim()] *)
Definition trim (s : str) : str :=
  rev (drop_while is_space (rev (drop_while is_space s))).

(** [s.startsWith(p)] *)
Fixpoint startsWith (p s : str) : bool :=
  match p, s with
  | [], _ => true
  | a :: p', b :: s' => (a =? b) && startsWith p' s'
  | _ :: _, [] => false
  end.

(** [s.includes(p)] *)
Fixpoint includes (p s : str) : bool :=
  startsWith p s || match s with _ :: s' => includes p s' | [] => false end.

(** [s.split(c)] for a separator of one code unit. *)
Fixpoint split (sep : char) (s : str) : list str :=
  match s with
  | [] => [[]]
  | c :: s' =>
      if c =? sep then [] :: split sep s'
      else match split sep s' with
           | p :: ps => (c :: p) :: ps
           | [] => [[c]]
           end
  end.

(** [s.indexOf(c)] and [s.lastIndexOf(c)] for one code unit; -1 when absent. *)
Fixpoint indexOf (c : char) (s : str) : Z :=
  match s with
  | [] => (-1)%Z
  | a :: s' => if a =? c then 0%Z
               else match indexOf c s' with
                    | Zneg _ => (-1)%Z
                    | i => (i + 1)%Z
                    end
  end.

Definition lastIndexOf (c : char) (s : str) : Z :=
  match indexOf c (rev s) with
  | Zneg _ => (-1)%Z
  | i => (Z.of_nat (length s) - 1 - i)%Z
  end.

(** [s.substring(a, b)]: both ends are clamped to [0, length] and swapped
    when out of order. *)
Definition substring (a b : Z) (s : str) : str :=
  let len := Z.of_nat (length s) in
  let a' := Z.min (Z.max a 0) len in
  let b' := Z.min (Z.max b 0) len in
  let from := Z.to_nat (Z.min a' b') in
  let to := Z.to_nat (Z.max a' b') in
  take (to - from)%nat (drop from s).

(** [s.replace(/c/g, '')] for a pattern of one literal code unit. *)
Definition remove_all (c : char) (s : str) : str :=
  List.filter (fun a => negb (a =? c)) s.

(** Outcome of running a piece of code: a value, a thrown exception, or a
    loop that used up its iteration budget. *)
Inductive error :=
| TypeError
| Error (message : string).

Inductive outcome (A : Type) :=
| Ok (a : A)
| Throw (e : error)
| Hang.
Arguments Ok {A} a.
Arguments Throw {A} e.
Arguments Hang {A}.

#[export] Instance outcome_ret : MRet outcome := fun A a => Ok a.
#[export] Instance outcome_bind : MBind outcome := fun A B f o =>
  match o with
  | Ok a => f a
  | Throw e => Throw e
  | Hang => Hang
  end.

(** A value that may be [undefined]; calling a method or reading a
    property on [undefined] throws a TypeError. *)
Definition defined {A} (v : option A) : outcome A :=
  match v with
  | Some a => Ok a
  | None => Throw TypeError
  end.

End JS.

Export JS.

(** ** Regular expressions

    The patterns of the program use literals, character classes, greedy
    and lazy repetition of a single-character atom, concatenation and
    capturing groups; there is no alternation, no assertion, no
    backreference and no group inside a repetition. *)

Module RegExp.

Inductive class_item :=
| CChar (c : char)      (* a literal member *)
| CSpace                (* \s *)
| CNotSpace             (* \S *)
| CWord.                (* \w *)

Inductive atom :=
| Lit (c : char)
| Dot
| Class (negated : bool) (items : list class_item).

Inductive regex :=
| Eps
| Atom (a : atom)
| Cat (r1 r2 : regex)
| Star (greedy : bool) (a : atom)
| Group (n : nat) (r : regex).

Definition item_match (i : class_item) (c : char) : bool :=
  match i with
  | CChar d => c =? d
  | CSpace => is_space c
  | CNotSpace => negb (is_space c)
  | CWord => is_word c
  end.

Definition atom_match (a : atom) (c : char) : bool :=
  match a with
  | Lit d => c =? d
  | Dot => negb (is_line_terminator c)
  | Class negated items => xorb negated (existsb (fun i => item_match i c) items)
  end.

(** Pattern syntax. *)
Fixpoint lit (s : str) : regex :=
  match s with
  | [] => Eps
  | c :: s' => Cat (Atom (Lit c)) (lit s')
  end.
Definition plus (a : atom) : regex := Cat (Atom a) (Star true a).
Definition star (a : atom) : regex := Star true a.
Definition lazy_star (a : atom) : regex := Star false a.
Definition space : atom := Class false [CSpace].     (* \s *)
Definition word : atom := Class false [CWord].       (* \w *)
Definition any : atom := Class true [].              (* [^] *)
Definition any' : atom := Class false [CSpace; CNotSpace].  (* [\s\S] *)
Definition not_char (c : char) : atom := Class true [CChar c].
Fixpoint cat (rs : list regex) : regex :=
  match rs with
  | [] => Eps
  | [r] => r
  | r :: rs' => Cat r (cat rs')
  end.

(** Capture slots: index 0 is the whole match, [None] is [undefined]. *)
Abbreviation captures := (list (option str)) (only parsing).

Fixpoint ngroups (r : regex) : nat :=
  match r with
  | Cat r1 r2 => ngroups r1 `max` ngroups r2
  | Group n r' => n `max` ngroups r'
  | _ => 0
  end.

Section Matcher.
Context {R : Type}.

(** Greedy repetition tries the longest run first and gives characters
    back one at a time; lazy repetition tries the continuation first. *)
Fixpoint star_greedy (p : char -> bool) (s : str) (k : str -> option R) : option R :=
  match s with
  | c :: s' =>
      if p c then
        match star_greedy p s' k with
        | Some r => Some r
        | None => k s
        end
      else k s
  | [] => k []
  end.

Fixpoint star_lazy (p : char -> bool) (s : str) (k : str -> option R) : option R :=
  match k s with
  | Some r => Some r
  | None =>
      match s with
      | c :: s' => if p c then star_lazy p s' k else None
      | [] => None
      end
  end.

(** The backtracking matcher in continuation-passing style: [s] is the
    input that is left, [cs] the captures so far, [k] what remains to be
    matched. *)
Fixpoint run (r : regex) (s : str) (cs : captures)
    (k : str -> captures -> option R) : option R :=
  match r with
  | Eps => k s cs
  | Atom a =>
      match s with
      | c :: s' => if atom_match a c then k s' cs else None
      | [] => None
      end
  | Cat r1 r2 => run r1 s cs (fun s' cs' => run r2 s' cs' k)
  | Star greedy a =>
      (if greedy then star_greedy else star_lazy)
        (atom_match a) s (fun s' => k s' cs)
  | Group n r' =>
      run r' s cs (fun s' cs' =>
        k s' (<[n := Some (take (length s - length s') s)]> cs'))
  end.
End Matcher.

(** One attempt at the start of [s]: the matched prefix and the captures. *)
Definition match_here (r : regex) (s : str) : option (str * captures) :=
  run r s (replicate (S (ngroups r)) None)
    (fun s' cs =>
       let whole := take (length s - length s') s in
       Some (whole, <[0%nat := Some whole]> cs)).

(** The result array of a successful [exec]. *)
Record MatchArray := { index : nat; groups : captures }.

Definition whole (m : MatchArray) : outcome str :=
  defined (mjoin (groups m !! 0%nat)).
Definition group (m : MatchArray) (n : nat) : option str :=
  mjoin (groups m !! n).

(** Scan for the leftmost position, from offset [i] on, where the pattern
    matches; [s] is the input from [i]. *)
Fixpoint search (r : regex) (i : nat) (s : str) : option (MatchArray * nat) :=
  match match_here r s with
  | Some (w, cs) => Some ({| index := i; groups := cs |}, (i + length w)%nat)
  | None =>
      match s with
      | _ :: s' => search r (S i) s'
      | [] => None
      end
  end.

(** A RegExp object: the pattern, the [g] flag and the mutable [lastIndex]. *)
Record RegExp := { source : regex; global : bool; lastIndex : nat }.

Definition regexp (r : regex) (g : bool) : RegExp :=
  {| source := r; global := g; lastIndex := 0 |}.

Definition set_lastIndex (re : RegExp) (i : nat) : RegExp :=
  {| source := source re; global := global re; lastIndex := i |}.

(** [re.exec(s)]: a global pattern starts at [lastIndex], moves it past
    the match, and resets it to 0 on failure. *)
Definition exec (re : RegExp) (s : str) : option MatchArray * RegExp :=
  let start := if global re then lastIndex re else 0%nat in
  if decide (length s < start)%nat then
    (None, if global re then set_lastIndex re 0 else re)
  else
    match search (source re) start (drop start s) with
    | Some (m, e) => (Some m, if global re then set_lastIndex re e else re)
    | None => (None, if global re then set_lastIndex re 0 else re)
    end.

(** [s.match(re)] for a pattern without the [g] flag. *)
Definition match_ (r : regex) (s : str) : option MatchArray :=
  fst (exec (regexp r false) s).

(** [s.match(re)] for a global pattern: every match in turn, [None] (null)
    when there is none.  An empty match moves [lastIndex] one step on. *)
Fixpoint match_loop (fuel : nat) (re : RegExp) (s : str) : option (list str) :=
  match fuel with
  | O => None
  | S fuel' =>
      match exec re s with
      | (None, _) => Some []
      | (Some m, re') =>
          let w := default [] (mjoin (groups m !! 0%nat)) in
          let re'' := if decide (w = []) then set_lastIndex re' (S (lastIndex re')) else re' in
          cons w <$> match_loop fuel' re'' s
      end
  end.

Definition match_all (r : regex) (s : str) : outcome (option (list str)) :=
  match match_loop (length s + 2) (regexp r true) s with
  | None => Hang
  | Some [] => Ok None
  | Some ms => Ok (Some ms)
  end.

End RegExp.

Export RegExp.

(** ** The direct-text extractor ([src/cli/parser.ts])

    [findMatchesInSource] is the same function in both revisions of the
    file.  The loop runs [pattern.exec] until it answers null; the model
    gives it one iteration more than there are positions in the text and
    reports [Hang] should that not be enough. *)

Module Extractor.

Record Match := { start : nat; end_ : nat; text : str }.

Fixpoint findMatches_loop (fuel : nat) (sourceText : str) (pattern : RegExp)
    : outcome (list Match * RegExp) :=
  match fuel with
  | O => Hang
  | S fuel' =>
      match exec pattern sourceText with
      | (None, pattern') => Ok ([], pattern')
      | (Some m, pattern') =>
          text ← whole m;
          let start := index m in
          let end_ := (start + length text)%nat in
          (* Avoid infinite loops for zero-length matches *)
          let pattern'' :=
            if decide (index m = lastIndex pattern')
            then set_lastIndex pattern' (S (lastIndex pattern'))
            else pattern' in
          '(matches, final) ← findMatches_loop fuel' sourceText pattern'';
          Ok ({| start := start; end_ := end_; text := text |} :: matches, final)
      end
  end.

Definition findMatchesInSource (sourceText : str) (pattern : RegExp)
    : outcome (list Match * RegExp) :=
  findMatches_loop (length sourceText + 2) sourceText pattern.

(** [while ((match = re.exec(s)) !== null) { ... }] without the guard for
    empty matches, as in the endpoint loop of the first revision. *)
Fixpoint exec_loop (fuel : nat) (sourceText : str) (pattern : RegExp)
    : outcome (list MatchArray) :=
  match fuel with
  | O => Hang
  | S fuel' =>
      match exec pattern sourceText with
      | (None, _) => Ok []
      | (Some m, pattern') => ms ← exec_loop fuel' sourceText pattern'; Ok (m :: ms)
      end
  end.

(** The patterns.  In the comments [<dq>] stands for the double quote and a
    blank is put between a star and a closing parenthesis. *)
Definition lbrace : char := 123.
Definition rbrace : char := 125.
Definition colon : char := 58.
Definition comma : char := 44.

(* /model\s+(\w+)\s*{([^}]* )}/g *)
Definition model_re : regex :=
  cat [lit (js "model"); plus space; Group 1 (plus word); star space;
       lit [lbrace]; Group 2 (star (not_char rbrace)); lit [rbrace]].
(* /model\s+(\w+)\s*{/ *)
Definition model_name_re : regex :=
  cat [lit (js "model"); plus space; Group 1 (plus word); star space; lit [lbrace]].
(* /model\s+(\w+)/ *)
Definition model_name_re' : regex :=
  cat [lit (js "model"); plus space; Group 1 (plus word)].
(* /{([^}]* )}/ *)
Definition body_re : regex :=
  cat [lit [lbrace]; Group 1 (star (not_char rbrace)); lit [rbrace]].
(* /(\w+)\s*:\s*(\w+)(.* )/ *)
Definition property_re : regex :=
  cat [Group 1 (plus word); star space; lit [colon]; star space;
       Group 2 (plus word); Group 3 (star Dot)].
(* /enum\s*:\s*\[(.*?)\]/ *)
Definition enum_re : regex :=
  cat [lit (js "enum"); star space; lit [colon]; star space; lit (js "[");
       Group 1 (lazy_star Dot); lit (js "]")].
(* /default\s*:\s*([^,\s]+)/ *)
Definition default_re : regex :=
  cat [lit (js "default"); star space; lit [colon]; star space;
       Group 1 (plus (Class true [CChar comma; CSpace]))].
(* /screen\s+(\w+)\s*{([^]*?)}/g *)
Definition screen_re : regex :=
  cat [lit (js "screen"); plus space; Group 1 (plus word); star space;
       lit [lbrace]; Group 2 (lazy_star any); lit [rbrace]].
(* /screen\s+(\w+)\s*{/ *)
Definition screen_name_re : regex :=
  cat [lit (js "screen"); plus space; Group 1 (plus word); star space; lit [lbrace]].
(* /screen\s+(\w+)/ *)
Definition screen_name_re' : regex :=
  cat [lit (js "screen"); plus space; Group 1 (plus word)].
(* /title\s*:\s*<dq>([^<dq>]+)<dq>/ *)
Definition title_re : regex :=
  cat [lit (js "title"); star space; lit [colon]; star space; lit [dquote];
       Group 1 (plus (not_char dquote)); lit [dquote]].
(* /api\s*{[\s\S]*?baseUrl\s*:\s*<dq>([^<dq>]+)<dq>[\s\S]*?}/ *)
Definition api_re : regex :=
  cat [lit (js "api"); star space; lit [lbrace]; lazy_star any';
       lit (js "baseUrl"); star space; lit [colon]; star space; lit [dquote];
       Group 1 (plus (not_char dquote)); lit [dquote]; lazy_star any';
       lit [rbrace]].
(* /endpoint\s+(\w+)\s*{[\s\S]*?path\s*:\s*<dq>([^<dq>]+)<dq>[\s\S]*?method\s*:\s*(\w+)/g *)
Definition endpoint_re1 : regex :=
  cat [lit (js "endpoint"); plus space; Group 1 (plus word); star space;
       lit [lbrace]; lazy_star any'; lit (js "path"); star space; lit [colon];
       star space; lit [dquote]; Group 2 (plus (not_char dquote)); lit [dquote];
       lazy_star any'; lit (js "method"); star space; lit [colon]; star space;
       Group 3 (plus word)].
(* /endpoint\s+(\w+)\s*{([^}]* )}/g *)
Definition endpoint_re : regex :=
  cat [lit (js "endpoint"); plus space; Group 1 (plus word); star space;
       lit [lbrace]; Group 2 (star (not_char rbrace)); lit [rbrace]].
(* /endpoint\s+(\w+)/ *)
Definition endpoint_name_re : regex :=
  cat [lit (js "endpoint"); plus space; Group 1 (plus word)].
(* /path\s*:\s*<dq>([^<dq>]+)<dq>/ *)
Definition path_re : regex :=
  cat [lit (js "path"); star space; lit [colon]; star space; lit [dquote];
       Group 1 (plus (not_char dquote)); lit [dquote]].
(* /method\s*:\s*(\w+)/ *)
Definition method_re : regex :=
  cat [lit (js "method"); star space; lit [colon]; star space; Group 1 (plus word)].

(** [lines.map(line => line.trim()).filter(line => line.length > 0 &&
    !line.startsWith('//'))] *)
Definition propertyLines (propertiesText : str) : list str :=
  List.filter
    (fun line => negb (Nat.eqb (length line) 0) && negb (startsWith (js "//") line))
    (trim <$> split newline propertiesText).

(** Truthiness of a value that is a string or undefined. *)
Definition truthy (v : option str) : bool :=
  match v with
  | Some (_ :: _) => true
  | _ => false
  end.

End Extractor.

Export Extractor.
(** ** The syntax tree of the grammar ([FinanceAppDSL])

    The nodes the checks and the reconciler read.  The layout subtree of a
    screen comes with the screen check, further down; the theme and the
    mock data are not read by any function modelled here and are left
    out. *)

Module Ast.

Record DataType := { dt_name : str; dt_isArray : bool }.

Record EnumValue := { ev_value : str }.

Inductive PropertyFeature :=
| RequiredFeature
| DefaultValueFeature (value : str)
| EnumValuesFeature (values : list EnumValue).

Record Property := {
  prop_name : str;
  prop_type : DataType;
  prop_features : list PropertyFeature }.

Record Model := { model_name : str; model_properties : list Property }.

Record Screen := { screen_name : str; screen_title : str; screen_isInitial : bool }.

(** A cross-reference: the text written and the node it resolved to. *)
Record Reference (A : Type) := { refText : str; ref : option A }.
Arguments refText {A} _.
Arguments ref {A} _.

Record NavItem := {
  nav_title : str;
  nav_icon : option str;
  nav_screen : Reference Screen }.

Record Navigation := { nav_type : str; nav_items : list NavItem }.

Record APIParameter := { param_name : str; param_type : DataType; param_isRequired : bool }.

Record Endpoint := {
  ep_id : str;
  ep_path : str;
  ep_method : str;
  ep_params : option (list APIParameter);
  ep_body : option (Reference Model);
  ep_response : str }.

Record API := { api_baseUrl : str; api_isMock : bool; api_endpoints : list Endpoint }.

Record App := {
  app_name : str;
  app_displayName : str;
  app_appId : str;
  app_version : str;
  app_platforms : list str;
  app_models : list Model;
  app_screens : list Screen;
  app_navigation : option Navigation;
  app_api : option API }.

(** What the document builder hands over: [parseResult?.value] may be
    missing, the text is always there. *)
Record ParseResult := { value : option App }.
Record LangiumDocument := { parseResult : option ParseResult; textDocument : str }.

End Ast.

Export Ast.

(** ** First revision of [parser.ts]

    Every object is built from values of type [any]: a field holds
    [None] where the program would store [undefined]. *)

Module Rev1.

Record Property := {
  p_type : string;                 (* $type *)
  p_name : option str;
  p_datatype : option str;         (* type *)
  isRequired : bool;
  attributes : str;
  enumValues : option (list str);
  defaultValue : option str }.

Record Model := {
  m_type : string;                 (* $type *)
  m_name : option str;
  properties : list Property }.

Record Layout := { l_type : string; l_kind : str; components : list str }.

Record Screen := {
  s_type : string;                 (* $type *)
  s_name : option str;
  isInitial : bool;
  title : option str;
  layout : Layout }.

Record Endpoint := { id : option str; path : option str; method : option str }.

Record API := { baseUrl : str; endpoints : list Endpoint }.

(** A [for ... of] loop whose body either pushes one element or
    [continue]s. *)
Fixpoint for_push {A B} (body : A -> outcome (option B)) (l : list A)
    : outcome (list B) :=
  match l with
  | [] => Ok []
  | a :: l' =>
      b ← body a;
      bs ← for_push body l';
      Ok (match b with Some x => x :: bs | None => bs end)
  end.

(** The body of the loop over the property lines. *)
Definition parseProperty (line : str) : outcome (option Property) :=
  match match_ property_re line with
  | None => Ok None
  | Some propMatch =>
      let propName := group propMatch 1 in
      let propType := group propMatch 2 in
      rest ← defined (group propMatch 3);
      let attributes := trim rest in
      enumValues ←
        match match_ enum_re attributes with
        | Some enumMatch =>
            inner ← defined (group enumMatch 1);
            Ok ((fun v => remove_all dquote (remove_all squote (trim v)))
                  <$> split comma inner)
        | None => Ok []
        end;
      let defaultValue :=
        match match_ default_re attributes with
        | Some defaultMatch => group defaultMatch 1
        | None => None
        end in
      Ok (Some {| p_type := "Property";
                  p_name := propName;
                  p_datatype := propType;
                  isRequired := includes (js "required") attributes;
                  attributes := attributes;
                  enumValues := match enumValues with [] => None | _ => Some enumValues end;
                  defaultValue := defaultValue |})
  end.

(** The body of the loop over the model matches. *)
Definition parseModel (m : Match) : outcome (option Model) :=
  match match_ model_name_re (text m) with
  | None => Ok None
  | Some nameMatch =>
      let name := group nameMatch 1 in
      let propertiesText :=
        substring (indexOf lbrace (text m) + 1) (lastIndexOf rbrace (text m)) (text m) in
      properties ← for_push parseProperty (propertyLines propertiesText);
      Ok (Some {| m_type := "Model"; m_name := name; properties := properties |})
  end.

Definition parseDirectModels (sourceText : str) : outcome (list Model) :=
  found ← findMatchesInSource sourceText (regexp model_re true);
  let modelMatches := found.1 in
  for_push parseModel modelMatches.

Definition parseScreen (m : Match) : outcome (option Screen) :=
  match match_ screen_name_re (text m) with
  | None => Ok None
  | Some nameMatch =>
      let name := group nameMatch 1 in
      Ok (Some {| s_type := "Screen";
                  s_name := name;
                  isInitial := false;
                  title := name;
                  layout := {| l_type := "Layout"; l_kind := js "stack"; components := [] |} |})
  end.

Definition parseDirectScreens (sourceText : str) : outcome (list Screen) :=
  found ← findMatchesInSource sourceText (regexp screen_re true);
  let screenMatches := found.1 in
  for_push parseScreen screenMatches.

(** [None] is the [undefined] the function returns when no API section
    with a base URL is found. *)
Definition parseDirectApi (sourceText : str) : outcome (option API) :=
  match match_ api_re sourceText with
  | None => Ok None
  | Some apiSection =>
      match group apiSection 1 with
      | None | Some [] => Ok None
      | Some baseUrl =>
          endpointMatches ←
            exec_loop (length sourceText + 2) sourceText (regexp endpoint_re1 true);
          Ok (Some {| baseUrl := baseUrl;
                      endpoints :=
                        (fun m => {| id := group m 1; path := group m 2;
                                     method := group m 3 |}) <$> endpointMatches |})
      end
  end.

(** The App node after reconciliation: the tree with the document attached
    and, when the extractor found an API section, its [api] overwritten. *)
Record AppWithDocument := {
  node : App;
  _document : LangiumDocument;
  api : option (Ast.API + API) }.

Record Result := {
  r_app : AppWithDocument;
  r_models : list Model;
  r_screens : list Screen;
  r_api : option API }.

(** [processFinAppFile] from the built document on.  Loading the file,
    the console output and the debug dump of the tree written to
    [generated/app-debug.json] are effects on the host and are not part of
    the result. *)
Definition processFinAppFile (document : LangiumDocument) : outcome Result :=
  match parseResult document ≫= value with
  | None => Throw (Error "Could not parse document")
  | Some app =>
      let sourceText := textDocument document in
      directModels ← parseDirectModels sourceText;
      directScreens ← parseDirectScreens sourceText;
      directApi ← parseDirectApi sourceText;
      Ok {| r_app := {| node := app;
                        _document := document;
                        api := match directApi with
                               | Some a => Some (inr a)
                               | None => inl <$> app_api app
                               end |};
            r_models := directModels;
            r_screens := directScreens;
            r_api := directApi |}
  end.

End Rev1.

(** ** Second revision of [parser.ts]

    The revision that exports its own [App], [Model], [Screen] and [API]
    interfaces. *)

Module Rev2.

Record Property := { p_name : str; p_type : str }.

Record Model := { m_name : str; properties : list Property }.

Record Screen := { s_name : str; isInitial : bool; title : str }.

Record Endpoint := { e_name : str; path : str; method : str }.

(** [baseUrl] is read off the match array as it is. *)
Record API := { baseUrl : option str; endpoints : list Endpoint }.

Record App := {
  name : str;
  models : list Model;
  screens : list Screen;
  api : option API }.

(** [x?.[1]] on the result of [s.match(re)]. *)
Definition capture1 (r : regex) (s : str) : option str :=
  match_ r s ≫= fun m => group m 1.

(** [v || d] for a string or undefined [v]. *)
Definition or_else (v : option str) (d : str) : str :=
  match v with
  | Some (c :: s) => c :: s
  | _ => d
  end.

(** The body of the loop over the property lines:
    [const [propName, propType] = line.split(':').map(s => s.trim())]. *)
Definition parseProperty (line : str) : option Property :=
  let parts := trim <$> split colon line in
  let propName := parts !! 0%nat in
  let propType := parts !! 1%nat in
  match propName, propType with
  | Some (c :: n), Some (d :: t) => Some {| p_name := c :: n; p_type := d :: t |}
  | _, _ => None
  end.

(** The body of the loop over the model matches. *)
Definition parseModel (m : Match) : option Model :=
  match capture1 model_name_re' (text m) with
  | None | Some [] => None
  | Some name =>
      match capture1 body_re (text m) with
      | None | Some [] => None
      | Some propertiesText =>
          Some {| m_name := name;
                  properties := omap parseProperty (propertyLines propertiesText) |}
      end
  end.

Definition parseDirectModels (sourceText : str) : outcome (list Model) :=
  found ← findMatchesInSource sourceText (regexp model_re true);
  let modelMatches := found.1 in
  Ok (omap (M:=list) parseModel modelMatches).

Definition parseScreen (m : Match) : option Screen :=
  match capture1 screen_name_re' (text m) with
  | None | Some [] => None
  | Some name =>
      Some {| s_name := name;
              isInitial := includes (js "initial") (text m);
              title := or_else (capture1 title_re (text m)) name |}
  end.

Definition parseDirectScreens (sourceText : str) : outcome (list Screen) :=
  found ← findMatchesInSource sourceText (regexp screen_re true);
  let screenMatches := found.1 in
  Ok (omap (M:=list) parseScreen screenMatches).

Definition parseEndpoint (m : Match) : Endpoint :=
  {| e_name := or_else (capture1 endpoint_name_re (text m)) [];
     path := or_else (capture1 path_re (text m)) [];
     method := or_else (capture1 method_re (text m)) (js "GET") |}.

Definition parseDirectApi (sourceText : str) : outcome (option API) :=
  match match_ api_re sourceText with
  | None => Ok None
  | Some apiSection =>
      found ← findMatchesInSource sourceText (regexp endpoint_re true);
      let endpointMatches := found.1 in
      Ok (Some {| baseUrl := group apiSection 1;
                  endpoints := parseEndpoint <$> endpointMatches |})
  end.

Record Result := {
  r_app : App;
  r_models : list Model;
  r_screens : list Screen;
  r_api : option API }.

(** [processFinAppFile] from the built document on. *)
Definition processFinAppFile (document : LangiumDocument) : outcome Result :=
  match parseResult document ≫= value with
  | None => Throw (Error "Failed to parse the document")
  | Some ast =>
      let sourceText := textDocument document in
      models ← parseDirectModels sourceText;
      screens ← parseDirectScreens sourceText;
      api ← parseDirectApi sourceText;
      Ok {| r_app := {| name := app_name ast; models := models;
                        screens := screens; api := api |};
            r_models := models;
            r_screens := screens;
            r_api := api |}
  end.

End Rev2.

(** ** Diagnostics

    [accept(severity, message, { node, property })] appends one
    diagnostic; a check is modelled by the list of diagnostics it emits, in
    order.  A node is named by its place under the node being checked. *)

Module Diagnostics.

Inductive Severity := error | warning.

Inductive NodeRef :=
| TheNode                          (* the node the check was called on *)
| ScreenAt (i : nat)               (* app.screens[i] *)
| PropertyAt (i : nat)             (* model.properties[i] *)
| EnumValueAt (i j : nat)          (* the j-th enum value of model.properties[i] *)
| NavItemAt (i : nat)              (* navigation.items[i] *)
| EndpointAt (i : nat).            (* api.endpoints[i] *)

Record Diagnostic := {
  severity : Severity;
  message : str;
  node : NodeRef;
  property : option string }.

Definition accept (sev : Severity) (msg : str) (n : NodeRef) (p : option string)
    : list Diagnostic :=
  [{| severity := sev; message := msg; node := n; property := p |}].

(** The [property] entry of the third argument. *)
Definition prop (name : string) : option string := Some name.

#[export] Instance Severity_eq_dec : EqDecision Severity.
Proof. solve_decision. Defined.
#[export] Instance NodeRef_eq_dec : EqDecision NodeRef.
Proof. solve_decision. Defined.

Definition is_error (d : Diagnostic) : bool := bool_decide (severity d = error).
Definition is_warning (d : Diagnostic) : bool := bool_decide (severity d = warning).

End Diagnostics.

Export Diagnostics.

(** ** The validator registered by the language module

    [registerValidationChecks] registers [checkApp] for App nodes and
    nothing else. *)

Module Validator.

Definition checkApp (app : App) : list Diagnostic :=
  (* Check that there is at least one model *)
  (if Nat.eqb (length (app_models app)) 0
   then accept warning (js "No models defined. At least one model should be defined.")
          TheNode (prop "models")
   else [])
  ++
  (* Check that there's at least one screen *)
  (if Nat.eqb (length (app_screens app)) 0
   then accept warning (js "No screens defined. At least one screen should be defined.")
          TheNode (prop "screens")
   else [])
  ++
  (* Check for initial screen *)
  (if Nat.ltb 0 (length (app_screens app)) then
     let initialScreens := List.filter screen_isInitial (app_screens app) in
     if Nat.eqb (length initialScreens) 0 then
       accept error (js "No initial screen defined. One screen must be marked as initial.")
         TheNode (prop "screens")
     else if Nat.ltb 1 (length initialScreens) then
       accept error (js "Multiple initial screens defined. Only one screen can be marked as initial.")
         TheNode (prop "screens")
     else []
   else []).

End Validator.

(** ** The validator of [FromClaude/custom-validator.txt]

    It registers a check for App, Model, Screen, Navigation and API nodes.
    [checkScreen] reads the layout subtree and has a module of its own,
    [ScreenValidator]. *)

Module CustomValidator.

Section Checks.

(** [String.prototype.toUpperCase], the case mapping of the host. *)
Variable toUpperCase : str -> str.

Definition checkApp (app : App) : list Diagnostic :=
  (if Nat.eqb (length (app_platforms app)) 0
   then accept warning (js "No platforms defined. At least one platform should be specified.")
          TheNode (prop "platforms")
   else [])
  ++
  (if Nat.eqb (length (app_models app)) 0
   then accept warning (js "No models defined. At least one model should be defined.")
          TheNode (prop "models")
   else [])
  ++
  (if Nat.eqb (length (app_screens app)) 0
   then accept warning (js "No screens defined. At least one screen should be defined.")
          TheNode (prop "screens")
   else [])
  ++
  (* Check that there's exactly one initial screen *)
  (let initialScreens :=
     List.filter (fun s => screen_isInitial s.2) (imap pair (app_screens app)) in
   if Nat.eqb (length initialScreens) 0 then
     accept error (js "No initial screen defined. Exactly one screen must be marked as initial.")
       TheNode (prop "screens")
   else if Nat.ltb 1 (length initialScreens) then
     accept error (js "Multiple initial screens defined. Exactly one screen must be marked as initial.")
       TheNode (prop "screens")
     ++
     (* Mark each initial screen as problematic *)
     flat_map (fun s =>
       accept error (js "This screen is marked as initial, but another screen is also marked as initial.")
         (ScreenAt s.1) (prop "isInitial")) initialScreens
   else []).

(** [features?.find(feature => feature.$type === 'EnumValuesFeature')] *)
Fixpoint find_enum (features : list PropertyFeature) : option (list EnumValue) :=
  match features with
  | [] => None
  | EnumValuesFeature values :: _ => Some values
  | _ :: rest => find_enum rest
  end.

Definition is_required (f : PropertyFeature) : bool :=
  match f with RequiredFeature => true | _ => false end.
Definition is_default (f : PropertyFeature) : bool :=
  match f with DefaultValueFeature _ => true | _ => false end.

(** The loop over the enum values: [uniqueValues] is the set of the values
    seen so far. *)
Fixpoint checkEnumValues (i j : nat) (values : list EnumValue)
    (uniqueValues : gset str) : list Diagnostic :=
  match values with
  | [] => []
  | value :: rest =>
      let valueStr := ev_value value in
      (if bool_decide (valueStr ∈ uniqueValues)
       then accept error
              (js "Duplicate enum value: " ++ [dquote] ++ valueStr ++ [dquote] ++ js ".")
              (EnumValueAt i j) None
       else [])
      ++ checkEnumValues i (S j) rest ({[valueStr]} ∪ uniqueValues)
  end.

Definition checkProperty (i : nat) (property : Property) : list Diagnostic :=
  (match find_enum (prop_features property) with
   | Some values =>
       (if bool_decide (dt_name (prop_type property) ≠ js "string")
        then accept error (js "Enum values can only be used with string properties.")
               (PropertyAt i) (prop "type")
        else [])
       ++ checkEnumValues i 0 values ∅
   | None => []
   end)
  ++
  (if existsb is_required (prop_features property)
      && existsb is_default (prop_features property)
   then accept warning
          (js "Properties with default values do not need to be marked as required.")
          (PropertyAt i) None
   else []).

Definition charAt0 (s : str) : str := take 1 s.

Definition checkModel (model : Model) : list Diagnostic :=
  (if Nat.eqb (length (model_properties model)) 0
   then accept error (js "Model must have at least one property.") TheNode None
   else [])
  ++
  (if negb (Nat.eqb (length (model_name model)) 0)
      && bool_decide (charAt0 (model_name model) ≠ toUpperCase (charAt0 (model_name model)))
   then accept warning
          (js "Model names should use PascalCase (start with uppercase letter).")
          TheNode (prop "name")
   else [])
  ++
  (if existsb (fun prop => bool_decide (prop_name prop = js "id")) (model_properties model)
   then []
   else accept warning (js "Model should have an " ++ [dquote] ++ js "id" ++ [dquote]
                          ++ js " property.") TheNode None)
  ++
  concat (imap checkProperty (model_properties model)).

(** The loop over the navigation items: [screenRefs] maps the names seen
    so far (or [undefined], for an unresolved reference) to their item. *)
Fixpoint checkNavItems (i : nat) (items : list NavItem)
    (screenRefs : gmap (option str) NavItem) : list Diagnostic :=
  match items with
  | [] => []
  | item :: rest =>
      let screenName := screen_name <$> ref (nav_screen item) in
      (if truthy screenName && bool_decide (is_Some (screenRefs !! screenName))
       then accept warning
              (js "Screen " ++ [dquote] ++ default [] screenName ++ [dquote]
                 ++ js " is referenced multiple times in navigation.")
              (NavItemAt i) (prop "screen")
       else [])
      ++ checkNavItems (S i) rest (<[screenName := item]> screenRefs)
  end.

Definition checkNavigation (navigation : Navigation) : list Diagnostic :=
  (if Nat.eqb (length (nav_items navigation)) 0
   then accept error (js "Navigation must have at least one item.") TheNode (prop "items")
   else [])
  ++
  checkNavItems 0 (nav_items navigation) ∅
  ++
  (if bool_decide (nav_type navigation = js "tab") && Nat.ltb 5 (length (nav_items navigation))
   then accept warning (js "Tab navigation typically should not have more than 5 items.")
          TheNode (prop "type")
   else []).

(** The loop over the endpoints that looks for duplicate ids. *)
Fixpoint checkEndpointIds (i : nat) (endpoints : list Endpoint)
    (endpointIds : gmap str Endpoint) : list Diagnostic :=
  match endpoints with
  | [] => []
  | endpoint :: rest =>
      (if bool_decide (is_Some (endpointIds !! ep_id endpoint))
       then accept error
              (js "Duplicate endpoint ID: " ++ [dquote] ++ ep_id endpoint ++ [dquote] ++ js ".")
              (EndpointAt i) (prop "id")
       else [])
      ++ checkEndpointIds (S i) rest (<[ep_id endpoint := endpoint]> endpointIds)
  end.

(* /\{([^}]+)\}/g *)
Definition path_param_re : regex :=
  cat [lit [lbrace]; Group 1 (plus (not_char rbrace)); lit [rbrace]].

(** [paramMatches.map(match => match.substring(1, match.length - 1))] *)
Definition pathParams (paramMatches : list str) : list str :=
  (fun m => substring 1 (Z.of_nat (length m) - 1) m) <$> paramMatches.

Definition undefinedPathParam (i : nat) (pathParam : str) : list Diagnostic :=
  accept error
    (js "Path parameter " ++ [dquote] ++ pathParam ++ [dquote]
       ++ js " is not defined in the endpoint parameters.")
    (EndpointAt i) (prop "path").

(** [endpoint.params?.parameters.map(param => param.name) || []] *)
Definition definedParams (endpoint : Endpoint) : list str :=
  match ep_params endpoint with
  | Some parameters => param_name <$> parameters
  | None => []
  end.

(** Check that path parameters are defined. *)
Definition checkPathParams (i : nat) (endpoint : Endpoint) : outcome (list Diagnostic) :=
  if includes [lbrace] (ep_path endpoint) then
    paramMatches ← match_all path_param_re (ep_path endpoint);
    match paramMatches with
    | Some paramMatches =>
        Ok (flat_map (fun pathParam =>
              if bool_decide (pathParam ∈ definedParams endpoint) then []
              else undefinedPathParam i pathParam) (pathParams paramMatches))
    | None => Ok []
    end
  else Ok [].

(** The body of the loop over the endpoints that checks the conventions. *)
Definition checkEndpoint (i : nat) (endpoint : Endpoint) : outcome (list Diagnostic) :=
  let method := ep_method endpoint in
  let path := ep_path endpoint in
  let hasBrace := includes [lbrace] path in
  params ← checkPathParams i endpoint;
  Ok (
    (if bool_decide (method = js "POST") && hasBrace
     then accept warning (js "POST endpoints typically should not have path parameters. Consider using query parameters or request body.")
            (EndpointAt i) (prop "path")
     else [])
    ++
    (if bool_decide (method = js "PUT") && negb hasBrace
     then accept warning (js "PUT endpoints typically should include a resource ID in the path.")
            (EndpointAt i) (prop "path")
     else [])
    ++
    (if bool_decide (method = js "DELETE") && negb hasBrace
     then accept warning (js "DELETE endpoints typically should include a resource ID in the path.")
            (EndpointAt i) (prop "path")
     else [])
    ++ params ++
    (if (bool_decide (method = js "POST") || bool_decide (method = js "PUT"))
        && negb (bool_decide (is_Some (ep_body endpoint)))
     then accept warning (method ++ js " endpoints typically should have a request body defined.")
            (EndpointAt i) None
     else [])
    ++
    (if (bool_decide (method = js "GET") || bool_decide (method = js "DELETE"))
        && bool_decide (is_Some (ep_body endpoint))
     then accept warning (method ++ js " endpoints typically should not have a request body.")
            (EndpointAt i) (prop "body")
     else [])).

Fixpoint checkEndpoints (i : nat) (endpoints : list Endpoint) : outcome (list Diagnostic) :=
  match endpoints with
  | [] => Ok []
  | endpoint :: rest =>
      ds ← checkEndpoint i endpoint;
      ds' ← checkEndpoints (S i) rest;
      Ok (ds ++ ds')
  end.

Definition checkAPI (api : API) : outcome (list Diagnostic) :=
  conventions ← checkEndpoints 0 (api_endpoints api);
  Ok ((if Nat.eqb (length (api_endpoints api)) 0
       then accept warning (js "API should have at least one endpoint.")
              TheNode (prop "endpoints")
       else [])
      ++ checkEndpointIds 0 (api_endpoints api) ∅
      ++ conventions).

End Checks.

End CustomValidator.

(** ** The web generator ([src/cli/generator/base/index.ts])

    [extractPathParams] collects the first group of every match of the
    path-parameter pattern; an element of the result is [None] where
    [match[1]] would be [undefined]. *)

Module WebGenerator.

(* /{([^}]+)}/g *)
Definition params_re : regex :=
  cat [lit [lbrace]; Group 1 (plus (not_char rbrace)); lit [rbrace]].

Definition extractPathParams (path : str) : outcome (list (option str)) :=
  matches ← exec_loop (length path + 2) path (regexp params_re true);
  Ok (fmap (M:=list) (fun m => group m 1) matches).

End WebGenerator.

(** ** The screen check of [FromClaude/custom-validator.txt]

    The layout subtree of a screen as far as [checkScreen] reads it.  The
    grammar makes the layout of a screen mandatory, yet the check asks
    whether it is there: a tree recovered from a text that does not parse
    may lack it. *)

Module Layouts.

Record NavigationAction := { nav_target : str }.

Record Action := { action_name : str; action_navigation : option NavigationAction }.

Inductive Component :=
| MkComponent (type : str) (properties : list ComponentProperty)
with ComponentProperty :=
| StringProperty (name text : str)
| DataProperty (path : str)
| ActionProperty (actions : list Action)
| PropertyMap (entries : list (str * str))
| ItemsProperty (items : list Component).

Record FormField := {
  field_type : str;
  field_name : str;
  field_label : str;
  field_isRequired : bool }.

Record Layout := {
  lay_type : str;                             (* layout.type.type *)
  lay_components : option (list Component);   (* layout.components?.items *)
  lay_fields : option (list FormField);       (* layout.fields?.fields *)
  lay_actions : option (list Action);         (* layout.actions?.actions *)
  lay_submitButton : option str;
  lay_cancelButton : option str }.

(** A screen node with its layout. *)
Record ScreenNode := { sn_screen : Screen; sn_layout : option Layout }.

(** The node a diagnostic of the screen check is filed under. *)
Inductive ScreenNodeRef := TheScreen | TheLayout.

Record ScreenDiagnostic := {
  sd_severity : Severity;
  sd_message : str;
  sd_node : ScreenNodeRef;
  sd_property : option string }.

Definition accept_at (sev : Severity) (msg : str) (n : ScreenNodeRef) (p : option string)
    : list ScreenDiagnostic :=
  [{| sd_severity := sev; sd_message := msg; sd_node := n; sd_property := p |}].

End Layouts.

Export Layouts.

Module ScreenValidator.

Section Checks.

(** [String.prototype.toUpperCase], the case mapping of the host. *)
Variable toUpperCase : str -> str.

(** [screen.layout.components?.items.some(component =>
      component.type.type === 'tabs' && component.properties.some(prop =>
        prop.$type === 'ItemsProperty' && prop.items.length > 0))];
    [undefined] counts as false. *)
Definition hasTabItems (layout : Layout) : bool :=
  match lay_components layout with
  | Some items =>
      existsb (fun component =>
        match component with
        | MkComponent type properties =>
            bool_decide (type = js "tabs")
            && existsb (fun prop =>
                 match prop with
                 | ItemsProperty items => Nat.ltb 0 (length items)
                 | _ => false
                 end) properties
        end) items
  | None => false
  end.

(** The [switch] on the layout type. *)
Definition checkLayout (layout : Layout) : list ScreenDiagnostic :=
  let type := lay_type layout in
  if bool_decide (type = js "form") then
    (if match lay_fields layout with
        | Some fields => Nat.eqb (length fields) 0
        | None => true
        end
     then accept_at error (js "Form layout must have at least one field.")
            TheLayout (prop "fields")
     else [])
    ++
    (match lay_submitButton layout with
     | Some _ => []
     | None => accept_at warning (js "Form layout should have a submit button.")
                 TheLayout None
     end)
    ++
    (match lay_actions layout with
     | Some _ => []
     | None => accept_at warning
                 (js "Form layout should have actions defined for form submission.")
                 TheLayout None
     end)
  else if bool_decide (type = js "stack") || bool_decide (type = js "scroll") then
    (if match lay_components layout with
        | Some items => Nat.eqb (length items) 0
        | None => true
        end
     then accept_at error (type ++ js " layout must have at least one component.")
            TheLayout (prop "components")
     else [])
  else if bool_decide (type = js "tabs") then
    (if hasTabItems layout then []
     else accept_at error
            (js "Tabs layout must have a tabs component with at least one tab item.")
            TheLayout None)
  else [].

(** [validateScreenNavigation] starts by reading [screen.layout.components].
    Its walk over the components and the actions reads every further
    field behind a guard and calls [accept] nowhere, so nothing else of
    it shows. *)
Definition validateScreenNavigation (screen : ScreenNode) : outcome unit :=
  layout ← defined (sn_layout screen);
  Ok tt.

(** The diagnostics accepted, and how the check ends. *)
Definition checkScreen (screen : ScreenNode) : list ScreenDiagnostic * outcome unit :=
  let name := screen_name (sn_screen screen) in
  ((if negb (Nat.eqb (length name) 0)
       && bool_decide (CustomValidator.charAt0 name
                       ≠ toUpperCase (CustomValidator.charAt0 name))
    then accept_at warning
           (js "Screen names should use PascalCase (start with uppercase letter).")
           TheScreen (prop "name")
    else [])
   ++
   (match sn_layout screen with
    | Some _ => []
    | None => accept_at error (js "Screen must have a layout defined.") TheScreen None
    end)
   ++
   (match sn_layout screen with
    | Some layout => checkLayout layout
    | None => []
    end),
   validateScreenNavigation screen).

End Checks.

End ScreenValidator.

(** ** The command line ([main], [handleFlagFormat], [handlePositionalFormat])

    What [main] goes on to do with the arguments after the program name:
    leave with an exit code, or call [generateFromFile]. *)

Module Cli.



Section Main.

(** [String.prototype.toLowerCase], the case mapping of the host. *)
Variable toLowerCase : str -> str.







End Main.

End Cli.

(** ** Specification vocabulary

    What it means for a word to match a pattern, stated without the
    matcher: the language of the pattern together with the captures a
    match leaves behind. *)

Module Denotation.

Fixpoint denote (r : regex) (w : str) (cs cs' : captures) : Prop :=
  match r with
  | Eps => w = [] ∧ cs' = cs
  | Atom a => (∃ c, w = [c] ∧ atom_match a c = true) ∧ cs' = cs
  | Cat r1 r2 =>
      ∃ w1 w2 cs1, w = w1 ++ w2 ∧ denote r1 w1 cs cs1 ∧ denote r2 w2 cs1 cs'
  | Star _ a => Forall (fun c => atom_match a c = true) w ∧ cs' = cs
  | Group n r' => ∃ cs1, denote r' w cs cs1 ∧ cs' = <[n := Some w]> cs1
  end.

(** The capture slots before a match is attempted. *)
Definition no_captures (r : regex) : captures := replicate (S (ngroups r)) None.

(** [w] occurs in [s]. *)
Definition Substring (w s : str) : Prop := ∃ pre post, s = pre ++ w ++ post.

(** The pattern occurs somewhere in [s]. *)
Definition Occurs (r : regex) (s : str) : Prop :=
  ∃ pre w post cs, s = pre ++ w ++ post ∧ denote r w (no_captures r) cs.

(** A match is at least as long as the literals and the mandatory atoms of
    the pattern. *)
Fixpoint min_length (r : regex) : nat :=
  match r with
  | Eps => 0
  | Atom _ => 1
  | Cat r1 r2 => min_length r1 + min_length r2
  | Star _ _ => 0
  | Group _ r' => min_length r'
  end.

(** The groups of a pattern: each of them takes part in every match. *)
Fixpoint has_group (n : nat) (r : regex) : bool :=
  match r with
  | Cat r1 r2 => has_group n r1 || has_group n r2
  | Group m r' => Nat.eqb n m || has_group n r'
  | _ => false
  end.

(** The text of [m] is the slice of the source between its two offsets. *)
Definition Slice (s : str) (m : Match) : Prop :=
  ∃ pre post,
    s = pre ++ text m ++ post ∧ start m = length pre
    ∧ end_ m = (start m + length (text m))%nat.

(** A block the scan reports: a slice of the source that is in the
    language of the pattern. *)
Definition Block (r : regex) (s : str) (m : Match) : Prop :=
  Slice s m ∧ ∃ cs, denote r (text m) (no_captures r) cs.

(** Blocks in text order: each starts at or after [from], and the next one
    starts after the end of this one and at least one position on. *)
Inductive Ordered : nat -> list Match -> Prop :=
| Ordered_nil from : Ordered from []
| Ordered_cons from m ms :
    (from <= start m)%nat -> (start m <= end_ m)%nat ->
    Ordered (end_ m `max` S (start m)) ms ->
    Ordered from (m :: ms).

End Denotation.

Export Denotation.

(** ** Vocabulary of the claims about validation *)

Module Vocabulary.

(** The number of screens marked initial. *)
Definition initial_count (app : App) : nat :=
  length (List.filter screen_isInitial (app_screens app)).

(** The error diagnostics about the initial screen: those whose message
    speaks of an initial screen. *)
Definition initial_errors (ds : list Diagnostic) : list Diagnostic :=
  List.filter (fun d => is_error d && includes (js "initial") (message d)) ds.

Definition some_DataType (name : string) : DataType :=
  {| dt_name := js name; dt_isArray := false |}.

Definition a_screen (name : string) (initial : bool) : Screen :=
  {| screen_name := js name; screen_title := js name; screen_isInitial := initial |}.

(** An application with the given screens and nothing else. *)
Definition app_with (screens : list Screen) : App :=
  {| app_name := js "A"; app_displayName := js "A"; app_appId := js "a";
     app_version := js "1"; app_platforms := []; app_models := [];
     app_screens := screens; app_navigation := None; app_api := None |}.

(** [status: string enum: [open, closed, open]] *)
Definition status_property : Property :=
  {| prop_name := js "status";
     prop_type := some_DataType "string";
     prop_features :=
       [EnumValuesFeature [{| ev_value := js "open" |}; {| ev_value := js "closed" |};
                           {| ev_value := js "open" |}]] |}.

(** [count: number enum: [1,2]] *)
Definition count_property : Property :=
  {| prop_name := js "count";
     prop_type := some_DataType "number";
     prop_features :=
       [EnumValuesFeature [{| ev_value := js "1" |}; {| ev_value := js "2" |}]] |}.

(** The diagnostics a model check files under property [i] or under one
    of its enum values. *)
Definition about_property (i : nat) (d : Diagnostic) : bool :=
  match node d with
  | PropertyAt j | EnumValueAt j _ => Nat.eqb i j
  | _ => false
  end.

Definition duplicate_enum_errors (ds : list Diagnostic) : list Diagnostic :=
  List.filter (fun d => is_error d && startsWith (js "Duplicate enum value") (message d)) ds.

Definition enum_type_errors (ds : list Diagnostic) : list Diagnostic :=
  List.filter (fun d => is_error d
     && bool_decide (message d = js "Enum values can only be used with string properties.")) ds.

(** The screen name a navigation item resolves to, if it resolves. *)
Definition resolved (item : NavItem) : option str :=
  screen_name <$> ref (nav_screen item).

(** The warning filed under item [i] for a screen referenced again. *)
Definition multiple_reference (i : nat) (screenName : str) : Diagnostic :=
  {| severity := warning;
     message := js "Screen " ++ [dquote] ++ screenName ++ [dquote]
                  ++ js " is referenced multiple times in navigation.";
     node := NavItemAt i;
     property := prop "screen" |}.

Definition is_multiple_reference (d : Diagnostic) : bool :=
  is_warning d && includes (js "is referenced multiple times") (message d).

(** The warnings owed to a list of navigation items: one under each item
    whose screen name an earlier item (or one of [before]) resolved to
    already; [i] is the position of the first item. *)
Definition repeated_from (i : nat) (before : list (option str)) (items : list NavItem)
    : list Diagnostic :=
  concat (imap (fun k item =>
    match resolved item with
    | Some screenName =>
        if bool_decide (Some screenName ∈ before ++ take k (resolved <$> items))
        then [multiple_reference (i + k) screenName]
        else []
    | None => []
    end) items).

Definition repeated_references (items : list NavItem) : list Diagnostic :=
  repeated_from 0 [] items.

(** Every screen name a navigation item resolves to is an identifier of
    the grammar, hence not empty. *)
Definition resolved_names_nonempty (items : list NavItem) : Prop :=
  Forall (fun item => resolved item ≠ Some []) items.

Definition nav_to (name : string) : NavItem :=
  {| nav_title := js name; nav_icon := None;
     nav_screen := {| refText := js name; ref := Some (a_screen name false) |} |}.

#[export] Instance Diagnostic_eq_dec : EqDecision Diagnostic.
Proof. solve_decision. Defined.

(** How often [x] occurs in [l]. *)
Definition occurrences {A} `{EqDecision A} (x : A) (l : list A) : nat :=
  length (List.filter (fun y => bool_decide (y = x)) l).

(** The [{name}] tokens the scan of a path finds, braces stripped. *)
Definition path_tokens (path : str) : list str :=
  match match_all CustomValidator.path_param_re path with
  | Ok (Some paramMatches) => CustomValidator.pathParams paramMatches
  | _ => []
  end.

(** The error filed under endpoint [i] for a path parameter that is not
    declared. *)
Definition undefined_path_parameter (i : nat) (pathParam : str) : Diagnostic :=
  {| severity := error;
     message := js "Path parameter " ++ [dquote] ++ pathParam ++ [dquote]
                  ++ js " is not defined in the endpoint parameters.";
     node := EndpointAt i;
     property := prop "path" |}.

Definition an_endpoint (path : str) (params : option (list APIParameter)) : Endpoint :=
  {| ep_id := js "e"; ep_path := path; ep_method := js "GET"; ep_params := params;
     ep_body := None; ep_response := js "R" |}.

Definition an_api (endpoints : list Endpoint) : API :=
  {| api_baseUrl := js "http://localhost"; api_isMock := false; api_endpoints := endpoints |}.

(** ** Vocabulary of the claims about extraction *)

Definition Spaces (ws : str) : Prop := Forall (fun c => is_space c = true) ws.
Definition Words (w : str) : Prop := Forall (fun c => is_word c = true) w.
Definition Without (c : char) (s : str) : Prop := Forall (fun d => d ≠ c) s.

(** [keyword NAME { body }]: the shape of a screen, model or endpoint
    block.  A screen body is any text; the scan ends it at the first
    closing brace it can. *)
Definition BlockShape (keyword blk name body : str) : Prop :=
  ∃ ws ws', blk = keyword ++ ws ++ name ++ ws' ++ [lbrace] ++ body ++ [rbrace]
            ∧ ws ≠ [] ∧ Spaces ws ∧ name ≠ [] ∧ Words name ∧ Spaces ws'.

(** [key: <dq>value<dq>] occurs in the block, the value not empty. *)
Definition QuotedField (key blk value : str) : Prop :=
  ∃ pre ws1 ws2 post,
    blk = pre ++ key ++ ws1 ++ [colon] ++ ws2 ++ [dquote] ++ value ++ [dquote] ++ post
    ∧ Spaces ws1 ∧ Spaces ws2 ∧ value ≠ [] ∧ Without dquote value.


(** [model M { a: string required\nb: number default: 5 }] *)
Definition model_M_source : str :=
  js "model M { a: string required" ++ [newline] ++ js "b: number default: 5 }".


(** A model block without a name, then a model whose body has a line
    that is no property and a comment line. *)
Definition malformed_models_source : str :=
  js "model { a: string } model M { ???" ++ [newline] ++ js "// note" ++ [newline]
    ++ js " b: number }".

(** Two screens, the first with a title and the [initial] marker. *)
Definition two_screens_source : str :=
  js "screen Home { title: " ++ [dquote] ++ js "My Home" ++ [dquote]
    ++ js " initial layout: { x } } screen B { }".


(** Running a piece of code a second time after the first run returned. *)
Definition twice {A} (run : outcome A) : outcome (A * A) :=
  first ← run; second ← run; Ok (first, second).

End Vocabulary.

Export Vocabulary.

(** ** Vocabulary of the further properties *)

Module Notions.

(** *** Scanning *)

(** The position [p] lies in the block [m]; an empty block holds its own
    start. *)
Definition Covers (m : Match) (p : nat) : Prop :=
  (start m <= p < end_ m `max` S (start m))%nat.

(** The pattern occurs in [s] at offset [p]. *)
Definition OccursAt (r : regex) (s : str) (p : nat) : Prop :=
  ∃ pre w post cs, s = pre ++ w ++ post ∧ length pre = p ∧ denote r w (no_captures r) cs.

(** The text of the block is the word the matcher picks at its start. *)
Definition Picked (r : regex) (s : str) (m : Match) : Prop :=
  ∃ pre post cs,
    s = pre ++ text m ++ post ∧ start m = length pre
    ∧ match_here r (text m ++ post) = Some (text m, cs).

(** The text the endpoint pattern of the first revision matches:
    [endpoint ID {], anything, [path: <dq>PATH<dq>], anything,
    [method: METHOD]. *)
Definition EndpointText (id path method w : str) : Prop :=
  ∃ ws ws' gap1 ws1 ws2 gap2 ws3 ws4,
    w = js "endpoint" ++ ws ++ id ++ ws' ++ [lbrace] ++ gap1
          ++ js "path" ++ ws1 ++ [colon] ++ ws2 ++ [dquote] ++ path ++ [dquote] ++ gap2
          ++ js "method" ++ ws3 ++ [colon] ++ ws4 ++ method
    ∧ ws ≠ [] ∧ Spaces ws ∧ id ≠ [] ∧ Words id ∧ Spaces ws'
    ∧ Spaces ws1 ∧ Spaces ws2 ∧ path ≠ [] ∧ Without dquote path
    ∧ Spaces ws3 ∧ Spaces ws4 ∧ method ≠ [] ∧ Words method.

(** An API section with one complete endpoint. *)
Definition one_endpoint_source : str :=
  js "api { baseUrl: " ++ [dquote] ++ js "http://x" ++ [dquote]
    ++ js " } endpoint ping { path: " ++ [dquote] ++ js "/ping" ++ [dquote]
    ++ js " method: GET }".


(** *** Findings of the checks *)

(** The findings a loop with a memory of the keys seen so far owes to a
    list: one under each element whose key an earlier element (or one of
    [before]) had already; [i] is the position of the first element. *)
Definition duplicates_from {A} (key : A -> str) (finding : nat -> str -> Diagnostic)
    (i : nat) (before : list str) (l : list A) : list Diagnostic :=
  concat (imap (fun k a =>
    if bool_decide (key a ∈ before ++ take k (key <$> l))
    then [finding (i + k)%nat (key a)] else []) l).

(** The error filed under the [j]-th enum value of property [i]. *)
Definition duplicate_enum_value (i j : nat) (valueStr : str) : Diagnostic :=
  {| severity := error;
     message := js "Duplicate enum value: " ++ [dquote] ++ valueStr ++ [dquote] ++ js ".";
     node := EnumValueAt i j;
     property := None |}.

(** The error filed under endpoint [i]. *)
Definition duplicate_endpoint_id (i : nat) (id : str) : Diagnostic :=
  {| severity := error;
     message := js "Duplicate endpoint ID: " ++ [dquote] ++ id ++ [dquote] ++ js ".";
     node := EndpointAt i;
     property := prop "id" |}.

Definition no_properties : Diagnostic :=
  {| severity := error;
     message := js "Model must have at least one property.";
     node := TheNode;
     property := None |}.

(** The enum of a property is in order: it sits on a string property and
    lists no value twice.  Only the first enum feature of a property is
    looked at. *)
Definition EnumInOrder (p : Property) : Prop :=
  match CustomValidator.find_enum (prop_features p) with
  | Some values => dt_name (prop_type p) = js "string" ∧ NoDup (ev_value <$> values)
  | None => True
  end.

(** Every [{name}] token of the path is a declared parameter. *)
Definition PathParamsDeclared (endpoint : Endpoint) : Prop :=
  Forall (fun token => token ∈ CustomValidator.definedParams endpoint)
    (path_tokens (ep_path endpoint)).

Definition errors (ds : list Diagnostic) : list Diagnostic := List.filter is_error ds.

(** The endpoint follows the conventions of its method: no [{] in the
    path of a POST, one in the path of a PUT or a DELETE, a body for POST
    and PUT, none for GET and DELETE. *)
Definition FollowsConventions (endpoint : Endpoint) : Prop :=
  let brace := Substring [lbrace] (ep_path endpoint) in
  let body := is_Some (ep_body endpoint) in
  (ep_method endpoint = js "POST" -> ¬ brace ∧ body)
  ∧ (ep_method endpoint = js "PUT" -> brace ∧ body)
  ∧ (ep_method endpoint = js "DELETE" -> brace ∧ ¬ body)
  ∧ (ep_method endpoint = js "GET" -> ¬ body).


(** *** The screen check and the command line *)

(** The layout has what its type asks for. *)
Definition LayoutInOrder (layout : Layout) : Prop :=
  (lay_type layout = js "form" -> ∃ f fs, lay_fields layout = Some (f :: fs))
  ∧ (lay_type layout = js "stack" ∨ lay_type layout = js "scroll" ->
       ∃ c cs, lay_components layout = Some (c :: cs))
  ∧ (lay_type layout = js "tabs" -> ScreenValidator.hasTabItems layout = true).

Definition layout_missing : ScreenDiagnostic :=
  {| sd_severity := error;
     sd_message := js "Screen must have a layout defined.";
     sd_node := TheScreen;
     sd_property := None |}.

Definition screen_errors (ds : list ScreenDiagnostic) : list ScreenDiagnostic :=
  List.filter (fun d => bool_decide (sd_severity d = error)) ds.


End Notions.

Export Notions.

(* ================================================================== *)
(** * Properties *)

(** ** The matcher against the denotation *)

Section MatcherFacts.
Context {R : Type}.
Implicit Types (k : str -> option R) (p : char -> bool).

Lemma star_greedy_sound p s k x :
  star_greedy p s k = Some x ->
  ∃ w s', s = w ++ s' ∧ Forall (fun c => p c = true) w ∧ k s' = Some x.
Proof.
  induction s as [|c s IH]; simpl.
  - intros Hk. by exists [], [].
  - destruct (p c) eqn:Hp.
    + destruct (star_greedy p s k) as [r|] eqn:Hs.
      * intros [= ->]. destruct (IH eq_refl) as (w & s' & -> & Hw & Hk).
        exists (c :: w), s'. split_and!; [done | by constructor | done].
      * intros Hk. by exists [], (c :: s).
    + intros Hk. by exists [], (c :: s).
Qed.

Lemma star_greedy_complete p w s' k :
  Forall (fun c => p c = true) w -> is_Some (k s') ->
  is_Some (star_greedy p (w ++ s') k).
Proof.
  intros Hw Hk. induction Hw as [|c w Hc Hw IH]; simpl.
  - destruct s' as [|c s']; simpl; [done|].
    destruct (p c); [|done]. by destruct (star_greedy p s' k).
  - rewrite Hc. destruct IH as [r ->]. by eexists.
Qed.

Lemma star_lazy_sound p s k x :
  star_lazy p s k = Some x ->
  ∃ w s', s = w ++ s' ∧ Forall (fun c => p c = true) w ∧ k s' = Some x.
Proof.
  induction s as [|c s IH]; simpl.
  - destruct (k []) eqn:Hk; [|done]. intros [= ->]. by exists [], [].
  - destruct (k (c :: s)) eqn:Hk.
    + intros [= ->]. by exists [], (c :: s).
    + destruct (p c) eqn:Hp; [|done]. intros Hs.
      destruct (IH Hs) as (w & s' & -> & Hw & Hk').
      exists (c :: w), s'. split_and!; [done | by constructor | done].
Qed.

Lemma star_lazy_complete p w s' k :
  Forall (fun c => p c = true) w -> is_Some (k s') ->
  is_Some (star_lazy p (w ++ s') k).
Proof.
  intros Hw Hk. induction Hw as [|c w Hc Hw IH]; simpl.
  - destruct Hk as [r Hk]. destruct s'; simpl; rewrite Hk; by eexists.
  - destruct (k (c :: w ++ s')); [by eexists|]. by rewrite Hc.
Qed.

Lemma take_app_minus (w s' : str) :
  take (length (w ++ s') - length s') (w ++ s') = w.
Proof.
  rewrite length_app.
  replace (length w + length s' - length s')%nat with (length w) by lia.
  by rewrite take_app_length.
Qed.

Lemma run_sound r : forall s cs (k : str -> captures -> option R) x,
  run r s cs k = Some x ->
  ∃ w s' cs', s = w ++ s' ∧ denote r w cs cs' ∧ k s' cs' = Some x.
Proof.
  induction r as [|a|r1 IH1 r2 IH2|g a|n r IH]; intros s cs k x; simpl.
  - intros Hk. by exists [], s, cs.
  - destruct s as [|c s]; [done|]. destruct (atom_match a c) eqn:Ha; [|done].
    intros Hk. exists [c], s, cs. split_and!; [done | by eexists | done | done].
  - intros H1. destruct (IH1 _ _ _ _ H1) as (w1 & s1 & cs1 & -> & D1 & H2).
    destruct (IH2 _ _ _ _ H2) as (w2 & s2 & cs2 & -> & D2 & Hk).
    exists (w1 ++ w2), s2, cs2. rewrite <-(assoc_L (++)).
    split_and!; [done | by exists w1, w2, cs1 | done].
  - intros Hs.
    assert (∃ w s', s = w ++ s' ∧ Forall (fun c => atom_match a c = true) w
                    ∧ k s' cs = Some x) as (w & s' & -> & Hw & Hk).
    { destruct g; [by apply star_greedy_sound in Hs | by apply star_lazy_sound in Hs]. }
    by exists w, s', cs.
  - intros H1. destruct (IH _ _ _ _ H1) as (w & s' & cs' & -> & D & Hk).
    rewrite take_app_minus in Hk.
    exists w, s', (<[n := Some w]> cs'). split_and!; [done | by exists cs' | done].
Qed.

Lemma run_complete r : forall w s' cs cs' (k : str -> captures -> option R),
  denote r w cs cs' -> is_Some (k s' cs') -> is_Some (run r (w ++ s') cs k).
Proof.
  induction r as [|a|r1 IH1 r2 IH2|g a|n r IH]; intros w s' cs cs' k; simpl.
  - by intros [-> ->].
  - intros [(c & -> & Ha) ->] Hk. simpl. by rewrite Ha.
  - intros (w1 & w2 & cs1 & -> & D1 & D2) Hk. rewrite <-(assoc_L (++)).
    eapply IH1; [done|]. by eapply IH2.
  - intros [Hw ->] Hk.
    destruct g; [by apply star_greedy_complete | by apply star_lazy_complete].
  - intros (cs1 & D & ->) Hk. eapply IH; [done|]. by rewrite take_app_minus.
Qed.
End MatcherFacts.

Lemma denote_length r : forall w cs cs', denote r w cs cs' -> length cs' = length cs.
Proof.
  induction r as [|a|r1 IH1 r2 IH2|g a|n r IH]; intros w cs cs'; simpl.
  - by intros [_ ->].
  - by intros [_ ->].
  - intros (w1 & w2 & cs1 & _ & D1 & D2).
    by rewrite (IH2 _ _ _ D2), (IH1 _ _ _ D1).
  - by intros [_ ->].
  - intros (cs1 & D & ->). etrans; [apply length_insert | by eapply IH].
Qed.

Lemma match_here_sound r s w cs :
  match_here r s = Some (w, cs) ->
  ∃ s' cs0, s = w ++ s' ∧ denote r w (no_captures r) cs0
            ∧ cs = <[0%nat := Some w]> cs0.
Proof.
  unfold match_here. intros H.
  apply run_sound in H as (w' & s' & cs0 & -> & D & Hk).
  rewrite take_app_minus in Hk. injection Hk as <- <-. by exists s', cs0.
Qed.

Lemma match_here_complete r w s' cs0 :
  denote r w (no_captures r) cs0 -> is_Some (match_here r (w ++ s')).
Proof. intros D. unfold match_here. by eapply run_complete. Qed.

Lemma match_here_whole r s w cs :
  match_here r s = Some (w, cs) -> cs !! 0%nat = Some (Some w).
Proof.
  intros H. apply match_here_sound in H as (s' & cs0 & _ & D & ->).
  apply list_lookup_insert_eq. rewrite (denote_length _ _ _ _ D).
  unfold no_captures. rewrite length_replicate. lia.
Qed.

(** What a successful scan tells: where the match lies, that the matched
    word is in the language, and that it is the word the matcher picks at
    that position. *)
Lemma search_sound r : forall s i m e,
  search r i s = Some (m, e) ->
  ∃ pre w post cs0,
    s = pre ++ w ++ post ∧ index m = (i + length pre)%nat
    ∧ e = (index m + length w)%nat
    ∧ denote r w (no_captures r) cs0
    ∧ groups m = <[0%nat := Some w]> cs0
    ∧ match_here r (w ++ post) = Some (w, groups m).
Proof.
  induction s as [|c s IH]; intros i m e; simpl.
  - destruct (match_here r []) as [[w cs]|] eqn:Hm; [|done].
    intros [= <- <-]. pose proof Hm as Hm'.
    apply match_here_sound in Hm as (s' & cs0 & Hs & D & ->).
    exists [], w, s', cs0. simpl. rewrite <-Hs.
    split_and!; [done | lia | done | done | done | done].
  - destruct (match_here r (c :: s)) as [[w cs]|] eqn:Hm.
    + intros [= <- <-]. pose proof Hm as Hm'.
      apply match_here_sound in Hm as (s' & cs0 & Hs & D & ->).
      exists [], w, s', cs0. simpl. rewrite <-Hs.
      split_and!; [done | lia | done | done | done | done].
    + intros H. apply IH in H as (pre & w & post & cs0 & -> & Hi & He & D & Hg & Hm').
      exists (c :: pre), w, post, cs0. simpl.
      split_and!; [done | lia | done | done | done | done].
Qed.

Lemma search_complete r : forall pre w post cs0 i,
  denote r w (no_captures r) cs0 -> is_Some (search r i (pre ++ w ++ post)).
Proof.
  induction pre as [|c pre IH]; intros w post cs0 i D; simpl.
  - destruct (match_here_complete r w post cs0 D) as [[w' cs] Hm].
    destruct w, post; simpl in *; rewrite Hm; by eexists.
  - destruct (match_here r (c :: pre ++ w ++ post)) as [[w' cs]|]; [by eexists|].
    by eapply IH.
Qed.

Lemma search_none r s i : search r i s = None -> ¬ Occurs r s.
Proof.
  intros Hn (pre & w & post & cs & -> & D).
  destruct (search_complete r pre w post cs i D) as [x Hx]. congruence.
Qed.

(** The scan starts with the position it is given. *)
Lemma search_here r s i w cs :
  match_here r s = Some (w, cs) ->
  search r i s = Some ({| index := i; groups := cs |}, (i + length w)%nat).
Proof. intros H. destruct s; simpl; by rewrite H. Qed.

Lemma search_index r : forall s i m e,
  search r i s = Some (m, e) -> (i <= index m)%nat ∧ (index m <= e)%nat ∧ (e <= i + length s)%nat.
Proof.
  intros s i m e H.
  apply search_sound in H as (pre & w & post & cs0 & -> & Hi & He & _).
  rewrite !length_app. lia.
Qed.

Lemma search_whole r s i m e :
  search r i s = Some (m, e) -> ∃ w, whole m = Ok w ∧ e = (index m + length w)%nat.
Proof.
  intros H. apply search_sound in H as (pre & w & post & cs0 & -> & Hi & He & D & Hg & Hm).
  exists w. split; [|done]. unfold whole. by rewrite (match_here_whole _ _ _ _ Hm).
Qed.

(** ** [exec] and the scanning loops *)

Lemma match_search r s : match_ r s = fst <$> search r 0 s.
Proof.
  unfold match_, exec; simpl. destruct (decide (length s < 0)%nat); [lia|].
  rewrite drop_0. by destruct (search r 0 s) as [[m e]|].
Qed.

Lemma match_sound r s m :
  match_ r s = Some m ->
  ∃ pre w post cs0,
    s = pre ++ w ++ post ∧ denote r w (no_captures r) cs0
    ∧ groups m = <[0%nat := Some w]> cs0.
Proof.
  rewrite match_search. destruct (search r 0 s) as [[m' e]|] eqn:Hs; [|done].
  intros [= <-]. apply search_sound in Hs as (pre & w & post & cs0 & ? & ? & ? & ? & ? & ?).
  by exists pre, w, post, cs0.
Qed.

Lemma match_complete r s : Occurs r s -> is_Some (match_ r s).
Proof.
  intros (pre & w & post & cs & -> & D). rewrite match_search.
  destruct (search_complete r pre w post cs 0 D) as [[m e] ->]. by eexists.
Qed.

Lemma match_none r s : match_ r s = None <-> ¬ Occurs r s.
Proof.
  split.
  - rewrite match_search. destruct (search r 0 s) eqn:Hs; [done|].
    intros _. by eapply search_none.
  - intros Hn. destruct (match_ r s) eqn:Hm; [|done].
    destruct Hn. apply match_sound in Hm as (pre & w & post & cs0 & ? & ? & ?).
    by exists pre, w, post, cs0.
Qed.

(** A match found at the very start of the text is the one [match] reports. *)
Lemma match_at_start r w s' cs0 :
  denote r w (no_captures r) cs0 ->
  ∃ m w' s'' cs1, match_ r (w ++ s') = Some m ∧ w ++ s' = w' ++ s''
    ∧ denote r w' (no_captures r) cs1 ∧ groups m = <[0%nat := Some w']> cs1.
Proof.
  intros D. destruct (match_here_complete r w s' cs0 D) as [[w' cs] Hm].
  rewrite match_search, (search_here _ _ 0 _ _ Hm). simpl.
  apply match_here_sound in Hm as (s'' & cs1 & Hs & D' & ->).
  by exists {| index := 0; groups := <[0%nat := Some w']> cs1 |}, w', s'', cs1.
Qed.

(** One step of a global pattern. *)
Lemma exec_global_none re s re' :
  global re = true -> exec re s = (None, re') ->
  re' = set_lastIndex re 0
  ∧ ((length s < lastIndex re)%nat ∨ ¬ Occurs (source re) (drop (lastIndex re) s)).
Proof.
  unfold exec. intros ->. destruct (decide _) as [Hlt|Hge].
  - intros [= <-]. split; [done | by left].
  - destruct (search _ _ _) as [[m e]|] eqn:Hs; [done|].
    intros [= <-]. split; [done|]. right. by eapply search_none.
Qed.

Lemma exec_global_some re s m re' :
  global re = true -> exec re s = (Some m, re') ->
  ∃ pre w post cs0,
    s = pre ++ w ++ post ∧ index m = length pre
    ∧ (lastIndex re <= index m)%nat
    ∧ denote (source re) w (no_captures (source re)) cs0
    ∧ groups m = <[0%nat := Some w]> cs0
    ∧ whole m = Ok w
    ∧ re' = set_lastIndex re (index m + length w).
Proof.
  unfold exec. intros ->. destruct (decide _) as [Hlt|Hge]; [done|].
  destruct (search _ _ _) as [[m' e]|] eqn:Hs; [|done].
  intros [= <- <-]. pose proof (search_whole _ _ _ _ _ Hs) as (w' & Hw & He).
  apply search_sound in Hs as (pre & w & post & cs0 & Hd & Hi & He' & D & Hg & Hm).
  exists (take (lastIndex re) s ++ pre), w, post, cs0.
  assert (w' = w) as ->.
  { unfold whole in Hw. rewrite (match_here_whole _ _ _ _ Hm) in Hw. by injection Hw. }
  split_and!; try done.
  - by rewrite <-(assoc_L (++)), <-Hd, take_drop.
  - rewrite length_app, length_take. lia.
  - lia.
  - by rewrite He.
Qed.

Lemma findMatches_loop_spec fuel : forall s re,
  global re = true -> (0 < fuel)%nat -> (length s + 2 <= lastIndex re + fuel)%nat ->
  ∃ ms, findMatches_loop fuel s re = Ok (ms, set_lastIndex re 0)
        ∧ Forall (Block (source re) s) ms
        ∧ Ordered (lastIndex re) ms.
Proof.
  induction fuel as [|fuel IH]; intros s re Hg Hpos Hfuel; [lia|]. simpl.
  destruct (exec re s) as [[m|] re'] eqn:He.
  - apply exec_global_some in He
      as (pre & w & post & cs0 & Hs & Hi & Hli & D & Hgr & Hw & ->); [|done].
    rewrite Hw. simpl.
    assert (length s = length pre + length w + length post)%nat as Hlen.
    { rewrite Hs, !length_app. lia. }
    set (re'' := if decide _ then _ else _).
    assert (global re'' = true ∧ source re'' = source re
            ∧ lastIndex re'' = ((index m + length w) `max` S (index m))%nat
            ∧ set_lastIndex re'' 0 = set_lastIndex re 0) as (Hg'' & Hsrc & Hli'' & Hset).
    { subst re''. destruct (decide _) as [Heq|Hne]; simpl in *;
        (split_and!; [done | done | lia | done]). }
    destruct (IH s re'' Hg'') as (ms & -> & Hbl & Hord); [lia | lia |].
    simpl. eexists. split; [by rewrite Hset|]. rewrite Hsrc, Hli'' in *. split.
    + constructor; [|done]. split; [exists pre, post | exists cs0]; simpl; by rewrite ?Hi.
    + constructor; simpl; [lia | lia | done].
  - apply exec_global_none in He as [-> _]; [|done].
    exists []. split_and!; [done | constructor | constructor].
Qed.

(** The scan of a global pattern always returns, leaves the pattern object
    as it found it, and reports blocks of the source in text order. *)
Lemma findMatchesInSource_spec s r :
  ∃ ms, findMatchesInSource s (regexp r true) = Ok (ms, regexp r true)
        ∧ Forall (Block r s) ms ∧ Ordered 0 ms.
Proof.
  destruct (findMatches_loop_spec (length s + 2) s (regexp r true))
    as (ms & H & Hb & Ho); simpl; [done | lia | lia |].
  by exists ms.
Qed.

(** ** Reading the denotation of a pattern *)

Lemma atom_space c : atom_match space c = is_space c.
Proof. simpl. by rewrite orb_false_r. Qed.

Lemma atom_word c : atom_match word c = is_word c.
Proof. simpl. by rewrite orb_false_r. Qed.

Lemma atom_not_char d c : atom_match (not_char d) c = negb (c =? d).
Proof. simpl. by rewrite orb_false_r. Qed.


Lemma atom_any' c : atom_match any' c = true.
Proof. simpl. by destruct (is_space c). Qed.

Lemma denote_lit l : forall w cs cs', denote (lit l) w cs cs' <-> w = l ∧ cs' = cs.
Proof.
  induction l as [|c l IH]; intros w cs cs'; simpl; [done|]. split.
  - intros (w1 & w2 & cs1 & -> & [(d & -> & Hd) ->] & D).
    apply IH in D as [-> ->]. by apply N.eqb_eq in Hd as ->.
  - intros [-> ->]. exists [c], l, cs. split_and!; [done | | done | by apply IH].
    exists c. by rewrite N.eqb_refl.
Qed.

Lemma denote_plus a w cs cs' :
  denote (plus a) w cs cs'
  <-> w ≠ [] ∧ Forall (fun c => atom_match a c = true) w ∧ cs' = cs.
Proof.
  simpl. split.
  - intros (w1 & w2 & cs1 & -> & [(c & -> & Hc) ->] & Hw & ->).
    split_and!; [done | by constructor | done].
  - intros (Hne & Hw & ->). destruct Hw as [|c w Hc Hw]; [done|].
    exists [c], w, cs. split_and!; [done | by exists c | done | done | done].
Qed.

Lemma denote_cat r rs w cs cs' :
  denote (cat (r :: rs)) w cs cs'
  <-> ∃ w1 w2 cs1, w = w1 ++ w2 ∧ denote r w1 cs cs1 ∧ denote (cat rs) w2 cs1 cs'.
Proof.
  destruct rs as [|r' rs]; [|done]. simpl. split.
  - intros D. exists w, [], cs'. by rewrite (right_id_L [] (++)).
  - intros (w1 & w2 & cs1 & -> & D & -> & ->). by rewrite (right_id_L [] (++)).
Qed.

Lemma denote_min_length r : forall w cs cs',
  denote r w cs cs' -> (min_length r <= length w)%nat.
Proof.
  induction r as [|a|r1 IH1 r2 IH2|g a|n r IH]; intros w cs cs'; simpl.
  - lia.
  - by intros [(c & -> & _) _].
  - intros (w1 & w2 & cs1 & -> & D1 & D2). rewrite length_app.
    apply IH1 in D1. apply IH2 in D2. lia.
  - lia.
  - intros (cs1 & D & _). by eapply IH.
Qed.

Lemma denote_keeps r n : forall w cs cs',
  denote r w cs cs' -> is_Some (mjoin (cs !! n)) -> is_Some (mjoin (cs' !! n)).
Proof.
  induction r as [|a|r1 IH1 r2 IH2|g a|m r IH]; intros w cs cs'; cbn [denote].
  - by intros [_ ->].
  - by intros [_ ->].
  - intros (w1 & w2 & cs1 & _ & D1 & D2) H. eapply IH2; [done|]. by eapply IH1.
  - by intros [_ ->].
  - intros (cs1 & D & ->) H. eapply IH in H; [|done].
    destruct (decide (m = n)) as [->|Hne].
    + rewrite list_lookup_insert_eq; [by eexists|].
      apply lookup_lt_is_Some. destruct (cs1 !! n); [by eexists | by destruct H].
    + by rewrite list_lookup_insert_ne.
Qed.

Lemma denote_sets r n : forall w cs cs',
  denote r w cs cs' -> has_group n r = true -> (n < length cs)%nat ->
  is_Some (mjoin (cs' !! n)).
Proof.
  induction r as [|a|r1 IH1 r2 IH2|g a|m r IH]; intros w cs cs';
    cbn [denote has_group]; try done.
  - intros (w1 & w2 & cs1 & _ & D1 & D2) Hg Hn.
    apply orb_true_iff in Hg as [Hg|Hg].
    + eapply denote_keeps; [done|]. by eapply IH1.
    + eapply IH2; [done.. |]. by rewrite (denote_length _ _ _ _ D1).
  - intros (cs1 & D & ->) Hg Hn.
    destruct (decide (n = m)) as [->|Hne].
    + rewrite list_lookup_insert_eq; [by eexists|]. by rewrite (denote_length _ _ _ _ D).
    + rewrite list_lookup_insert_ne by done.
      apply orb_true_iff in Hg as [Hg|Hg]; [by apply Nat.eqb_eq in Hg|].
      by eapply IH.
Qed.

(** After a successful [match] every group of the pattern is defined. *)
Lemma match_group_defined r s m n :
  match_ r s = Some m -> has_group n r = true -> (0 < n <= ngroups r)%nat ->
  is_Some (group m n).
Proof.
  intros Hm Hg Hn. apply match_sound in Hm as (pre & w & post & cs0 & _ & D & Hgr).
  unfold group. rewrite Hgr, list_lookup_insert_ne by lia.
  eapply denote_sets; [done | done |]. unfold no_captures. rewrite length_replicate. lia.
Qed.

(** ** The initial-screen rule *)

Lemma length_filter_flat_map_accept {A} (f : A -> NodeRef) (p : Diagnostic -> bool)
    sev msg pr (l : list A) :
  (forall n, p {| severity := sev; message := msg; node := n; property := pr |} = true) ->
  length (List.filter p (flat_map (fun a => accept sev msg (f a) pr) l)) = length l.
Proof.
  intros Hp. induction l as [|a l IH]; [done|]. simpl. rewrite Hp. simpl. by rewrite IH.
Qed.

Lemma length_filter_imap_pair {A} (p : A -> bool) (l : list A) : forall (g : nat -> nat),
  length (List.filter (fun s : nat * A => p s.2) (imap (fun i a => (g i, a)) l))
  = length (List.filter p l).
Proof.
  induction l as [|a l IH]; intros g; [done|]. simpl.
  destruct (p a); simpl; [f_equal|]; apply (IH (g ∘ S)).
Qed.

Lemma registered_checkApp_initial app :
  length (initial_errors (Validator.checkApp app))
  = if decide (app_screens app = []) then 0%nat
    else if decide (initial_count app = 1%nat) then 0%nat else 1%nat.
Proof.
  unfold Validator.checkApp, initial_errors, initial_count.
  rewrite !List.filter_app, !length_app.
  destruct (app_screens app) as [|s ss] eqn:Hs.
  - simpl. by destruct (length (app_models app)).
  - destruct (decide _) as [|_]; [done|].
    replace (length (s :: ss) =? 0)%nat with false by done.
    replace (0 <? length (s :: ss))%nat with true by done.
    set (n := length (List.filter screen_isInitial (s :: ss))).
    assert (forall b : bool, length (List.filter (fun d => is_error d && includes (js "initial") (message d))
      (if b then accept warning (js "No models defined. At least one model should be defined.")
          TheNode (prop "models") else [])) = 0%nat) as -> by (by intros []).
    simpl. destruct n as [|[|n]]; by vm_compute.
Qed.

Lemma custom_checkApp_initial app :
  length (initial_errors (CustomValidator.checkApp app))
  = if decide (initial_count app = 1%nat) then 0%nat
    else if decide (initial_count app = 0%nat) then 1%nat
    else S (initial_count app).
Proof.
  unfold CustomValidator.checkApp, initial_errors, initial_count.
  rewrite !List.filter_app, !length_app.
  assert (forall (b : bool) m pr,
    length (List.filter (fun d => is_error d && includes (js "initial") (message d))
      (if b then accept warning m TheNode pr else [])) = 0%nat) as Hw.
  { by intros [] m pr. }
  rewrite !Hw.
  rewrite <-(length_filter_imap_pair screen_isInitial (app_screens app) id).
  change (imap (fun i a => (id i, a)) (app_screens app)) with (imap pair (app_screens app)).
  destruct (List.filter _ (imap pair (app_screens app))) as [|s1 [|s2 l]];
    [done | done |].
  replace (length (s1 :: s2 :: l) =? 0)%nat with false by done.
  replace (1 <? length (s1 :: s2 :: l))%nat with true by done.
  rewrite List.filter_app, length_app, length_filter_flat_map_accept by done.
  done.
Qed.

(** C1, as amended.  With exactly one screen marked initial neither
    validator reports an error about the initial screen.  The registered
    validator reports exactly one such error when the screen list is not
    empty and zero or several screens are marked initial, and none when
    there is no screen at all.  The validator of [custom-validator.txt]
    reports exactly one when no screen is marked initial, and one for the
    application plus one for each marked screen when several are. *)
Theorem initial_screen_errors_counted (app : App) :
  length (initial_errors (Validator.checkApp app))
    = (if decide (app_screens app = []) then 0
       else if decide (initial_count app = 1) then 0 else 1)%nat
  ∧ length (initial_errors (CustomValidator.checkApp app))
    = (if decide (initial_count app = 1) then 0
       else if decide (initial_count app = 0) then 1
       else 1 + initial_count app)%nat.
Proof. split; [apply registered_checkApp_initial | apply custom_checkApp_initial]. Qed.

(** C1 fails as stated: without any screen no screen is marked initial and
    the registered validator reports no error; with two screens marked
    initial the validator of [custom-validator.txt] reports three. *)
Lemma initial_screen_errors_not_always_one :
  ¬ (initial_count (app_with []) = 0%nat ->
     length (initial_errors (Validator.checkApp (app_with []))) = 1%nat)
  ∧ ¬ ((2 <= initial_count (app_with [a_screen "A" true; a_screen "B" true]))%nat ->
       length (initial_errors
         (CustomValidator.checkApp (app_with [a_screen "A" true; a_screen "B" true]))) = 1%nat).
Proof.
  split.
  - intros H. specialize (H eq_refl). vm_compute in H. discriminate.
  - intros H. assert (2 <= 2)%nat as H2 by lia. specialize (H H2).
    vm_compute in H. discriminate.
Qed.

(** ** Enum values *)

Lemma checkProperty_nodes j p :
  Forall (fun d => node d = PropertyAt j ∨ ∃ k, node d = EnumValueAt j k)
    (CustomValidator.checkProperty j p).
Proof.
  unfold CustomValidator.checkProperty. apply Forall_app; split.
  - destruct (CustomValidator.find_enum _) as [values|]; [|constructor].
    apply Forall_app; split.
    + destruct (bool_decide _); repeat constructor.
    + generalize (∅ : gset str), 0%nat. induction values as [|v vs IH]; intros seen n.
      * constructor.
      * cbn [CustomValidator.checkEnumValues]. apply Forall_app; split; [|apply IH].
        destruct (bool_decide _); [|constructor].
        constructor; [|constructor]. right. by eexists.
  - destruct (_ && _); repeat constructor.
Qed.

Lemma about_property_checkProperty i j p :
  List.filter (about_property i) (CustomValidator.checkProperty j p)
  = if decide (i = j) then CustomValidator.checkProperty j p else [].
Proof.
  induction (checkProperty_nodes j p) as [|d ds Hd _ IH]; [by destruct (decide _)|].
  cbn [List.filter]. rewrite IH.
  assert (about_property i d = bool_decide (i = j)) as ->.
  { unfold about_property. destruct Hd as [->|[k ->]];
      by destruct (Nat.eqb_spec i j), (bool_decide_reflect (i = j)). }
  by destruct (decide _), (bool_decide_reflect (i = j)).
Qed.

Lemma about_property_imap i : forall (ps : list Property) (k : nat),
  List.filter (about_property i) (concat (imap (fun j => CustomValidator.checkProperty (k + j)) ps))
  = match ps !! (i - k)%nat with
    | Some p => if decide (k <= i)%nat then CustomValidator.checkProperty i p else []
    | None => []
    end.
Proof.
  induction ps as [|p ps IH]; intros k; [done|]. simpl.
  rewrite List.filter_app, about_property_checkProperty, Nat.add_0_r.
  rewrite (imap_ext _ (fun j => CustomValidator.checkProperty (S k + j)))
    by (intros; unfold compose; f_equal; lia).
  rewrite IH. destruct (decide (i = k)) as [->|Hne].
  - rewrite Nat.sub_diag. simpl. rewrite decide_True by lia.
    replace (k - S k)%nat with 0%nat by lia.
    destruct (ps !! 0%nat); [|by rewrite app_nil_r].
    rewrite decide_False by lia. by rewrite app_nil_r.
  - simpl. destruct (decide (k <= i)%nat) as [Hle|Hgt].
    + replace (i - k)%nat with (S (i - S k)) by lia. simpl.
      destruct (ps !! _); [|done]. by rewrite decide_True by lia.
    + replace (i - k)%nat with 0%nat by lia. replace (i - S k)%nat with 0%nat by lia.
      destruct (ps !! 0%nat); [|done]. by rewrite decide_False by lia.
Qed.

(** What a model check files under a property is what the loop body emits
    for that property. *)
Lemma checkModel_about_property up model i p :
  model_properties model !! i = Some p ->
  List.filter (about_property i) (CustomValidator.checkModel up model)
  = CustomValidator.checkProperty i p.
Proof.
  intros Hp. unfold CustomValidator.checkModel. rewrite !List.filter_app.
  assert (forall (b : bool) sev m pr,
    List.filter (about_property i) (if b then accept sev m TheNode pr else []) = []) as Hn.
  { by intros []. }
  rewrite !Hn.
  change (imap CustomValidator.checkProperty (model_properties model))
    with (imap (fun j => CustomValidator.checkProperty (0 + j)) (model_properties model)).
  rewrite (about_property_imap i (model_properties model) 0), Nat.sub_0_r, Hp.
  rewrite decide_True by lia. by destruct (existsb _ _).
Qed.

Lemma find_enum_Some features values :
  EnumValuesFeature values ∈ features ->
  is_Some (CustomValidator.find_enum features).
Proof.
  induction features as [|f fs IH]; [by intros ?%elem_of_nil|].
  intros [<-|Hin]%elem_of_cons; [by eexists|].
  destruct f; simpl; [by apply IH | by apply IH | by eexists].
Qed.

Lemma checkEnumValues_no_type_error i : forall values j seen,
  enum_type_errors (CustomValidator.checkEnumValues i j values seen) = [].
Proof.
  induction values as [|v vs IH]; intros j seen; [done|].
  cbn [CustomValidator.checkEnumValues]. unfold enum_type_errors in *.
  rewrite List.filter_app, IH, app_nil_r.
  destruct (bool_decide _); [|done]. cbn [accept List.filter message].
  rewrite bool_decide_eq_false_2; [by rewrite andb_false_r|].
  cbn [js app]. intros [=].
Qed.

Lemma status_property_diagnostics i :
  duplicate_enum_errors (CustomValidator.checkProperty i status_property)
  = [{| severity := error;
        message := js "Duplicate enum value: " ++ [dquote] ++ js "open" ++ [dquote] ++ js ".";
        node := EnumValueAt i 2;
        property := None |}].
Proof. by vm_compute. Qed.

(** C6.  In a model that declares [status: string enum: [open, closed,
    open]], the check of the model files exactly one duplicate-value error
    under that property, for the second [open].  Under a property that
    carries an enum feature and whose type is not [string], such as
    [count: number enum: [1,2]], it files the error that enum values can
    only be used with string properties. *)
Theorem enum_values_checked (toUpperCase : str -> str) (model : Model)
    (i j : nat) (p : Property) (values : list EnumValue) :
  model_properties model !! i = Some status_property ->
  model_properties model !! j = Some p ->
  EnumValuesFeature values ∈ prop_features p ->
  dt_name (prop_type p) ≠ js "string" ->
  duplicate_enum_errors
      (List.filter (about_property i) (CustomValidator.checkModel toUpperCase model))
    = [{| severity := error;
          message := js "Duplicate enum value: " ++ [dquote] ++ js "open" ++ [dquote] ++ js ".";
          node := EnumValueAt i 2;
          property := None |}]
  ∧ enum_type_errors
      (List.filter (about_property j) (CustomValidator.checkModel toUpperCase model))
    = [{| severity := error;
          message := js "Enum values can only be used with string properties.";
          node := PropertyAt j;
          property := prop "type" |}].
Proof.
  intros Hi Hj Hv Hty. split.
  - rewrite (checkModel_about_property _ _ _ _ Hi). apply status_property_diagnostics.
  - rewrite (checkModel_about_property _ _ _ _ Hj).
    unfold CustomValidator.checkProperty.
    destruct (find_enum_Some _ _ Hv) as [vs ->].
    rewrite bool_decide_eq_true_2 by done.
    unfold enum_type_errors at 1. rewrite !List.filter_app.
    fold (enum_type_errors (CustomValidator.checkEnumValues j 0 vs ∅)).
    rewrite checkEnumValues_no_type_error.
    by destruct (_ && _).
Qed.

Lemma enum_values_checked_witness :
  let model := {| model_name := js "Ticket";
                  model_properties := [status_property; count_property] |} in
  duplicate_enum_errors
      (List.filter (about_property 0) (CustomValidator.checkModel id model))
    = [{| severity := error;
          message := js "Duplicate enum value: " ++ [dquote] ++ js "open" ++ [dquote] ++ js ".";
          node := EnumValueAt 0 2;
          property := None |}]
  ∧ enum_type_errors
      (List.filter (about_property 1) (CustomValidator.checkModel id model))
    = [{| severity := error;
          message := js "Enum values can only be used with string properties.";
          node := PropertyAt 1;
          property := prop "type" |}].
Proof.
  intros model.
  apply (enum_values_checked id model 0 1 count_property
           [{| ev_value := js "1" |}; {| ev_value := js "2" |}]).
  - reflexivity.
  - reflexivity.
  - apply list_elem_of_here.
  - vm_compute. discriminate.
Defined.

(** ** Substrings *)

Lemma startsWith_spec p : forall s, startsWith p s = true <-> ∃ post, s = p ++ post.
Proof.
  induction p as [|a p IH]; intros s; simpl.
  - split; [by exists s | done].
  - destruct s as [|b s]; [split; [done | by intros [post [=]]]|].
    rewrite andb_true_iff, N.eqb_eq, IH. split.
    + intros [-> [post ->]]. by exists post.
    + intros [post [= -> ->]]. split; [done | by exists post].
Qed.

Lemma includes_spec p : forall s, includes p s = true <-> Substring p s.
Proof.
  induction s as [|c s IH]; cbn [includes].
  - rewrite orb_false_r, startsWith_spec. split.
    + intros [post ->]. by exists [], post.
    + intros ([|? ?] & post & H); [by exists post | done].
  - rewrite orb_true_iff, startsWith_spec, IH. split.
    + intros [[post ->]|(pre & post & ->)]; [by exists [], post | by exists (c :: pre), post].
    + intros ([|c' pre] & post & H); [left; by exists post|].
      injection H as -> ->. right. by exists pre, post.
Qed.

Lemma includes_false p s : includes p s = false <-> ¬ Substring p s.
Proof. rewrite <-includes_spec. by destruct (includes p s). Qed.

(** ** Navigation items *)

Lemma is_multiple_reference_true i n : is_multiple_reference (multiple_reference i n) = true.
Proof.
  unfold is_multiple_reference, multiple_reference; cbn [is_warning severity message].
  apply andb_true_iff; split; [done|]. apply includes_spec.
  exists (js "Screen " ++ [dquote] ++ n ++ [dquote] ++ js " "), (js " in navigation.").
  by rewrite <-!(assoc_L (++)).
Qed.

Lemma checkNavItems_repeated : forall items i before refs,
  resolved_names_nonempty items ->
  (forall key, is_Some (refs !! key) <-> key ∈ before) ->
  CustomValidator.checkNavItems i items refs = repeated_from i before items.
Proof.
  induction items as [|item items IH]; intros i before refs Hne Hrefs; [done|].
  apply Forall_cons in Hne as [Hitem Hne].
  unfold repeated_from. cbn [CustomValidator.checkNavItems imap concat fmap list_fmap].
  fold (resolved item). f_equal.
  - rewrite app_nil_r, Nat.add_0_r. destruct (resolved item) as [n|] eqn:Hr; [|done].
    assert (truthy (Some n) = true) as -> by (by destruct n).
    cbn [andb default]. rewrite (bool_decide_ext _ _ (Hrefs (Some n))).
    by destruct (bool_decide _).
  - rewrite (IH (S i) (before ++ [resolved item])); [|done|].
    + unfold repeated_from. f_equal. apply imap_ext. intros k x _. unfold compose.
      cbn [take]. rewrite <-(assoc_L (++)). cbn [app].
      by replace (S i + k)%nat with (i + S k)%nat by lia.
    + intros key. rewrite lookup_insert_is_Some, elem_of_app, list_elem_of_singleton, Hrefs.
      split.
      * intros [<-|[_ ?]]; [by right | by left].
      * intros [? | ->]; [|by left].
        destruct (decide (resolved item = key)); [by left | by right].
Qed.

Lemma repeated_from_NoDup : forall items i before,
  NoDup (omap id before ++ omap resolved items) -> repeated_from i before items = [].
Proof.
  induction items as [|item items IH]; intros i before Hnd; [done|].
  unfold repeated_from. cbn [imap concat fmap list_fmap].
  assert (forall n, resolved item = Some n ->
    ¬ Some n ∈ before ++ take 0 (resolved item :: (resolved <$> items))) as Hhead.
  { intros n Hr Hin. cbn [take] in Hin. rewrite app_nil_r in Hin.
    cbn [omap list_omap] in Hnd. rewrite Hr in Hnd.
    apply NoDup_app in Hnd as (_ & Hdis & _). apply (Hdis n).
    - apply list_elem_of_omap. by exists (Some n).
    - apply list_elem_of_here. }
  assert (match resolved item with
          | Some n => if bool_decide (Some n ∈ before ++ take 0 (resolved item :: (resolved <$> items)))
                      then [multiple_reference (i + 0) n] else []
          | None => [] end = []) as ->.
  { destruct (resolved item) as [n|]; [|done].
    by rewrite (bool_decide_eq_false_2 _ (Hhead n eq_refl)). }
  cbn [app]. trans (repeated_from (S i) (before ++ [resolved item]) items); [|apply IH].
  - unfold repeated_from. f_equal. apply imap_ext. intros k x _. unfold compose.
    cbn [take]. rewrite <-(assoc_L (++)). cbn [app].
    by replace (S i + k)%nat with (i + S k)%nat by lia.
  - rewrite omap_app, <-(assoc_L (++)). cbn [omap list_omap] in *.
    by destruct (resolved item).
Qed.

Lemma elem_of_concat_imap {A B} (f : nat -> A -> list B) (b : B) : forall (l : list A),
  b ∈ concat (imap f l) <-> ∃ k a, l !! k = Some a ∧ b ∈ f k a.
Proof.
  intros l. revert f. induction l as [|a l IH]; intros f; cbn [imap concat].
  - split; [by intros ?%elem_of_nil | by intros (k & a & ? & _)].
  - rewrite elem_of_app, IH. split.
    + intros [H|(k & a' & Hk & H)]; [by exists 0%nat, a | by exists (S k), a'].
    + intros ([|k] & a' & Hk & H); [left; by injection Hk as -> | right; by exists k, a'].
Qed.

Lemma filter_all {A} (p : A -> bool) (l : list A) :
  Forall (fun a => p a = true) l -> List.filter p l = l.
Proof. induction 1 as [|a l Ha _ IH]; [done|]. simpl. by rewrite Ha, IH. Qed.

Lemma repeated_from_all i before items :
  Forall (fun d => is_multiple_reference d = true) (repeated_from i before items).
Proof.
  apply Forall_forall. intros d (k & item & _ & Hd)%elem_of_concat_imap.
  destruct (resolved item) as [n|]; [|by apply elem_of_nil in Hd].
  destruct (bool_decide _); [|by apply elem_of_nil in Hd].
  apply list_elem_of_singleton in Hd as ->. apply is_multiple_reference_true.
Qed.

Lemma multiple_reference_inj i n j m :
  multiple_reference i n = multiple_reference j m -> i = j ∧ n = m.
Proof.
  unfold multiple_reference. intros [= Hmsg Hnode]. split; [done|].
  by apply app_inv_tail in Hmsg.
Qed.

Lemma checkNavigation_multiple_references navigation :
  resolved_names_nonempty (nav_items navigation) ->
  List.filter is_multiple_reference (CustomValidator.checkNavigation navigation)
  = repeated_references (nav_items navigation).
Proof.
  intros Hne. unfold CustomValidator.checkNavigation. rewrite !List.filter_app.
  rewrite (checkNavItems_repeated _ 0 [] ∅ Hne).
  - rewrite (filter_all _ _ (repeated_from_all _ _ _)).
    destruct (Nat.eqb _ 0); destruct (_ && _); cbn; by rewrite ?app_nil_r.
  - intros key. rewrite lookup_empty, elem_of_nil. split; [by intros [? ?] | done].
Qed.

Lemma repeated_references_elem items i item n :
  items !! i = Some item -> resolved item = Some n ->
  multiple_reference i n ∈ repeated_references items
  <-> ∃ j item', (j < i)%nat ∧ items !! j = Some item' ∧ resolved item' = Some n.
Proof.
  intros Hi Hr. unfold repeated_references, repeated_from. rewrite elem_of_concat_imap.
  assert (Some n ∈ take i (resolved <$> items)
          <-> ∃ j item', (j < i)%nat ∧ items !! j = Some item' ∧ resolved item' = Some n) as Hin.
  { rewrite list_elem_of_lookup. split.
    - intros [j Hj]. apply lookup_take_Some in Hj as [Hj Hlt].
      rewrite list_lookup_fmap in Hj. destruct (items !! j) as [item'|] eqn:Hj'; [|done].
      injection Hj as Hj. by exists j, item'.
    - intros (j & item' & Hlt & Hj & Hr'). exists j.
      rewrite lookup_take_lt by done. by rewrite list_lookup_fmap, Hj; simpl; rewrite Hr'. }
  rewrite <-Hin. split.
  - intros (k & item' & Hk & Hd). destruct (resolved item') as [m|]; [|by apply elem_of_nil in Hd].
    destruct (bool_decide_reflect (Some m ∈ [] ++ take k (resolved <$> items))) as [Hm|];
      [|by apply elem_of_nil in Hd].
    apply list_elem_of_singleton in Hd. apply multiple_reference_inj in Hd as [-> ->]. done.
  - intros Hm. exists i, item. split; [done|]. rewrite Hr.
    rewrite bool_decide_eq_true_2 by done. apply list_elem_of_here.
Qed.

(** C9.  Among the diagnostics of a navigation node, the warnings about a
    screen referenced multiple times are exactly these: one under every
    item whose screen name an earlier item resolved to as well, in item
    order.  So an item gets the warning if and only if it repeats the
    reference of an item before it, and when the items resolve to
    pairwise distinct screens there is no such warning. *)
Theorem repeated_navigation_references (navigation : Navigation) :
  resolved_names_nonempty (nav_items navigation) ->
  List.filter is_multiple_reference (CustomValidator.checkNavigation navigation)
    = repeated_references (nav_items navigation)
  ∧ (forall i item n,
       nav_items navigation !! i = Some item -> resolved item = Some n ->
       multiple_reference i n ∈ CustomValidator.checkNavigation navigation
       <-> ∃ j item', (j < i)%nat ∧ nav_items navigation !! j = Some item'
                      ∧ resolved item' = Some n)
  ∧ (NoDup (omap resolved (nav_items navigation)) ->
     List.filter is_multiple_reference (CustomValidator.checkNavigation navigation) = []).
Proof.
  intros Hne. pose proof (checkNavigation_multiple_references _ Hne) as Heq.
  split_and!; [done | |].
  - intros i item n Hi Hr. rewrite <-(repeated_references_elem _ _ _ _ Hi Hr), <-Heq.
    rewrite !list_elem_of_In, List.filter_In, is_multiple_reference_true.
    by split; [|intros [? _]].
  - intros Hnd. rewrite Heq. by apply repeated_from_NoDup.
Qed.

Lemma repeated_navigation_references_witness :
  let navigation := {| nav_type := js "tab";
                       nav_items := [nav_to "Home"; nav_to "Accounts"; nav_to "Home"] |} in
  resolved_names_nonempty (nav_items navigation)
  ∧ List.filter is_multiple_reference (CustomValidator.checkNavigation navigation)
    = [multiple_reference 2 (js "Home")].
Proof.
  intros navigation.
  assert (resolved_names_nonempty (nav_items navigation)) as Hne.
  { repeat constructor; discriminate. }
  split; [exact Hne|].
  destruct (repeated_navigation_references navigation Hne) as (-> & _ & _).
  reflexivity.
Defined.

(** ** Path parameters *)

Lemma search_None r s i : search r i s = None <-> ¬ Occurs r s.
Proof.
  split; [apply search_none|]. intros Hn.
  destruct (search r i s) as [[m e]|] eqn:Hs; [|done]. destruct Hn.
  apply search_sound in Hs as (pre & w & post & cs0 & ? & _ & _ & ? & _).
  by exists pre, w, post, cs0.
Qed.

Lemma match_loop_spec fuel : forall s re,
  global re = true -> (0 < fuel)%nat -> (length s + 2 <= lastIndex re + fuel)%nat ->
  is_Some (match_loop fuel re s).
Proof.
  induction fuel as [|fuel IH]; intros s re Hg Hpos Hfuel; [lia|].
  cbn [match_loop]. destruct (exec re s) as [[m|] re'] eqn:He; [|by eexists].
  apply exec_global_some in He
    as (pre & w & post & cs0 & Hs & Hi & Hli & D & Hgr & Hw & ->); [|done].
  assert (length s = length pre + length w + length post)%nat as Hlen.
  { rewrite Hs, !length_app. lia. }
  set (re'' := if decide _ then _ else _).
  assert (global re'' = true ∧ (lastIndex re < lastIndex re'')%nat
          ∧ (lastIndex re'' <= length s + 1)%nat) as (Hg'' & Hlt & Hle).
  { subst re''. unfold whole in Hw. destruct (mjoin (groups m !! 0%nat)) as [w'|]; [|done].
    injection Hw as ->. cbn [default].
    destruct (decide (w = [])) as [->|Hne]; simpl in *; [split_and!; [done | lia | lia]|].
    destruct w; [done|]. simpl in *. split_and!; [done | lia | lia]. }
  destruct (IH s re'' Hg'') as [ms ->]; [lia | lia |]. by eexists.
Qed.

Lemma match_all_returns r s : ∃ v, match_all r s = Ok v.
Proof.
  unfold match_all.
  destruct (match_loop_spec (length s + 2) s (regexp r true)) as [ms ->]; simpl; [done | lia | lia |].
  destruct ms; by eexists.
Qed.

Lemma path_param_shape w cs :
  denote CustomValidator.path_param_re w (no_captures CustomValidator.path_param_re) cs
  <-> ∃ n, w = [lbrace] ++ n ++ [rbrace] ∧ n ≠ []
           ∧ Forall (fun c => c ≠ rbrace) n ∧ cs = [None; Some n].
Proof.
  unfold CustomValidator.path_param_re. rewrite denote_cat. split.
  - intros (w1 & w2 & cs1 & -> & [-> ->]%denote_lit & D).
    apply denote_cat in D as (n & w3 & cs2 & -> & (cs3 & (Hne & Hn & ->)%denote_plus & ->) & D).
    apply (denote_lit [rbrace]) in D as [-> ->].
    exists n. split_and!; [done | done | | done].
    eapply Forall_impl; [done|]. intros c Hc. cbv beta in Hc. rewrite atom_not_char in Hc.
    intros ->. by rewrite N.eqb_refl in Hc.
  - intros (n & -> & Hne & Hn & ->).
    exists [lbrace], (n ++ [rbrace]), (no_captures CustomValidator.path_param_re).
    split_and!; [done | by apply denote_lit |].
    apply denote_cat. exists n, [rbrace], [None; Some n].
    split_and!; [done | | by apply (denote_lit [rbrace])].
    exists (no_captures CustomValidator.path_param_re). split; [|done].
    apply denote_plus. split_and!; [done | | done].
    eapply Forall_impl; [done|]. intros c Hc. rewrite atom_not_char.
    by apply negb_true_iff, N.eqb_neq.
Qed.

Lemma occurrences_app {A} `{EqDecision A} (x : A) l1 l2 :
  occurrences x (l1 ++ l2) = (occurrences x l1 + occurrences x l2)%nat.
Proof. unfold occurrences. by rewrite List.filter_app, length_app. Qed.

Lemma occurrences_none {A} `{EqDecision A} (x : A) l :
  Forall (fun y => y ≠ x) l -> occurrences x l = 0%nat.
Proof.
  unfold occurrences. induction 1 as [|y l Hy _ IH]; [done|]. simpl.
  by rewrite bool_decide_eq_false_2.
Qed.

Lemma occurrences_cons {A} `{EqDecision A} (x y : A) l :
  occurrences x (y :: l) = ((if decide (y = x) then 1 else 0) + occurrences x l)%nat.
Proof. unfold occurrences. simpl. by destruct (decide (y = x)), (bool_decide_reflect (y = x)). Qed.

Lemma undefined_path_parameter_inj i n j m :
  undefined_path_parameter i n = undefined_path_parameter j m -> i = j ∧ n = m.
Proof.
  unfold undefined_path_parameter. intros [= Hmsg Hnode]. split; [done|].
  by apply app_inv_tail in Hmsg.
Qed.

Lemma no_brace_no_token path :
  includes [lbrace] path = false -> ¬ Occurs CustomValidator.path_param_re path.
Proof.
  intros Hinc (pre & w & post & cs & -> & (n & -> & _)%path_param_shape).
  apply includes_false in Hinc. apply Hinc. exists pre, (n ++ [rbrace] ++ post).
  by rewrite <-!(assoc_L (++)).
Qed.

Lemma match_all_none r s : ¬ Occurs r s -> match_all r s = Ok None.
Proof.
  intros Hn. unfold match_all. replace (length s + 2)%nat with (S (length s + 1)) by lia.
  cbn [match_loop]. unfold exec. cbn [global regexp lastIndex source].
  destruct (decide _) as [|_]; [lia|]. rewrite drop_0.
  by rewrite (proj2 (search_None r s 0) Hn).
Qed.

Lemma path_tokens_no_brace path : includes [lbrace] path = false -> path_tokens path = [].
Proof.
  intros H. unfold path_tokens. by rewrite (match_all_none _ _ (no_brace_no_token _ H)).
Qed.

(** The errors for undefined path parameters: one per token of the path
    that is not among the declared parameters, in the order of the tokens. *)
Lemma checkPathParams_spec i endpoint :
  CustomValidator.checkPathParams i endpoint
  = Ok (flat_map (fun pathParam =>
          if bool_decide (pathParam ∈ CustomValidator.definedParams endpoint) then []
          else CustomValidator.undefinedPathParam i pathParam)
        (path_tokens (ep_path endpoint))).
Proof.
  unfold CustomValidator.checkPathParams.
  destruct (includes [lbrace] (ep_path endpoint)) eqn:Hinc.
  - unfold path_tokens.
    destruct (match_all_returns CustomValidator.path_param_re (ep_path endpoint)) as [v ->].
    by destruct v.
  - by rewrite (path_tokens_no_brace _ Hinc).
Qed.

Lemma occurrences_undefined k n i (defined tokens : list str) :
  occurrences (undefined_path_parameter k n)
    (flat_map (fun pathParam =>
       if bool_decide (pathParam ∈ defined) then []
       else CustomValidator.undefinedPathParam i pathParam) tokens)
  = if decide (k = i) then
      if decide (n ∈ defined) then 0%nat else occurrences n tokens
    else 0%nat.
Proof.
  induction tokens as [|p tokens IH]; cbn [flat_map].
  - by repeat destruct (decide _).
  - rewrite occurrences_app, IH, (occurrences_cons n p). clear IH.
    destruct (bool_decide_reflect (p ∈ defined)) as [Hp|Hp].
    + change (occurrences _ []) with 0%nat.
      destruct (decide (k = i)); [|done]. destruct (decide (n ∈ defined)); [done|].
      by rewrite decide_False by (by intros ->).
    + change (CustomValidator.undefinedPathParam i p) with [undefined_path_parameter i p].
      rewrite occurrences_cons. change (occurrences _ []) with 0%nat.
      destruct (decide (k = i)) as [->|Hk].
      * destruct (decide (p = n)) as [->|Hpn].
        -- rewrite decide_True by done. repeat case_decide; try done; lia.
        -- rewrite decide_False; [by destruct (decide _)|].
           by intros [_ ?]%undefined_path_parameter_inj.
      * rewrite decide_False; [done|].
        intros [? _]%undefined_path_parameter_inj. by apply Hk.
Qed.

Lemma occurrences_warning x (b : bool) msg n pr :
  severity x = error -> occurrences x (if b then accept warning msg n pr else []) = 0%nat.
Proof.
  intros Hx. apply occurrences_none. destruct b; repeat constructor.
  intros <-. done.
Qed.

Lemma checkEndpoint_spec i endpoint :
  ∃ ds, CustomValidator.checkEndpoint i endpoint = Ok ds
    ∧ forall k n, occurrences (undefined_path_parameter k n) ds
        = if decide (k = i) then
            if decide (n ∈ CustomValidator.definedParams endpoint) then 0%nat
            else occurrences n (path_tokens (ep_path endpoint))
          else 0%nat.
Proof.
  unfold CustomValidator.checkEndpoint. rewrite checkPathParams_spec.
  eexists. split; [done|]. intros k n.
  rewrite !occurrences_app, !occurrences_warning by done.
  rewrite occurrences_undefined. lia.
Qed.

Lemma checkEndpoints_spec : forall endpoints i,
  ∃ ds, CustomValidator.checkEndpoints i endpoints = Ok ds
    ∧ forall k n,
        occurrences (undefined_path_parameter k n) ds
        = match (if decide (i <= k)%nat then endpoints !! (k - i)%nat else None) with
          | Some endpoint =>
              if decide (n ∈ CustomValidator.definedParams endpoint) then 0%nat
              else occurrences n (path_tokens (ep_path endpoint))
          | None => 0%nat
          end.
Proof.
  induction endpoints as [|ep eps IH]; intros i.
  - exists []. split; [done|]. intros k n. by destruct (decide _).
  - cbn [CustomValidator.checkEndpoints].
    destruct (checkEndpoint_spec i ep) as (ds1 & -> & H1).
    destruct (IH (S i)) as (ds2 & -> & H2).
    eexists. split; [done|]. intros k n. rewrite occurrences_app, H1, H2.
    destruct (decide (k = i)) as [->|Hne].
    + destruct (decide (S i <= i)%nat); [lia|]. destruct (decide (i <= i)%nat); [|lia].
      rewrite Nat.sub_diag. cbn [lookup list_lookup]. lia.
    + destruct (decide (i <= k)%nat) as [Hle|Hgt].
      * destruct (decide (S i <= k)%nat); [|lia].
        by replace (k - i)%nat with (S (k - S i)) by lia.
      * by destruct (decide (S i <= k)%nat); [lia|].
Qed.

Lemma checkEndpointIds_property : forall endpoints i ids,
  Forall (fun d => property d = prop "id") (CustomValidator.checkEndpointIds i endpoints ids).
Proof.
  induction endpoints as [|ep eps IH]; intros i ids; [constructor|].
  cbn [CustomValidator.checkEndpointIds]. apply Forall_app; split; [|apply IH].
  destruct (bool_decide _); repeat constructor.
Qed.

Lemma checkAPI_spec api :
  ∃ ds, CustomValidator.checkAPI api = Ok ds
    ∧ forall i n endpoint, api_endpoints api !! i = Some endpoint ->
        occurrences (undefined_path_parameter i n) ds
        = if decide (n ∈ CustomValidator.definedParams endpoint) then 0%nat
          else occurrences n (path_tokens (ep_path endpoint)).
Proof.
  unfold CustomValidator.checkAPI.
  destruct (checkEndpoints_spec (api_endpoints api) 0) as (ds & -> & Hds).
  eexists. split; [done|]. intros i n endpoint Hi.
  rewrite !occurrences_app, occurrences_warning by done.
  rewrite (occurrences_none _ (CustomValidator.checkEndpointIds _ _ _)).
  - rewrite Hds, decide_True, Nat.sub_0_r, Hi by lia. done.
  - eapply Forall_impl; [apply checkEndpointIds_property|].
    intros d Hd ->. discriminate.
Qed.

Lemma split_at_first (c : N) : forall a b x y : str,
  Forall (fun d => d ≠ c) a -> Forall (fun d => d ≠ c) b ->
  a ++ c :: x = b ++ c :: y -> a = b ∧ x = y.
Proof.
  induction a as [|d a IH]; intros b x y Ha Hb Heq.
  - destruct b as [|e b]; [by injection Heq|].
    injection Heq as <- _. by apply Forall_cons in Hb as [? _].
  - apply Forall_cons in Ha as [Hd Ha]. destruct b as [|e b].
    + injection Heq as -> _. done.
    + apply Forall_cons in Hb as [_ Hb]. injection Heq as -> Heq.
      by destruct (IH b x y Ha Hb Heq) as [-> ->].
Qed.

Lemma search_skip_no_brace : forall (pre rest : str) i,
  Forall (fun c => c ≠ lbrace) pre ->
  search CustomValidator.path_param_re i (pre ++ rest)
  = search CustomValidator.path_param_re (i + length pre) rest.
Proof.
  induction pre as [|c pre IH]; intros rest i Hpre.
  - by rewrite Nat.add_0_r.
  - apply Forall_cons in Hpre as [Hc Hpre]. cbn [app search].
    destruct (match_here _ (c :: pre ++ rest)) as [[w cs]|] eqn:Hm.
    + apply match_here_sound in Hm as (s' & cs0 & Hs & (n & -> & _)%path_param_shape & _).
      by injection Hs as ->.
    + rewrite IH by done. f_equal. simpl. lia.
Qed.

Lemma match_here_token (n post : str) :
  n ≠ [] -> Forall (fun c => c ≠ rbrace) n ->
  ∃ cs, match_here CustomValidator.path_param_re ([lbrace] ++ n ++ [rbrace] ++ post)
        = Some ([lbrace] ++ n ++ [rbrace], cs).
Proof.
  intros Hne Hn.
  destruct (match_here_complete CustomValidator.path_param_re ([lbrace] ++ n ++ [rbrace]) post
              [None; Some n]) as [[w cs] Hm].
  { apply path_param_shape. by exists n. }
  rewrite <-!(assoc_L (++)) in Hm. exists cs. rewrite Hm.
  apply match_here_sound in Hm as (s' & cs0 & Hs & (n' & -> & _ & Hn' & _)%path_param_shape & _).
  rewrite <-!(assoc_L (++)) in Hs. injection Hs as Hs.
  by apply split_at_first in Hs as [-> _].
Qed.

Lemma substring_inner (n : str) :
  substring 1 (Z.of_nat (length ([lbrace] ++ n ++ [rbrace])) - 1) ([lbrace] ++ n ++ [rbrace]) = n.
Proof.
  unfold substring. rewrite !length_app. cbn [length app].
  replace (Z.to_nat (Z.min _ _)) with 1%nat by lia.
  replace (Z.to_nat (Z.max _ _) - 1)%nat with (length n) by lia.
  cbn [drop]. by rewrite drop_0, take_app_length.
Qed.

(** A path with one brace pair has one token: the text between the
    braces. *)
Lemma path_tokens_single (pre n post : str) :
  Forall (fun c => c ≠ lbrace) pre -> n ≠ [] -> Forall (fun c => c ≠ rbrace) n ->
  Forall (fun c => c ≠ lbrace) post ->
  path_tokens (pre ++ [lbrace] ++ n ++ [rbrace] ++ post) = [n].
Proof.
  intros Hpre Hne Hn Hpost. unfold path_tokens, match_all.
  set (s := pre ++ [lbrace] ++ n ++ [rbrace] ++ post).
  set (w := [lbrace] ++ n ++ [rbrace]).
  assert (length s = length pre + length w + length post)%nat as Hlen.
  { subst s w. rewrite !length_app. simpl. lia. }
  destruct (match_here_token n post Hne Hn) as [cs Hm]. fold w in Hm.
  assert (exec (regexp CustomValidator.path_param_re true) s
          = (Some {| index := length pre; groups := cs |},
             set_lastIndex (regexp CustomValidator.path_param_re true) (length pre + length w)))
    as He1.
  { unfold exec. cbn [global regexp lastIndex source]. destruct (decide _) as [|_]; [lia|].
    rewrite drop_0. subst s. rewrite search_skip_no_brace by done.
    by rewrite (search_here _ _ _ _ _ Hm). }
  assert (exec (set_lastIndex (regexp CustomValidator.path_param_re true) (length pre + length w)) s
          = (None, regexp CustomValidator.path_param_re true)) as He2.
  { unfold exec. cbn [global regexp lastIndex source set_lastIndex].
    destruct (decide _) as [|_]; [lia|].
    assert (drop (length pre + length w) s = post) as ->.
    { assert (s = pre ++ w ++ post) as -> by (subst s w; by rewrite <-!(assoc_L (++))).
      by rewrite drop_app_add, drop_app_length. }
    rewrite (proj2 (search_None _ post _)); [done|].
    apply no_brace_no_token, includes_false. intros (a & b & Hab).
    rewrite Hab in Hpost. apply Forall_app in Hpost as [_ Hb].
    by apply Forall_cons in Hb as [? _]. }
  replace (length s + 2)%nat with (S (S (length s))) by lia. cbn [match_loop].
  rewrite He1. cbn [groups]. rewrite (match_here_whole _ _ _ _ Hm). cbn [mjoin default option_join].
  rewrite decide_False by done. rewrite He2. cbn [fmap option_fmap option_map].
  unfold CustomValidator.pathParams. cbn [fmap list_fmap]. subst w. unfold id.
  by rewrite substring_inner.
Qed.

(** C7, as amended.  For the endpoint at position [i] of an API node and
    a name [n], the check of the node files as many "path parameter is not
    defined" errors for [n] under that endpoint as the path has [{n}]
    tokens when no declared parameter is called [n], and none when one is.
    When the path has a single brace pair, [pre{n}post], that makes
    exactly one error for an undeclared [n]. *)
Theorem path_parameters_checked (api : API) (i : nat) (endpoint : Endpoint) (n : str) :
  api_endpoints api !! i = Some endpoint ->
  ∃ ds, CustomValidator.checkAPI api = Ok ds
    ∧ occurrences (undefined_path_parameter i n) ds
      = (if decide (n ∈ CustomValidator.definedParams endpoint) then 0%nat
         else occurrences n (path_tokens (ep_path endpoint)))
    ∧ (forall pre post,
         ep_path endpoint = pre ++ [lbrace] ++ n ++ [rbrace] ++ post ->
         Forall (fun c => c ≠ lbrace) pre -> n ≠ [] ->
         Forall (fun c => c ≠ rbrace) n -> Forall (fun c => c ≠ lbrace) post ->
         occurrences (undefined_path_parameter i n) ds
         = if decide (n ∈ CustomValidator.definedParams endpoint) then 0%nat else 1%nat).
Proof.
  intros Hi. destruct (checkAPI_spec api) as (ds & Hds & Hocc).
  exists ds. split_and!; [done | by apply Hocc |].
  intros pre post Hpath Hpre Hne Hn Hpost. rewrite (Hocc _ _ _ Hi), Hpath.
  rewrite path_tokens_single by done. destruct (decide _); [done|].
  by rewrite occurrences_cons, decide_True.
Qed.

Lemma path_parameters_checked_witness :
  let path := js "/accounts/{id}/transactions" in
  let undeclared := an_api [an_endpoint path None] in
  let declared :=
    an_api [an_endpoint path
              (Some [{| param_name := js "id"; param_type := some_DataType "string";
                        param_isRequired := true |}])] in
  (∃ ds, CustomValidator.checkAPI undeclared = Ok ds
         ∧ occurrences (undefined_path_parameter 0 (js "id")) ds = 1%nat)
  ∧ (∃ ds, CustomValidator.checkAPI declared = Ok ds
         ∧ occurrences (undefined_path_parameter 0 (js "id")) ds = 0%nat).
Proof.
  intros path undeclared declared. split.
  - destruct (path_parameters_checked undeclared 0 (an_endpoint path None) (js "id") eq_refl)
      as (ds & Hds & Hocc & _).
    exists ds. split; [exact Hds|]. rewrite Hocc. vm_compute. reflexivity.
  - destruct (path_parameters_checked declared 0
                (an_endpoint path
                   (Some [{| param_name := js "id"; param_type := some_DataType "string";
                             param_isRequired := true |}])) (js "id") eq_refl)
      as (ds & Hds & Hocc & _).
    exists ds. split; [exact Hds|]. rewrite Hocc. vm_compute. reflexivity.
Defined.

(** C7 fails as stated: a path that names the same parameter in two
    tokens gets two errors for it, not one. *)
Lemma repeated_token_two_errors :
  let path := js "/a/{id}/b/{id}" in
  let api := an_api [an_endpoint path None] in
  Substring ([lbrace] ++ js "id" ++ [rbrace]) path
  ∧ (js "id" ∉ CustomValidator.definedParams (an_endpoint path None))
  ∧ ∃ ds, CustomValidator.checkAPI api = Ok ds
          ∧ occurrences (undefined_path_parameter 0 (js "id")) ds = 2%nat.
Proof.
  intros path api. split_and!.
  - by exists (js "/a/"), (js "/b/{id}").
  - by intros ?%elem_of_nil.
  - eexists. split; [by vm_compute | by vm_compute].
Qed.

(** ** The extractor returns *)

Lemma findMatchesInSource_none s r :
  ¬ Occurs r s -> findMatchesInSource s (regexp r true) = Ok ([], regexp r true).
Proof.
  intros Hn. destruct (findMatchesInSource_spec s r) as (ms & -> & Hb & _).
  destruct ms as [|m ms]; [done|]. destruct Hn.
  apply Forall_cons in Hb as [[(pre & post & ? & _) [cs ?]] _].
  by exists pre, (text m), post, cs.
Qed.

Lemma exec_loop_spec fuel : forall s re,
  global re = true -> (0 < min_length (source re))%nat ->
  (0 < fuel)%nat -> (length s + 2 <= lastIndex re + fuel)%nat ->
  ∃ ms, exec_loop fuel s re = Ok ms.
Proof.
  induction fuel as [|fuel IH]; intros s re Hg Hmin Hpos Hfuel; [lia|].
  cbn [exec_loop]. destruct (exec re s) as [[m|] re'] eqn:He; [|by eexists].
  apply exec_global_some in He
    as (pre & w & post & cs0 & Hs & Hi & Hli & D & Hgr & Hw & ->); [|done].
  apply denote_min_length in D.
  assert (length s = length pre + length w + length post)%nat as Hlen.
  { rewrite Hs, !length_app. lia. }
  destruct (IH s (set_lastIndex re (index m + length w))) as [ms ->];
    [done | done | simpl; lia | simpl; lia |].
  by eexists.
Qed.

Lemma exec_loop_none s r fuel :
  ¬ Occurs r s -> exec_loop (S fuel) s (regexp r true) = Ok [].
Proof.
  intros Hn. cbn [exec_loop]. unfold exec. cbn [global regexp lastIndex source].
  destruct (decide _) as [|_]; [lia|]. rewrite drop_0.
  by rewrite (proj2 (search_None r s 0) Hn).
Qed.

Lemma for_push_returns {A B} (body : A -> outcome (option B)) (l : list A) :
  (forall a, ∃ b, body a = Ok b) -> ∃ bs, Rev1.for_push body l = Ok bs.
Proof.
  intros Hbody. induction l as [|a l [bs IH]]; [by eexists|].
  cbn [Rev1.for_push]. destruct (Hbody a) as [b ->]. rewrite IH. by eexists.
Qed.

(** The property pattern has three groups and each takes part in every
    match, so the rest of the line is always there to be trimmed. *)
Lemma Rev1_parseProperty_returns line : ∃ p, Rev1.parseProperty line = Ok p.
Proof.
  unfold Rev1.parseProperty.
  destruct (match_ property_re line) as [propMatch|] eqn:Hm; [|by eexists].
  destruct (match_group_defined _ _ _ 3 Hm) as [rest ->]; [done | vm_compute; lia |].
  cbn [defined mbind outcome_bind].
  destruct (match_ enum_re (trim rest)) as [enumMatch|] eqn:He; [|by eexists].
  destruct (match_group_defined _ _ _ 1 He) as [inner ->]; [done | vm_compute; lia |].
  by eexists.
Qed.

Lemma Rev1_parseModel_returns m : ∃ v, Rev1.parseModel m = Ok v.
Proof.
  unfold Rev1.parseModel. destruct (match_ model_name_re (text m)); [|by eexists].
  destruct (for_push_returns Rev1.parseProperty
              (propertyLines (substring (indexOf lbrace (text m) + 1)
                                (lastIndexOf rbrace (text m)) (text m)))
              Rev1_parseProperty_returns) as [ps ->].
  by eexists.
Qed.

Lemma Rev1_parseDirectModels_returns s : ∃ ms, Rev1.parseDirectModels s = Ok ms.
Proof.
  unfold Rev1.parseDirectModels.
  destruct (findMatchesInSource_spec s model_re) as (bs & -> & _).
  apply for_push_returns, Rev1_parseModel_returns.
Qed.

Lemma Rev1_parseDirectScreens_returns s : ∃ ss, Rev1.parseDirectScreens s = Ok ss.
Proof.
  unfold Rev1.parseDirectScreens.
  destruct (findMatchesInSource_spec s screen_re) as (bs & -> & _).
  apply for_push_returns. intros m. unfold Rev1.parseScreen.
  destruct (match_ _ _); by eexists.
Qed.

Lemma Rev1_parseDirectApi_returns s : ∃ a, Rev1.parseDirectApi s = Ok a.
Proof.
  unfold Rev1.parseDirectApi. destruct (match_ api_re s) as [m|]; [|by eexists].
  destruct (group m 1) as [[|c b]|]; [by eexists | | by eexists].
  destruct (exec_loop_spec (length s + 2) s (regexp endpoint_re1 true)) as [ms ->];
    [done | vm_compute; lia | lia | simpl; lia |].
  by eexists.
Qed.

Lemma Rev2_parseDirectModels_returns s : ∃ ms, Rev2.parseDirectModels s = Ok ms.
Proof.
  unfold Rev2.parseDirectModels.
  destruct (findMatchesInSource_spec s model_re) as (bs & -> & _). by eexists.
Qed.

Lemma Rev2_parseDirectScreens_returns s : ∃ ss, Rev2.parseDirectScreens s = Ok ss.
Proof.
  unfold Rev2.parseDirectScreens.
  destruct (findMatchesInSource_spec s screen_re) as (bs & -> & _). by eexists.
Qed.

Lemma Rev2_parseDirectApi_returns s : ∃ a, Rev2.parseDirectApi s = Ok a.
Proof.
  unfold Rev2.parseDirectApi. destruct (match_ api_re s) as [m|]; [|by eexists].
  destruct (findMatchesInSource_spec s endpoint_re) as (bs & -> & _). by eexists.
Qed.

Lemma extraction_returns_both (sourceText : str) :
  ((∃ models, Rev1.parseDirectModels sourceText = Ok models)
   ∧ (∃ screens, Rev1.parseDirectScreens sourceText = Ok screens)
   ∧ (∃ api, Rev1.parseDirectApi sourceText = Ok api))
  ∧ ((∃ models, Rev2.parseDirectModels sourceText = Ok models)
     ∧ (∃ screens, Rev2.parseDirectScreens sourceText = Ok screens)
     ∧ (∃ api, Rev2.parseDirectApi sourceText = Ok api))
  ∧ (¬ Occurs model_re sourceText ->
     Rev1.parseDirectModels sourceText = Ok [] ∧ Rev2.parseDirectModels sourceText = Ok [])
  ∧ (¬ Occurs screen_re sourceText ->
     Rev1.parseDirectScreens sourceText = Ok [] ∧ Rev2.parseDirectScreens sourceText = Ok []).
Proof.
  split_and!.
  - apply Rev1_parseDirectModels_returns.
  - apply Rev1_parseDirectScreens_returns.
  - apply Rev1_parseDirectApi_returns.
  - apply Rev2_parseDirectModels_returns.
  - apply Rev2_parseDirectScreens_returns.
  - apply Rev2_parseDirectApi_returns.
  - intros Hn. unfold Rev1.parseDirectModels, Rev2.parseDirectModels.
    by rewrite (findMatchesInSource_none _ _ Hn).
  - intros Hn. unfold Rev1.parseDirectScreens, Rev2.parseDirectScreens.
    by rewrite (findMatchesInSource_none _ _ Hn).
Qed.

(** A block that fails the pattern is passed over, and so is a line that
    is no property. *)
Example malformed_models_skipped :
  Rev1.parseDirectModels malformed_models_source
  = Ok [{| Rev1.m_type := "Model";
           Rev1.m_name := Some (js "M");
           Rev1.properties :=
             [{| Rev1.p_type := "Property";
                 Rev1.p_name := Some (js "b");
                 Rev1.p_datatype := Some (js "number");
                 Rev1.isRequired := false;
                 Rev1.attributes := [];
                 Rev1.enumValues := None;
                 Rev1.defaultValue := None |}] |}]
  ∧ Rev2.parseDirectModels malformed_models_source
    = Ok [{| Rev2.m_name := js "M";
             Rev2.properties := [{| Rev2.p_name := js "b"; Rev2.p_type := js "number" |}] |}].
Proof. split; vm_compute; reflexivity. Qed.

(** C5.  On every text each of the three extraction functions, in either
    revision of the parser, returns a value: it neither throws nor loops.
    Where the pattern of a section does not occur at all the result is the
    empty list, or no API object. *)
Theorem extraction_returns (sourceText : str) :
  ((∃ models, Rev1.parseDirectModels sourceText = Ok models)
   ∧ (∃ screens, Rev1.parseDirectScreens sourceText = Ok screens)
   ∧ (∃ api, Rev1.parseDirectApi sourceText = Ok api))
  ∧ ((∃ models, Rev2.parseDirectModels sourceText = Ok models)
     ∧ (∃ screens, Rev2.parseDirectScreens sourceText = Ok screens)
     ∧ (∃ api, Rev2.parseDirectApi sourceText = Ok api))
  ∧ (¬ Occurs model_re sourceText ->
     Rev1.parseDirectModels sourceText = Ok [] ∧ Rev2.parseDirectModels sourceText = Ok [])
  ∧ (¬ Occurs screen_re sourceText ->
     Rev1.parseDirectScreens sourceText = Ok [] ∧ Rev2.parseDirectScreens sourceText = Ok [])
  ∧ (¬ Occurs api_re sourceText ->
     Rev1.parseDirectApi sourceText = Ok None ∧ Rev2.parseDirectApi sourceText = Ok None).
Proof.
  destruct (extraction_returns_both sourceText) as (H1 & H2 & Hm & Hs).
  split; [exact H1|]. split; [exact H2|]. split; [exact Hm|]. split; [exact Hs|].
  intros Hn. unfold Rev1.parseDirectApi, Rev2.parseDirectApi.
  by rewrite (proj2 (match_none _ _) Hn).
Qed.

Lemma extraction_returns_witness :
  (¬ Occurs model_re [] ∧ ¬ Occurs screen_re [] ∧ ¬ Occurs api_re [])
  ∧ (Rev1.parseDirectModels [] = Ok [] ∧ Rev2.parseDirectModels [] = Ok [])
  ∧ (Rev1.parseDirectScreens [] = Ok [] ∧ Rev2.parseDirectScreens [] = Ok [])
  ∧ (Rev1.parseDirectApi [] = Ok None ∧ Rev2.parseDirectApi [] = Ok None).
Proof.
  assert (¬ Occurs model_re []) as Hm by (apply match_none; reflexivity).
  assert (¬ Occurs screen_re []) as Hs by (apply match_none; reflexivity).
  assert (¬ Occurs api_re []) as Ha by (apply match_none; reflexivity).
  destruct (extraction_returns []) as (_ & _ & Hmodels & Hscreens & Hapi).
  exact (conj (conj Hm (conj Hs Ha))
           (conj (Hmodels Hm) (conj (Hscreens Hs) (Hapi Ha)))).
Defined.

(** ** The model of the round-trip example *)


(** The second revision keeps a name and a type only, and takes for the
    type what stands between the first and the second colon of the line. *)
Lemma model_M_extracted_by_second_revision :
  Rev2.parseDirectModels model_M_source
  = Ok [{| Rev2.m_name := js "M";
           Rev2.properties :=
             [{| Rev2.p_name := js "a"; Rev2.p_type := js "string required" |};
              {| Rev2.p_name := js "b"; Rev2.p_type := js "number default" |}] |}].
Proof. vm_compute. reflexivity. Qed.

(** ** Reconciliation *)



(** ** Running the extractor again *)

Lemma twice_returns {A} (run : outcome A) x : run = Ok x -> twice run = Ok (x, x).
Proof. intros H. unfold twice. by rewrite H. Qed.

Lemma Ordered_lower from ms :
  Ordered from ms -> Forall (fun m => (from <= start m)%nat) ms.
Proof.
  induction 1 as [|from m ms Hfrom Hend _ IH]; constructor; [done|].
  eapply Forall_impl; [done|]. intros m' Hm'. simpl in Hm'. lia.
Qed.

Lemma Ordered_NoDup from ms : Ordered from ms -> NoDup ms.
Proof.
  induction 1 as [|from m ms Hfrom Hend Hord IH]; constructor; [|done].
  intros Hin. apply Ordered_lower in Hord.
  eapply Forall_forall in Hord; [|done]. lia.
Qed.

(** C8.  Each extraction function, run twice on the same text, returns
    twice and returns equal results.  The scan behind them leaves the
    pattern object as it found it, with [lastIndex] at 0, so that even a
    pattern object used again gives the same blocks; the blocks are
    slices of the text, reported in text order and each once, and the
    models and screens follow the order of their blocks. *)
Theorem extraction_is_repeatable (sourceText : str) :
  ((∃ models, twice (Rev1.parseDirectModels sourceText) = Ok (models, models))
   ∧ (∃ screens, twice (Rev1.parseDirectScreens sourceText) = Ok (screens, screens))
   ∧ (∃ api, twice (Rev1.parseDirectApi sourceText) = Ok (api, api))
   ∧ (∃ models, twice (Rev2.parseDirectModels sourceText) = Ok (models, models))
   ∧ (∃ screens, twice (Rev2.parseDirectScreens sourceText) = Ok (screens, screens))
   ∧ (∃ api, twice (Rev2.parseDirectApi sourceText) = Ok (api, api)))
  ∧ (forall r, ∃ blocks,
       findMatchesInSource sourceText (regexp r true) = Ok (blocks, regexp r true)
       ∧ (found ← findMatchesInSource sourceText (regexp r true);
          findMatchesInSource sourceText found.2) = Ok (blocks, regexp r true)
       ∧ Forall (Block r sourceText) blocks ∧ Ordered 0 blocks ∧ NoDup blocks)
  ∧ (∃ blocks, Ordered 0 blocks ∧ NoDup blocks
       ∧ Rev1.parseDirectModels sourceText = Rev1.for_push Rev1.parseModel blocks
       ∧ Rev2.parseDirectModels sourceText = Ok (omap Rev2.parseModel blocks))
  ∧ (∃ blocks, Ordered 0 blocks ∧ NoDup blocks
       ∧ Rev1.parseDirectScreens sourceText = Rev1.for_push Rev1.parseScreen blocks
       ∧ Rev2.parseDirectScreens sourceText = Ok (omap Rev2.parseScreen blocks)).
Proof.
  destruct (extraction_returns_both sourceText)
    as (((m1 & Hm1) & (s1 & Hs1) & (a1 & Ha1)) & ((m2 & Hm2) & (s2 & Hs2) & (a2 & Ha2)) & _).
  split; [|split; [|split]].
  - split_and!; eexists; by apply twice_returns.
  - intros r. destruct (findMatchesInSource_spec sourceText r) as (blocks & Hf & Hb & Ho).
    exists blocks. rewrite Hf. cbn [mbind outcome_bind snd]. rewrite Hf.
    split_and!; [done | done | done | done | by eapply Ordered_NoDup].
  - destruct (findMatchesInSource_spec sourceText model_re) as (blocks & Hf & Hb & Ho).
    exists blocks. unfold Rev1.parseDirectModels, Rev2.parseDirectModels. rewrite Hf.
    split_and!; [done | by eapply Ordered_NoDup | done | done].
  - destruct (findMatchesInSource_spec sourceText screen_re) as (blocks & Hf & Hb & Ho).
    exists blocks. unfold Rev1.parseDirectScreens, Rev2.parseDirectScreens. rewrite Hf.
    split_and!; [done | by eapply Ordered_NoDup | done | done].
Qed.

(** ** The shape of the blocks and of their fields *)

Lemma denote_star_space w cs cs' : denote (star space) w cs cs' <-> Spaces w ∧ cs' = cs.
Proof.
  cbn [denote star]. unfold Spaces.
  by setoid_rewrite atom_space.
Qed.

Lemma denote_plus_space w cs cs' :
  denote (plus space) w cs cs' <-> w ≠ [] ∧ Spaces w ∧ cs' = cs.
Proof. rewrite denote_plus. unfold Spaces. by setoid_rewrite atom_space. Qed.

Lemma denote_group_word n w cs cs' :
  denote (Group n (plus word)) w cs cs'
  <-> w ≠ [] ∧ Words w ∧ cs' = <[n := Some w]> cs.
Proof.
  cbn [denote]. unfold Words. setoid_rewrite denote_plus. setoid_rewrite atom_word. split.
  - by intros (cs1 & (? & ? & ->) & ->).
  - intros (? & ? & ->). by exists cs.
Qed.

Lemma denote_group_not_char n c w cs cs' :
  denote (Group n (plus (not_char c))) w cs cs'
  <-> w ≠ [] ∧ Without c w ∧ cs' = <[n := Some w]> cs.
Proof.
  cbn [denote]. unfold Without. setoid_rewrite denote_plus.
  setoid_rewrite atom_not_char. setoid_rewrite negb_true_iff. setoid_rewrite N.eqb_neq.
  split.
  - by intros (cs1 & (? & ? & ->) & ->).
  - intros (? & ? & ->). by exists cs.
Qed.

(** [keyword\s+(\w+)] followed by the rest of the pattern. *)
Lemma denote_head keyword rest w cs cs' :
  denote (cat (lit keyword :: plus space :: Group 1 (plus word) :: rest)) w cs cs'
  <-> ∃ ws name w',
        w = keyword ++ ws ++ name ++ w' ∧ ws ≠ [] ∧ Spaces ws ∧ name ≠ [] ∧ Words name
        ∧ denote (cat rest) w' (<[1%nat := Some name]> cs) cs'.
Proof.
  rewrite denote_cat. setoid_rewrite denote_lit. setoid_rewrite denote_cat.
  setoid_rewrite denote_plus_space. setoid_rewrite denote_cat.
  setoid_rewrite denote_group_word. split.
  - intros (? & ? & ? & -> & [-> ->] & ws & ? & ? & -> & (? & ? & ->)
            & name & w' & ? & -> & (? & ? & ->) & D).
    by exists ws, name, w'.
  - intros (ws & name & w' & -> & ? & ? & ? & ? & D).
    exists keyword, (ws ++ name ++ w'), cs. split_and!; [done | done | done |].
    exists ws, (name ++ w'), cs. split_and!; [done | done | done | done |].
    by exists name, w', (<[1%nat := Some name]> cs).
Qed.

Lemma denote_nil w cs cs' : denote (cat []) w cs cs' <-> w = [] ∧ cs' = cs.
Proof. done. Qed.



Lemma ngroups_lit l : ngroups (lit l) = 0%nat.
Proof. induction l as [|c l IH]; [done|]. cbn [lit ngroups]. by rewrite IH. Qed.








Lemma block_shape_denote keyword body_atom greedy w cs :
  denote (cat [lit keyword; plus space; Group 1 (plus word); star space; lit [lbrace];
               Group 2 (Star greedy body_atom); lit [rbrace]]) w
    (no_captures (cat [lit keyword; plus space; Group 1 (plus word); star space; lit [lbrace];
                       Group 2 (Star greedy body_atom); lit [rbrace]])) cs
  -> ∃ name body, BlockShape keyword w name body
                  ∧ Forall (fun c => atom_match body_atom c = true) body.
Proof.
  intros D. apply denote_head in D as (ws & name & w' & -> & ? & ? & ? & ? & D).
  apply denote_cat in D as (ws' & ? & ? & -> & [? ->]%denote_star_space & D).
  apply denote_cat in D as (? & ? & ? & -> & [-> ->]%denote_lit & D).
  apply denote_cat in D as (body & ? & ? & -> & D2 & D).
  apply (denote_lit [rbrace]) in D as [-> _].
  cbn [denote] in D2. destruct D2 as (? & [? ->] & _).
  exists name, body. split; [|done]. by exists ws, ws'.
Qed.


(** ** The name of a block is the whole identifier *)

Lemma star_greedy_longest {R} (p : char -> bool) (k : str -> option R) : forall w s',
  Forall (fun c => p c = true) w ->
  match s' with [] => True | c :: _ => p c = false end ->
  is_Some (k s') ->
  star_greedy p (w ++ s') k = k s'.
Proof.
  induction w as [|c w IH]; intros s' Hw Hs' Hk.
  - destruct s' as [|c s']; [done|]. cbn [app star_greedy]. by rewrite Hs'.
  - apply Forall_cons in Hw as [Hc Hw]. cbn [app star_greedy]. rewrite Hc.
    rewrite (IH s' Hw Hs' Hk). by destruct Hk as [x ->].
Qed.

Lemma run_lit {R} l : forall s cs (k : str -> captures -> option R),
  run (lit l) (l ++ s) cs k = k s cs.
Proof.
  induction l as [|c l IH]; intros s cs k; [done|].
  cbn [lit run app atom_match]. by rewrite N.eqb_refl, IH.
Qed.

Lemma word_not_space c : is_word c = true -> is_space c = false.
Proof.
  unfold is_word, is_space. intros Hw. apply not_true_iff_false. intros Hs.
  rewrite !orb_true_iff, !andb_true_iff, ?N.leb_le, ?N.eqb_eq in Hw.
  rewrite !orb_true_iff, !andb_true_iff, ?N.leb_le, ?N.eqb_eq in Hs.
  lia.
Qed.

Lemma space_not_word c : is_space c = true -> is_word c = false.
Proof.
  intros Hs. destruct (is_word c) eqn:Hw; [|done].
  apply word_not_space in Hw. congruence.
Qed.

(** On [keyword], spaces, an identifier and something that does not go on
    the identifier, the pattern [keyword\s+(\w+)] matches up to the end of
    the identifier and captures it. *)
Lemma match_here_head keyword ws name rest :
  ws ≠ [] -> Spaces ws -> name ≠ [] -> Words name ->
  match rest with [] => True | c :: _ => is_word c = false end ->
  match_here (cat [lit keyword; plus space; Group 1 (plus word)])
    (keyword ++ ws ++ name ++ rest)
  = Some (keyword ++ ws ++ name, [Some (keyword ++ ws ++ name); Some name]).
Proof.
  intros Hws Hsp Hname Hwd Hrest.
  destruct ws as [|s0 ws]; [done|]. destruct name as [|n0 name]; [done|].
  apply Forall_cons in Hsp as [Hs0 Hsp]. apply Forall_cons in Hwd as [Hn0 Hwd].
  unfold match_here, no_captures. cbn [cat ngroups]. rewrite ngroups_lit.
  cbn [Nat.max replicate]. cbn [run]. rewrite run_lit.
  cbn [plus run app]. rewrite atom_space, Hs0. cbn [star_greedy].
  assert (forall A (k : str -> option A), is_Some (k rest) ->
            star_greedy (atom_match word) (name ++ rest) k = k rest) as Hword.
  { intros A k Hk. apply star_greedy_longest; [|by destruct rest; rewrite ?atom_word|done].
    eapply Forall_impl; [exact Hwd|]. intros c Hc. by rewrite atom_word. }
  rewrite (star_greedy_longest (atom_match space) _ ws ((n0 :: name) ++ rest)).
  - cbn [app]. rewrite atom_word, Hn0. rewrite Hword by (by eexists).
    replace (keyword ++ s0 :: ws ++ n0 :: name ++ rest)
      with ((keyword ++ s0 :: ws ++ n0 :: name) ++ rest)
      by (by rewrite <-!(assoc_L (++)), <-!app_comm_cons, <-!(assoc_L (++))).
    change (n0 :: name ++ rest) with ((n0 :: name) ++ rest).
    by rewrite !take_app_minus.
  - eapply Forall_impl; [exact Hsp|]. intros c Hc. by rewrite atom_space.
  - cbn [app]. rewrite atom_space. by apply word_not_space.
  - cbn [app]. rewrite atom_word, Hn0. rewrite Hword by (by eexists). by eexists.
Qed.



(** The name [x.match(/keyword\s+(\w+)/)?.[1]] finds in a block is the
    name of the block. *)
Lemma block_name keyword blk name body :
  BlockShape keyword blk name body ->
  Rev2.capture1 (cat [lit keyword; plus space; Group 1 (plus word)]) blk = Some name.
Proof.
  intros (ws & ws' & -> & ? & ? & ? & ? & Hws').
  unfold Rev2.capture1. rewrite match_search.
  rewrite (search_here _ _ 0 _ _
             (match_here_head keyword ws name (ws' ++ [lbrace] ++ body ++ [rbrace])
                ltac:(done) ltac:(done) ltac:(done) ltac:(done)
                ltac:(destruct Hws' as [|c ws' Hc _]; [done | by apply space_not_word]))).
  done.
Qed.


Lemma for_push_Forall {A B} (body : A -> outcome (option B)) (P : B -> Prop) :
  (forall a b, body a = Ok (Some b) -> P b) ->
  forall l bs, Rev1.for_push body l = Ok bs -> Forall P bs.
Proof.
  intros Hbody. induction l as [|a l IH]; intros bs; cbn [Rev1.for_push].
  - intros [= <-]. constructor.
  - destruct (body a) as [b|e|] eqn:Hb; [|done..]. cbn [mbind outcome_bind].
    destruct (Rev1.for_push body l) as [rest|e|]; [|done..]. cbn [mbind outcome_bind].
    intros [= <-]. destruct b as [b|]; [constructor|]; eauto.
Qed.

Example two_screens_extracted :
  Rev2.parseDirectScreens two_screens_source
  = Ok [{| Rev2.s_name := js "Home"; Rev2.isInitial := true; Rev2.title := js "My Home" |};
        {| Rev2.s_name := js "B"; Rev2.isInitial := false; Rev2.title := js "B" |}].
Proof. vm_compute. reflexivity. Qed.

(** The first revision of the screen extractor fills in the same value
    everywhere: no screen is initial and every title is the name. *)
Lemma screens_extracted_by_first_revision (sourceText : str) (screens : list Rev1.Screen) :
  Rev1.parseDirectScreens sourceText = Ok screens ->
  Forall (fun screen => Rev1.isInitial screen = false
                        ∧ Rev1.title screen = Rev1.s_name screen) screens.
Proof.
  unfold Rev1.parseDirectScreens.
  destruct (findMatchesInSource_spec sourceText screen_re) as (blocks & -> & _).
  cbn [mbind outcome_bind fst]. apply for_push_Forall.
  intros m screen. unfold Rev1.parseScreen.
  destruct (match_ screen_name_re (text m)); [|done]. by intros [= <-].
Qed.



(** * Further properties *)

(** ** What the scan leaves out *)

Lemma search_leftmost r : forall s i m e,
  search r i s = Some (m, e) ->
  forall pre w post cs, s = pre ++ w ++ post -> denote r w (no_captures r) cs ->
  (index m <= i + length pre)%nat.
Proof.
  induction s as [|c s IH]; intros i m e; simpl.
  - destruct (match_here r []) as [[w cs]|]; [|done]. intros [= <- <-]. simpl. lia.
  - destruct (match_here r (c :: s)) as [[w cs]|] eqn:Hm.
    + intros [= <- <-]. simpl. lia.
    + intros Hs pre w post cs0 Heq D. destruct pre as [|c' pre].
      * simpl in Heq. destruct (match_here_complete r w post cs0 D) as [x Hx].
        rewrite <-Heq in Hx. congruence.
      * injection Heq as -> ->. specialize (IH _ _ _ Hs pre w post cs0 eq_refl D).
        simpl. lia.
Qed.

Lemma exec_global_leftmost re s m re' :
  global re = true -> exec re s = (Some m, re') ->
  forall p, OccursAt (source re) s p -> (lastIndex re <= p)%nat -> (index m <= p)%nat.
Proof.
  unfold exec. intros ->. destruct (decide _) as [Hlt|Hge]; [done|].
  destruct (search _ _ _) as [[m' e]|] eqn:Hs; [|done].
  intros [= <- <-] p (pre & w & post & cs & -> & <- & D) Hle.
  rewrite drop_app_le in Hs by done.
  pose proof (search_leftmost _ _ _ _ _ Hs _ _ _ _ eq_refl D) as Hi.
  rewrite length_drop in Hi. lia.
Qed.

Lemma exec_global_picked re s m re' :
  global re = true -> exec re s = (Some m, re') ->
  ∃ pre w post, s = pre ++ w ++ post ∧ index m = length pre ∧ whole m = Ok w
    ∧ match_here (source re) (w ++ post) = Some (w, groups m).
Proof.
  unfold exec. intros ->. destruct (decide _) as [Hlt|Hge]; [done|].
  destruct (search _ _ _) as [[m' e]|] eqn:Hs; [|done].
  intros [= <- <-].
  apply search_sound in Hs as (pre & w & post & cs0 & Hd & Hi & He' & D & Hg & Hm).
  exists (take (lastIndex re) s ++ pre), w, post. split_and!.
  - by rewrite <-(assoc_L (++)), <-Hd, take_drop.
  - rewrite length_app, length_take. lia.
  - unfold whole. by rewrite (match_here_whole _ _ _ _ Hm).
  - done.
Qed.

Lemma findMatches_loop_covers fuel : forall s re,
  global re = true -> (0 < fuel)%nat -> (length s + 2 <= lastIndex re + fuel)%nat ->
  ∃ ms, findMatches_loop fuel s re = Ok (ms, set_lastIndex re 0)
        ∧ Forall (Picked (source re) s) ms
        ∧ forall p, OccursAt (source re) s p -> (lastIndex re <= p)%nat ->
            ∃ m, m ∈ ms ∧ Covers m p.
Proof.
  induction fuel as [|fuel IH]; intros s re Hg Hpos Hfuel; [lia|]. simpl.
  destruct (exec re s) as [[m|] re'] eqn:He.
  - pose proof (exec_global_leftmost _ _ _ _ Hg He) as Hleft.
    pose proof (exec_global_picked _ _ _ _ Hg He) as (pre' & w' & post' & Hs' & Hi' & Hw' & Hp').
    apply exec_global_some in He
      as (pre & w & post & cs0 & Hs & Hi & Hli & D & Hgr & Hw & ->); [|done].
    assert (w' = w) as -> by congruence.
    rewrite Hw. simpl.
    assert (length s = length pre + length w + length post)%nat as Hlen.
    { rewrite Hs, !length_app. lia. }
    set (re'' := if decide _ then _ else _).
    assert (global re'' = true ∧ source re'' = source re
            ∧ lastIndex re'' = ((index m + length w) `max` S (index m))%nat
            ∧ set_lastIndex re'' 0 = set_lastIndex re 0) as (Hg'' & Hsrc & Hli'' & Hset).
    { subst re''. destruct (decide _) as [Heq|Hne]; simpl in *;
        (split_and!; [done | done | lia | done]). }
    destruct (IH s re'' Hg'') as (ms & -> & Hpk & Hcov); [lia | lia |].
    simpl. eexists. split; [by rewrite Hset|]. rewrite Hsrc, Hli'' in *. split.
    + constructor; [|done]. by exists pre', post', (groups m).
    + intros p Hp Hle. specialize (Hleft p Hp Hle).
      destruct (decide (p < (index m + length w) `max` S (index m))%nat) as [Hin|Hout].
      * eexists. split; [by left|]. unfold Covers. simpl. lia.
      * destruct (Hcov p Hp) as (m' & Hm' & Hc); [lia|].
        exists m'. split; [by right | done].
  - apply exec_global_none in He as [-> Hno]; [|done].
    exists []. split_and!; [done | constructor |].
    intros p (pre & w & post & cs & -> & <- & D) Hle. exfalso.
    destruct Hno as [Hlt|Hno].
    + rewrite !length_app in Hlt. lia.
    + apply Hno. rewrite drop_app_le by done. by eexists (drop _ pre), w, post, cs.
Qed.

Lemma findMatchesInSource_covers s r :
  ∃ ms, findMatchesInSource s (regexp r true) = Ok (ms, regexp r true)
        ∧ Forall (Picked r s) ms
        ∧ forall p, OccursAt r s p -> ∃ m, m ∈ ms ∧ Covers m p.
Proof.
  destruct (findMatches_loop_covers (length s + 2) s (regexp r true))
    as (ms & H & Hp & Hc); simpl; [done | lia | lia |].
  exists ms. split_and!; [done | done |]. intros p Hp'. apply Hc; [done | simpl; lia].
Qed.

(** X1.  The scan with a global pattern misses nothing: wherever the pattern
    occurs in the text, the position lies in one of the blocks reported.
    The blocks are slices of the text in the language of the pattern, in
    text order, and the first of them starts at the leftmost occurrence. *)
Theorem scan_misses_nothing (sourceText : str) (r : regex) :
  ∃ blocks,
    findMatchesInSource sourceText (regexp r true) = Ok (blocks, regexp r true)
    ∧ Forall (Block r sourceText) blocks
    ∧ Ordered 0 blocks
    ∧ (forall p, OccursAt r sourceText p -> ∃ b, b ∈ blocks ∧ Covers b p)
    ∧ (forall b p, head blocks = Some b -> OccursAt r sourceText p -> (start b <= p)%nat).
Proof.
  destruct (findMatchesInSource_covers sourceText r) as (blocks & Hf & _ & Hc).
  destruct (findMatchesInSource_spec sourceText r) as (blocks' & Hf' & Hb & Ho).
  assert (blocks' = blocks) as -> by congruence.
  exists blocks. split_and!; [done..|].
  intros b p Hh Hp. destruct (Hc p Hp) as (b' & Hin & Hcov).
  destruct blocks as [|b0 blocks]; [done|]. injection Hh as ->.
  apply elem_of_cons in Hin as [->|Hin]; [unfold Covers in Hcov; lia|].
  inversion Ho as [|? ? ? _ Hse Ho']; subst.
  apply Ordered_lower in Ho'. rewrite Forall_forall in Ho'. specialize (Ho' _ Hin).
  unfold Covers in Hcov. lia.
Qed.

(** ** A pattern without the [g] flag *)

Lemma exec_not_global re s :
  global re = false -> Occurs (source re) s ->
  ∃ m w, exec re s = (Some m, re) ∧ whole m = Ok w.
Proof.
  intros Hg (pre & w & post & cs & -> & D). unfold exec. rewrite Hg.
  destruct (decide _) as [Hlt|_]; [simpl in Hlt; lia|]. rewrite drop_0.
  destruct (search_complete (source re) pre w post cs 0 D) as [[m e] Hs]. rewrite Hs.
  destruct (search_whole _ _ _ _ _ Hs) as (w' & Hw & _). by exists m, w'.
Qed.

Lemma findMatches_loop_not_global fuel : forall s re,
  global re = false -> Occurs (source re) s -> findMatches_loop fuel s re = Hang.
Proof.
  induction fuel as [|fuel IH]; intros s re Hg Ho; [done|]. simpl.
  destruct (exec_not_global re s Hg Ho) as (m & w & -> & ->). simpl.
  rewrite IH; [done | by destruct (decide _) | by destruct (decide _)].
Qed.

(** X2.  The loop of [findMatchesInSource] relies on the [g] flag.  Handed a
    pattern without it that occurs in the text, [exec] finds the first
    occurrence again and again: the loop outlasts every number of
    iterations.  When the pattern does not occur, the result is empty. *)
Theorem scan_needs_the_g_flag (sourceText : str) (pattern : RegExp) :
  global pattern = false ->
  (Occurs (source pattern) sourceText ->
     forall fuel, findMatches_loop fuel sourceText pattern = Hang)
  ∧ (¬ Occurs (source pattern) sourceText ->
       findMatchesInSource sourceText pattern = Ok ([], pattern)).
Proof.
  intros Hg. split.
  - intros Ho fuel. by apply findMatches_loop_not_global.
  - intros Hn. unfold findMatchesInSource.
    replace (length sourceText + 2)%nat with (S (length sourceText + 1)) by lia.
    cbn [findMatches_loop]. unfold exec. rewrite Hg.
    destruct (decide _) as [Hlt|_]; [simpl in Hlt; lia|]. rewrite drop_0.
    destruct (search _ _ _) as [[m e]|] eqn:Hs; [|done].
    destruct Hn. apply search_sound in Hs as (pre & w & post & cs0 & ? & _ & _ & D & _).
    by exists pre, w, post, cs0.
Qed.

Lemma scan_needs_the_g_flag_witness :
  findMatches_loop 1000 (js "model A model B") (regexp (lit (js "model")) false) = Hang
  ∧ findMatchesInSource (js "screen A") (regexp (lit (js "model")) false)
    = Ok ([], regexp (lit (js "model")) false).
Proof.
  split.
  - apply (scan_needs_the_g_flag (js "model A model B") (regexp (lit (js "model")) false));
      [reflexivity|].
    exists [], (js "model"), (js " A model B"), (no_captures (lit (js "model"))).
    split; [reflexivity|]. by apply denote_lit.
  - apply (scan_needs_the_g_flag (js "screen A") (regexp (lit (js "model")) false));
      [reflexivity|].
    apply match_none. vm_compute. reflexivity.
Defined.

(** ** Where a block ends *)

(** A lazy repetition stops at the first place where what follows
    matches. *)
Lemma star_lazy_first {R} (p : char -> bool) (k : str -> option R) : forall s x,
  star_lazy p s k = Some x ->
  ∃ w s', s = w ++ s' ∧ Forall (fun c => p c = true) w ∧ k s' = Some x
    ∧ forall w1 w2, w = w1 ++ w2 -> w2 ≠ [] -> k (w2 ++ s') = None.
Proof.
  induction s as [|c s IH]; intros x; cbn [star_lazy].
  - destruct (k []) as [r|] eqn:Hk; [|done]. intros [= <-].
    exists [], []. split_and!; [done | constructor | done |].
    intros w1 w2 Hw. by destruct w1, w2.
  - destruct (k (c :: s)) as [r|] eqn:Hk.
    + intros [= <-]. exists [], (c :: s). split_and!; [done | constructor | done |].
      intros w1 w2 Hw. by destruct w1, w2.
    + destruct (p c) eqn:Hc; [|done]. intros H.
      destruct (IH _ H) as (w & s' & -> & Hw & Hk' & Hmin).
      exists (c :: w), s'. split_and!; [done | by constructor | done |].
      intros w1 w2 Heq Hne. destruct w1 as [|c' w1].
      * simpl in Heq. by subst w2.
      * injection Heq as -> ->. by apply (Hmin w1 w2).
Qed.

Lemma Without_first (c : char) (w : str) :
  (forall w1 w2, w = w1 ++ w2 -> w2 ≠ [] -> head w2 ≠ Some c) -> Without c w.
Proof.
  induction w as [|d w IH]; intros H; [constructor|]. constructor.
  - intros ->. by apply (H [] (c :: w)).
  - apply IH. intros w1 w2 -> Hne. by apply (H (d :: w1) w2).
Qed.

Lemma run_Cat {R} r1 r2 s cs (k : str -> captures -> option R) x :
  run (Cat r1 r2) s cs k = Some x ->
  ∃ w s' cs', s = w ++ s' ∧ denote r1 w cs cs' ∧ run r2 s' cs' k = Some x.
Proof. cbn [run]. apply run_sound. Qed.

(** The block the screen pattern picks at a position ends at the first
    closing brace after its opening brace. *)
Lemma screen_block_picked blk post cs :
  match_here screen_re (blk ++ post) = Some (blk, cs) ->
  ∃ name body, BlockShape (js "screen") blk name body ∧ Without rbrace body.
Proof.
  unfold match_here, screen_re. cbn [cat].
  set (kfin := fun s' cs => Some (_, _)). intros H.
  apply run_Cat in H as (kw & s1 & cs1 & Hs & [-> ->]%denote_lit & H1).
  apply run_Cat in H1 as (ws & s2 & cs2 & -> & (? & ? & ->)%denote_plus_space & H2).
  apply run_Cat in H2 as (name & s3 & cs3 & -> & (? & ? & ->)%denote_group_word & H3).
  apply run_Cat in H3 as (ws' & s4 & cs4 & -> & [? ->]%denote_star_space & H4).
  apply run_Cat in H4 as (lb & s5 & cs5 & -> & [-> ->]%(denote_lit [lbrace]) & H5).
  cbn [lazy_star run] in H5.
  destruct (star_lazy_first _ _ _ _ H5) as (body & s6 & -> & _ & H6 & Hmin).
  destruct s6 as [|c s6]; [done|]. cbn [lit run atom_match] in H6.
  destruct (c =? rbrace) eqn:Hc; [|done]. apply N.eqb_eq in Hc as ->.
  unfold kfin in H6. injection H6 as Hblk _.
  rewrite Hs in Hblk.
  replace (js "screen" ++ ws ++ name ++ ws' ++ [lbrace] ++ body ++ rbrace :: s6)
    with ((js "screen" ++ ws ++ name ++ ws' ++ [lbrace] ++ body ++ [rbrace]) ++ s6) in Hblk
    by (by rewrite <-!(assoc_L (++))).
  rewrite take_app_minus in Hblk. exists name, body. split.
  - exists ws, ws'. by split_and!.
  - apply Without_first. intros w1 w2 Hw Hne Hh.
    specialize (Hmin w1 w2 Hw Hne). destruct w2 as [|d w2]; [done|].
    injection Hh as ->. cbn [app lit run atom_match] in Hmin. by rewrite N.eqb_refl in Hmin.
Qed.

Lemma block_shapes (sourceText : str) :
  (∃ blocks,
     findMatchesInSource sourceText (regexp model_re true) = Ok (blocks, regexp model_re true)
     ∧ Forall (fun b => ∃ name body,
         BlockShape (js "model") (text b) name body ∧ Without rbrace body) blocks)
  ∧ (∃ blocks,
     findMatchesInSource sourceText (regexp screen_re true) = Ok (blocks, regexp screen_re true)
     ∧ Forall (fun b => ∃ name body,
         BlockShape (js "screen") (text b) name body ∧ Without rbrace body) blocks)
  ∧ (∃ blocks,
     findMatchesInSource sourceText (regexp endpoint_re true)
       = Ok (blocks, regexp endpoint_re true)
     ∧ Forall (fun b => ∃ name body,
         BlockShape (js "endpoint") (text b) name body ∧ Without rbrace body) blocks).
Proof.
  assert (forall kw, forall b,
    Block (cat [lit kw; plus space; Group 1 (plus word); star space; lit [lbrace];
                Group 2 (star (not_char rbrace)); lit [rbrace]]) sourceText b ->
    ∃ name body, BlockShape kw (text b) name body ∧ Without rbrace body) as Hshape.
  { intros kw b (_ & cs & D). apply block_shape_denote in D as (name & body & HB & Hb).
    exists name, body. split; [done|]. eapply Forall_impl; [exact Hb|].
    intros c Hc. cbv beta in Hc. rewrite atom_not_char in Hc. apply negb_true_iff in Hc. by apply N.eqb_neq. }
  split_and!.
  - destruct (findMatchesInSource_spec sourceText model_re) as (blocks & Hf & Hb & _).
    exists blocks. split; [done|]. eapply Forall_impl; [exact Hb|]. apply Hshape.
  - destruct (findMatchesInSource_covers sourceText screen_re) as (blocks & Hf & Hp & _).
    exists blocks. split; [done|]. eapply Forall_impl; [exact Hp|].
    intros b (pre & post & cs & _ & _ & Hm). by eapply screen_block_picked.
  - destruct (findMatchesInSource_spec sourceText endpoint_re) as (blocks & Hf & Hb & _).
    exists blocks. split; [done|]. eapply Forall_impl; [exact Hb|]. apply Hshape.
Qed.

(** X3.  Every block of the model, screen and endpoint scans has the
    shape [keyword NAME { body }] with no closing brace in the body: a
    block ends at the first closing brace after its opening brace, whether
    the pattern asks for it (a body of [[^}]] characters) or the lazy
    repetition stops there. *)
Theorem blocks_end_at_first_closing_brace (sourceText : str) :
  (∃ blocks,
     findMatchesInSource sourceText (regexp model_re true) = Ok (blocks, regexp model_re true)
     ∧ Forall (fun b => ∃ name body,
         BlockShape (js "model") (text b) name body ∧ Without rbrace body) blocks)
  ∧ (∃ blocks,
     findMatchesInSource sourceText (regexp screen_re true) = Ok (blocks, regexp screen_re true)
     ∧ Forall (fun b => ∃ name body,
         BlockShape (js "screen") (text b) name body ∧ Without rbrace body) blocks)
  ∧ (∃ blocks,
     findMatchesInSource sourceText (regexp endpoint_re true)
       = Ok (blocks, regexp endpoint_re true)
     ∧ Forall (fun b => ∃ name body,
         BlockShape (js "endpoint") (text b) name body ∧ Without rbrace body) blocks).
Proof. exact (block_shapes sourceText). Qed.

(** ** The name and the body both revisions read off a block *)

(** Two ways of cutting a text into a run of characters of one kind and a
    rest that does not go on the run are the same. *)
Lemma run_unique (p : char -> bool) : forall a b x y : str,
  Forall (fun c => p c = true) a -> Forall (fun c => p c = true) b ->
  match x with [] => True | c :: _ => p c = false end ->
  match y with [] => True | c :: _ => p c = false end ->
  a ++ x = b ++ y -> a = b ∧ x = y.
Proof.
  induction a as [|c a IH]; intros b x y Ha Hb Hx Hy Heq.
  - destruct b as [|d b]; [done|]. simpl in Heq. subst x.
    apply Forall_cons in Hb as [Hd _]. congruence.
  - apply Forall_cons in Ha as [Hc Ha]. destruct b as [|d b].
    + simpl in Heq. subst y. congruence.
    + injection Heq as -> Heq. apply Forall_cons in Hb as [_ Hb].
      destruct (IH b x y Ha Hb Hx Hy Heq) as [-> ->]. done.
Qed.

(** What [re.exec(s)] and [s.match(re)] report for a pattern without the
    [g] flag: the leftmost occurrence and the word the matcher picks
    there. *)
Lemma match_found r s m :
  match_ r s = Some m ->
  ∃ pre w post,
    s = pre ++ w ++ post ∧ index m = length pre
    ∧ match_here r (w ++ post) = Some (w, groups m)
    ∧ forall p, OccursAt r s p -> (length pre <= p)%nat.
Proof.
  rewrite match_search. destruct (search r 0 s) as [[m' e]|] eqn:Hs; [|done].
  intros [= <-]. pose proof (search_leftmost _ _ _ _ _ Hs) as Hl.
  apply search_sound in Hs as (pre & w & post & cs0 & -> & Hi & _ & _ & _ & Hm).
  exists pre, w, post. split_and!; [done | done | done |].
  intros p (pre' & w' & post' & cs & Heq & <- & D).
  specialize (Hl _ _ _ _ Heq D). simpl in *. lia.
Qed.

Lemma no_captures_head kw rest :
  no_captures (cat (lit kw :: plus space :: Group 1 (plus word) :: rest))
  = replicate (S (1 `max` ngroups (cat rest))) None.
Proof.
  unfold no_captures. f_equal. f_equal. destruct rest as [|r rest].
  - cbn [cat ngroups]. rewrite ngroups_lit. cbn. done.
  - cbn [cat ngroups]. rewrite ngroups_lit. cbn [plus ngroups Nat.max]. done.
Qed.

(** The pattern [keyword\s+(\w+)\s*{] finds the name of a block. *)
Lemma block_name_brace keyword blk name body :
  BlockShape keyword blk name body ->
  ∃ m, match_ (cat [lit keyword; plus space; Group 1 (plus word); star space; lit [lbrace]]) blk
       = Some m
       ∧ group m 1 = Some name.
Proof.
  intros (ws & ws' & -> & Hws & Hsp & Hname & Hwd & Hsp').
  set (r := cat _).
  assert (OccursAt r (keyword ++ ws ++ name ++ ws' ++ [lbrace] ++ body ++ [rbrace]) 0) as Ho.
  { eexists [], (keyword ++ ws ++ name ++ ws' ++ [lbrace]), (body ++ [rbrace]), _.
    split_and!; [by rewrite <-!(assoc_L (++)) | done |].
    apply denote_head. exists ws, name, (ws' ++ [lbrace]). split_and!; [done..|].
    apply denote_cat. eexists ws', [lbrace], _.
    split_and!; [done | by apply denote_star_space | by apply (denote_lit [lbrace])]. }
  destruct (match_complete r _ ltac:(destruct Ho as (p & w & q & cs & ? & _ & ?);
                                      by exists p, w, q, cs)) as [m Hm].
  exists m. split; [done|].
  apply match_found in Hm as (pre & w & post & Heq & _ & Hh & Hl).
  specialize (Hl 0%nat Ho). destruct pre as [|? ?]; [|simpl in Hl; lia]. simpl in Heq.
  apply match_here_sound in Hh as (post' & cs0 & _ & D & Hg).
  unfold group. rewrite Hg, list_lookup_insert_ne by done.
  apply denote_head in D as (ws2 & name2 & w' & -> & Hws2 & Hsp2 & Hname2 & Hwd2 & D).
  apply denote_cat in D as (ws2' & ? & ? & -> & [Hsp2' ->]%denote_star_space & D).
  apply (denote_lit [lbrace]) in D as [-> ->].
  rewrite <-!(assoc_L (++)) in Heq. apply app_inv_head in Heq.
  apply (run_unique is_space) in Heq as [<- Heq]; [|done|done|..].
  - apply (run_unique is_word) in Heq as [<- _]; [|done|done|..].
    + unfold r. rewrite no_captures_head. cbn [cat ngroups]. done.
    + destruct Hsp' as [|c ws' Hc _]; [done | by apply space_not_word].
    + destruct Hsp2' as [|c ws2' Hc _]; [done | by apply space_not_word].
  - destruct Hwd as [|c name Hc _]; [done | by apply word_not_space].
  - destruct Hwd2 as [|c name2 Hc _]; [done | by apply word_not_space].
Qed.

Lemma indexOf_nonneg c s : indexOf c s = (-1)%Z ∨ (0 <= indexOf c s)%Z.
Proof.
  induction s as [|a s IH]; [by left|]. simpl. destruct (a =? c); [right; lia|].
  destruct (indexOf c s) as [|n|n]; [right; lia | right; lia | by left].
Qed.

Lemma indexOf_first c : forall a x,
  Without c a -> indexOf c (a ++ c :: x) = Z.of_nat (length a).
Proof.
  induction a as [|d a IH]; intros x Ha.
  - simpl. by rewrite N.eqb_refl.
  - apply Forall_cons in Ha as [Hd Ha]. cbn [app indexOf].
    destruct (d =? c) eqn:Hdc; [by apply N.eqb_eq in Hdc|].
    rewrite (IH x Ha). cbn [length]. destruct (length a); simpl; lia.
Qed.

Lemma lastIndexOf_last c x : lastIndexOf c (x ++ [c]) = Z.of_nat (length x).
Proof.
  unfold lastIndexOf. rewrite rev_app_distr. simpl. rewrite N.eqb_refl.
  rewrite length_app. simpl. lia.
Qed.

Lemma substring_mid (a b c : str) :
  substring (Z.of_nat (length a)) (Z.of_nat (length a + length b)) (a ++ b ++ c) = b.
Proof.
  unfold substring. rewrite !length_app.
  replace (Z.to_nat (Z.min _ _)) with (length a) by lia.
  replace (Z.to_nat (Z.max _ _)) with (length a + length b)%nat by lia.
  rewrite drop_app_length. replace (length a + length b - length a)%nat with (length b) by lia.
  by rewrite take_app_length.
Qed.

Lemma Spaces_Without c ws : is_space c = false -> Spaces ws -> Without c ws.
Proof. intros Hc Hs. eapply Forall_impl; [exact Hs|]. intros d Hd ->. cbv beta in Hd. congruence. Qed.

Lemma Words_Without c w : is_word c = false -> Words w -> Without c w.
Proof. intros Hc Hs. eapply Forall_impl; [exact Hs|]. intros d Hd ->. cbv beta in Hd. congruence. Qed.

(** The text between the first opening and the last closing brace of a
    block is its body. *)
Lemma block_body_braces keyword blk name body :
  Without lbrace keyword -> BlockShape keyword blk name body ->
  substring (indexOf lbrace blk + 1) (lastIndexOf rbrace blk) blk = body.
Proof.
  intros Hkw (ws & ws' & -> & Hws & Hsp & Hname & Hwd & Hsp').
  replace (keyword ++ ws ++ name ++ ws' ++ [lbrace] ++ body ++ [rbrace])
    with ((keyword ++ ws ++ name ++ ws') ++ lbrace :: body ++ [rbrace])
    by (by rewrite <-!(assoc_L (++))).
  rewrite indexOf_first.
  2:{ unfold Without. rewrite !Forall_app. split_and!; [done|..].
      - by apply Spaces_Without. - by apply Words_Without. - by apply Spaces_Without. }
  replace ((keyword ++ ws ++ name ++ ws') ++ lbrace :: body ++ [rbrace])
    with (((keyword ++ ws ++ name ++ ws') ++ lbrace :: body) ++ [rbrace])
    by (by rewrite <-!(assoc_L (++))).
  rewrite lastIndexOf_last.
  replace (((keyword ++ ws ++ name ++ ws') ++ lbrace :: body) ++ [rbrace])
    with (((keyword ++ ws ++ name ++ ws') ++ [lbrace]) ++ body ++ [rbrace])
    by (by rewrite <-!(assoc_L (++))).
  replace (Z.of_nat (length (keyword ++ ws ++ name ++ ws')) + 1)%Z
    with (Z.of_nat (length ((keyword ++ ws ++ name ++ ws') ++ [lbrace])))
    by (rewrite (length_app _ [lbrace]); simpl; lia).
  replace (Z.of_nat (length ((keyword ++ ws ++ name ++ ws') ++ lbrace :: body)))
    with (Z.of_nat (length ((keyword ++ ws ++ name ++ ws') ++ [lbrace]) + length body))
    by (rewrite !length_app; simpl; lia).
  apply substring_mid.
Qed.

Lemma body_re_shape w cs :
  denote body_re w (no_captures body_re) cs
  <-> ∃ b, w = [lbrace] ++ b ++ [rbrace] ∧ Without rbrace b ∧ cs = [None; Some b].
Proof.
  unfold body_re. rewrite denote_cat. setoid_rewrite (denote_lit [lbrace]).
  setoid_rewrite denote_cat. setoid_rewrite (denote_cat (lit [rbrace]) []).
  setoid_rewrite (denote_lit [rbrace]). setoid_rewrite denote_nil.
  cbn [denote star]. setoid_rewrite atom_not_char. setoid_rewrite negb_true_iff.
  setoid_rewrite N.eqb_neq. split.
  - intros (? & ? & ? & -> & [-> ->] & b & ? & ? & -> & (? & [Hb ->] & ->)
            & ? & ? & ? & -> & [-> ->] & -> & ->).
    exists b. by rewrite app_nil_r.
  - intros (b & -> & Hb & ->).
    eexists [lbrace], _, _. split_and!; [done | done | done |].
    eexists b, [rbrace], _. split_and!; [done | by eexists | ].
    eexists [rbrace], [], _. by split_and!.
Qed.

(** The pattern [{([^}]* )}] finds the body of a block. *)
Lemma block_body_capture keyword blk name body :
  Without lbrace keyword -> BlockShape keyword blk name body -> Without rbrace body ->
  Rev2.capture1 body_re blk = Some body.
Proof.
  intros Hkw (ws & ws' & -> & Hws & Hsp & Hname & Hwd & Hsp') Hbody.
  set (prefix := keyword ++ ws ++ name ++ ws').
  assert (Without lbrace prefix) as Hpre.
  { unfold Without, prefix. rewrite !Forall_app. split_and!; [done|..].
    - by apply Spaces_Without. - by apply Words_Without. - by apply Spaces_Without. }
  replace (keyword ++ ws ++ name ++ ws' ++ [lbrace] ++ body ++ [rbrace])
    with (prefix ++ ([lbrace] ++ body ++ [rbrace]) ++ [])
    by (by unfold prefix; rewrite <-!(assoc_L (++)), app_nil_r).
  set (blk := prefix ++ _ ++ []).
  assert (OccursAt body_re blk (length prefix)) as Ho.
  { eexists prefix, _, [], _. split_and!; [done | done |].
    apply body_re_shape. by exists body. }
  unfold Rev2.capture1.
  destruct (match_complete body_re blk ltac:(destruct Ho as (p & w & q & cs & ? & _ & ?);
                                             by exists p, w, q, cs)) as [m Hm].
  rewrite Hm. cbn [mbind option_bind].
  apply match_found in Hm as (pre & w & post & Heq & _ & Hh & Hl).
  specialize (Hl _ Ho).
  apply match_here_sound in Hh as (post' & cs0 & _ & D & Hg).
  unfold group. rewrite Hg, list_lookup_insert_ne by done.
  apply body_re_shape in D as (b & -> & Hb & ->). cbn.
  unfold blk in Heq. rewrite app_nil_r in Heq.
  assert (Without lbrace pre) as Hpre'.
  { assert (pre = take (length pre) prefix) as ->.
    { apply (f_equal (take (length pre))) in Heq.
      rewrite take_app_le in Heq by done. by rewrite take_app_length in Heq. }
    by apply Forall_take. }
  cbn [app] in Heq. rewrite <-!(assoc_L (++)) in Heq. cbn [app] in Heq.
  apply split_at_first in Heq as [_ Heq]; [|done|done].
  replace (body ++ [rbrace]) with (body ++ rbrace :: []) in Heq by done.
  replace (b ++ rbrace :: post) with (b ++ rbrace :: post) in Heq by done.
  apply split_at_first in Heq as [<- _]; done.
Qed.

Lemma for_push_Forall2 {A B} (f : A -> outcome (option B)) (P : A -> B -> Prop) (l : list A) :
  Forall (fun a => ∃ b, f a = Ok (Some b) ∧ P a b) l ->
  ∃ bs, Rev1.for_push f l = Ok bs ∧ Forall2 P l bs.
Proof.
  induction 1 as [|a l (b & Hf & HP) _ (bs & IH & IH2)]; [by exists []|].
  exists (b :: bs). cbn [Rev1.for_push]. rewrite Hf, IH. split; [done | by constructor].
Qed.

Lemma Without_keyword (c : char) (kw : string) :
  forallb (fun d => negb (d =? c)) (js kw) = true -> Without c (js kw).
Proof.
  intros H. apply Forall_forall. intros d Hd ->.
  rewrite forallb_forall in H. specialize (H c). rewrite N.eqb_refl in H.
  apply list_elem_of_In in Hd. by specialize (H Hd).
Qed.

Lemma Rev1_parseModel_block b name body :
  BlockShape (js "model") (text b) name body ->
  Rev1.parseModel b
  = (properties ← Rev1.for_push Rev1.parseProperty (propertyLines body);
     Ok (Some {| Rev1.m_type := "Model"; Rev1.m_name := Some name;
                 Rev1.properties := properties |})).
Proof.
  intros HB. unfold Rev1.parseModel.
  destruct (block_name_brace _ _ _ _ HB) as (m & Hm & Hg).
  fold model_name_re in Hm. rewrite Hm, Hg.
  by rewrite (block_body_braces _ _ _ _ (Without_keyword lbrace "model" eq_refl) HB).
Qed.

Lemma Rev2_parseModel_block b name body :
  BlockShape (js "model") (text b) name body -> Without rbrace body ->
  Rev2.parseModel b
  = if decide (body = []) then None
    else Some {| Rev2.m_name := name;
                 Rev2.properties := omap Rev2.parseProperty (propertyLines body) |}.
Proof.
  intros HB Hb. unfold Rev2.parseModel.
  pose proof (block_name _ _ _ _ HB) as Hn. fold model_name_re' in Hn. rewrite Hn.
  rewrite (block_body_capture _ _ _ _ (Without_keyword lbrace "model" eq_refl) HB Hb).
  destruct HB as (? & ? & _ & _ & _ & Hname & _).
  destruct name as [|c name]; [done|]. by destruct body.
Qed.

(** X4.  Both revisions of the model extractor read the same name and the same
    body off every block [model NAME { body }] the scan finds.  The first
    revision builds a model for every block; the second builds none for a
    block whose body is empty. *)
Theorem models_in_both_revisions (sourceText : str) :
  ∃ blocks models1,
    findMatchesInSource sourceText (regexp model_re true) = Ok (blocks, regexp model_re true)
    ∧ Rev1.parseDirectModels sourceText = Ok models1
    ∧ Rev2.parseDirectModels sourceText = Ok (omap Rev2.parseModel blocks)
    ∧ Forall2 (fun b model =>
        ∃ name body,
          BlockShape (js "model") (text b) name body ∧ Without rbrace body
          ∧ Rev1.m_name model = Some name
          ∧ Rev1.for_push Rev1.parseProperty (propertyLines body)
            = Ok (Rev1.properties model)
          ∧ Rev2.parseModel b
            = if decide (body = []) then None
              else Some {| Rev2.m_name := name;
                           Rev2.properties :=
                             omap Rev2.parseProperty (propertyLines body) |})
      blocks models1.
Proof.
  destruct (block_shapes sourceText) as [(blocks & Hf & Hb) _].
  unfold Rev1.parseDirectModels, Rev2.parseDirectModels. rewrite Hf.
  cbn [mbind outcome_bind fst].
  edestruct (for_push_Forall2 Rev1.parseModel) as (models1 & Hp & H2); last first.
  { exists blocks, models1. split_and!; [done | exact Hp | done | exact H2]. }
  eapply Forall_impl; [exact Hb|]. intros b (name & body & HB & Hwo). cbv beta.
  rewrite (Rev1_parseModel_block _ _ _ HB).
  destruct (for_push_returns Rev1.parseProperty (propertyLines body)
              Rev1_parseProperty_returns) as [props Hprops].
  rewrite Hprops. cbn [mbind outcome_bind]. eexists. split; [done|].
  exists name, body. split_and!; [done | done | done | done |].
  by apply Rev2_parseModel_block.
Qed.

Lemma for_push_omap_Forall2 {A B C} (f : A -> outcome (option B)) (g : A -> option C)
    (P : A -> B -> Prop) (Q : B -> C -> Prop) (l : list A) :
  Forall (fun a => ∃ b c, f a = Ok (Some b) ∧ g a = Some c ∧ P a b ∧ Q b c) l ->
  ∃ bs, Rev1.for_push f l = Ok bs ∧ Forall2 P l bs ∧ Forall2 Q bs (omap g l).
Proof.
  induction 1 as [|a l (b & c & Hf & Hg & HP & HQ) _ (bs & IH & IH2 & IH3)]; [by exists []|].
  exists (b :: bs). cbn [Rev1.for_push omap list_omap]. rewrite Hf, IH, Hg.
  split_and!; [done | by constructor | by constructor].
Qed.

(** X5.  Both revisions of the screen extractor build one screen for every
    block [screen NAME { body }] the scan finds, none skipped, and under
    the same name; the body of a block holds no closing brace. *)
Theorem screens_in_both_revisions (sourceText : str) :
  ∃ blocks screens1 screens2,
    findMatchesInSource sourceText (regexp screen_re true) = Ok (blocks, regexp screen_re true)
    ∧ Rev1.parseDirectScreens sourceText = Ok screens1
    ∧ Rev2.parseDirectScreens sourceText = Ok screens2
    ∧ Forall2 (fun b screen =>
        ∃ name body,
          BlockShape (js "screen") (text b) name body ∧ Without rbrace body
          ∧ Rev1.s_name screen = Some name)
      blocks screens1
    ∧ Forall2 (fun screen1 screen2 => Rev1.s_name screen1 = Some (Rev2.s_name screen2))
        screens1 screens2.
Proof.
  destruct (block_shapes sourceText) as (_ & (blocks & Hf & Hb) & _).
  unfold Rev1.parseDirectScreens, Rev2.parseDirectScreens. rewrite Hf.
  cbn [mbind outcome_bind fst].
  edestruct (for_push_omap_Forall2 Rev1.parseScreen Rev2.parseScreen) as (screens1 & Hp & H2 & H3);
    last first.
  { exists blocks, screens1, (omap Rev2.parseScreen blocks).
    split_and!; [done | exact Hp | done | exact H2 | exact H3]. }
  eapply Forall_impl; [exact Hb|]. intros b (name & body & HB & Hwo). cbv beta.
  unfold Rev1.parseScreen, Rev2.parseScreen.
  destruct (block_name_brace _ _ _ _ HB) as (m & Hm & Hg).
  fold screen_name_re in Hm. rewrite Hm, Hg.
  pose proof (block_name _ _ _ _ HB) as Hn. fold screen_name_re' in Hn. rewrite Hn.
  pose proof HB as (? & ? & _ & _ & _ & Hname & _).
  destruct name as [|c name]; [done|].
  eexists _, _. split_and!; [done | done | | done].
  by exists (c :: name), body.
Qed.

(** ** The API section *)

Lemma denote_lazy_any' w cs cs' : denote (lazy_star any') w cs cs' <-> cs' = cs.
Proof.
  cbn [denote lazy_star]. split; [by intros [_ ->]|]. intros ->. split; [|done].
  apply Forall_forall. intros c _. apply atom_any'.
Qed.

Lemma api_re_shape w cs :
  denote api_re w (no_captures api_re) cs ->
  ∃ v, QuotedField (js "baseUrl") w v ∧ cs = [None; Some v].
Proof.
  unfold api_re. intros D.
  apply denote_cat in D as (? & ? & ? & -> & [-> ->]%denote_lit & D).
  apply denote_cat in D as (ws0 & ? & ? & -> & [_ ->]%denote_star_space & D).
  apply denote_cat in D as (? & ? & ? & -> & [-> ->]%(denote_lit [lbrace]) & D).
  apply denote_cat in D as (gap1 & ? & ? & -> & ->%denote_lazy_any' & D).
  apply denote_cat in D as (? & ? & ? & -> & [-> ->]%denote_lit & D).
  apply denote_cat in D as (ws1 & ? & ? & -> & [? ->]%denote_star_space & D).
  apply denote_cat in D as (? & ? & ? & -> & [-> ->]%(denote_lit [colon]) & D).
  apply denote_cat in D as (ws2 & ? & ? & -> & [? ->]%denote_star_space & D).
  apply denote_cat in D as (? & ? & ? & -> & [-> ->]%(denote_lit [dquote]) & D).
  apply denote_cat in D as (v & ? & ? & -> & (? & ? & ->)%denote_group_not_char & D).
  apply denote_cat in D as (? & ? & ? & -> & [-> ->]%(denote_lit [dquote]) & D).
  apply denote_cat in D as (gap2 & ? & ? & -> & ->%denote_lazy_any' & D).
  apply (denote_lit [rbrace]) in D as [-> ->].
  exists v. split; [|done].
  exists (js "api" ++ ws0 ++ [lbrace] ++ gap1), ws1, ws2, (gap2 ++ [rbrace]).
  split_and!; [by rewrite <-!(assoc_L (++)) | done..].
Qed.

Lemma QuotedField_Substring key w s v :
  QuotedField key w v -> Substring w s -> QuotedField key s v.
Proof.
  intros (pre & ws1 & ws2 & post & -> & ? & ? & ? & ?) (pre' & post' & ->).
  exists (pre' ++ pre), ws1, ws2, (post ++ post').
  split_and!; [by rewrite <-!(assoc_L (++)) | done..].
Qed.

(** What both revisions see of the API section. *)
Lemma api_section_found s :
  match match_ api_re s with
  | Some apiSection =>
      Occurs api_re s
      ∧ ∃ baseUrl, group apiSection 1 = Some baseUrl ∧ baseUrl ≠ []
                   ∧ QuotedField (js "baseUrl") s baseUrl
  | None => ¬ Occurs api_re s
  end.
Proof.
  destruct (match_ api_re s) as [m|] eqn:Hm; [|by apply match_none].
  apply match_sound in Hm as (pre & w & post & cs0 & -> & D & Hg).
  split; [by exists pre, w, post, cs0|].
  apply api_re_shape in D as (v & HQ & ->).
  exists v. split_and!.
  - unfold group. by rewrite Hg.
  - by destruct HQ as (? & ? & ? & ? & _ & _ & _ & ? & _).
  - eapply QuotedField_Substring; [done|]. by exists pre, post.
Qed.

(** X6.  Both revisions of the API extractor return, and they agree on the API
    section: there is an API exactly when the text has a section
    [api { ... baseUrl: <dq>URL<dq> ... }], and then both report [URL],
    which is not empty. *)
Theorem api_section_in_both_revisions (sourceText : str) :
  ∃ api1 api2,
    Rev1.parseDirectApi sourceText = Ok api1
    ∧ Rev2.parseDirectApi sourceText = Ok api2
    ∧ match api1, api2 with
      | Some api1, Some api2 =>
          Occurs api_re sourceText
          ∧ Rev2.baseUrl api2 = Some (Rev1.baseUrl api1)
          ∧ Rev1.baseUrl api1 ≠ []
          ∧ QuotedField (js "baseUrl") sourceText (Rev1.baseUrl api1)
      | None, None => ¬ Occurs api_re sourceText
      | _, _ => False
      end.
Proof.
  pose proof (api_section_found sourceText) as H.
  unfold Rev1.parseDirectApi, Rev2.parseDirectApi.
  destruct (match_ api_re sourceText) as [m|] eqn:Hm; [|by exists None, None].
  destruct H as (Ho & baseUrl & -> & Hne & HQ).
  destruct baseUrl as [|c baseUrl]; [done|].
  destruct (exec_loop_spec (length sourceText + 2) sourceText (regexp endpoint_re1 true))
    as [ms ->]; [done | vm_compute; lia | lia | simpl; lia |].
  destruct (findMatchesInSource_spec sourceText endpoint_re) as (bs & -> & _).
  cbn [mbind outcome_bind]. eexists (Some _), (Some _).
  by split_and!.
Qed.

(** ** The endpoints of the first revision *)

Lemma exec_loop_matches fuel : forall s re,
  global re = true -> (0 < min_length (source re))%nat ->
  (0 < fuel)%nat -> (length s + 2 <= lastIndex re + fuel)%nat ->
  ∃ ms, exec_loop fuel s re = Ok ms
        ∧ Forall (fun m => ∃ w cs0,
            Substring w s ∧ denote (source re) w (no_captures (source re)) cs0
            ∧ groups m = <[0%nat := Some w]> cs0) ms.
Proof.
  induction fuel as [|fuel IH]; intros s re Hg Hmin Hpos Hfuel; [lia|].
  cbn [exec_loop]. destruct (exec re s) as [[m|] re'] eqn:He; [|by exists []].
  apply exec_global_some in He
    as (pre & w & post & cs0 & Hs & Hi & Hli & D & Hgr & Hw & ->); [|done].
  pose proof (denote_min_length _ _ _ _ D) as Hl.
  assert (length s = length pre + length w + length post)%nat as Hlen.
  { rewrite Hs, !length_app. lia. }
  destruct (IH s (set_lastIndex re (index m + length w))) as (ms & -> & Hms);
    [done | done | simpl; lia | simpl; lia |].
  eexists. split; [done|]. constructor; [|done].
  exists w, cs0. split_and!; [by exists pre, post | done | done].
Qed.

Lemma endpoint_re1_shape w cs :
  denote endpoint_re1 w (no_captures endpoint_re1) cs ->
  ∃ id path method,
    EndpointText id path method w ∧ cs = [None; Some id; Some path; Some method].
Proof.
  unfold endpoint_re1. intros D.
  apply denote_head in D as (ws & id & w' & -> & ? & ? & ? & ? & D).
  apply denote_cat in D as (ws' & ? & ? & -> & [? ->]%denote_star_space & D).
  apply denote_cat in D as (? & ? & ? & -> & [-> ->]%(denote_lit [lbrace]) & D).
  apply denote_cat in D as (gap1 & ? & ? & -> & ->%denote_lazy_any' & D).
  apply denote_cat in D as (? & ? & ? & -> & [-> ->]%denote_lit & D).
  apply denote_cat in D as (ws1 & ? & ? & -> & [? ->]%denote_star_space & D).
  apply denote_cat in D as (? & ? & ? & -> & [-> ->]%(denote_lit [colon]) & D).
  apply denote_cat in D as (ws2 & ? & ? & -> & [? ->]%denote_star_space & D).
  apply denote_cat in D as (? & ? & ? & -> & [-> ->]%(denote_lit [dquote]) & D).
  apply denote_cat in D as (path & ? & ? & -> & (? & ? & ->)%denote_group_not_char & D).
  apply denote_cat in D as (? & ? & ? & -> & [-> ->]%(denote_lit [dquote]) & D).
  apply denote_cat in D as (gap2 & ? & ? & -> & ->%denote_lazy_any' & D).
  apply denote_cat in D as (? & ? & ? & -> & [-> ->]%denote_lit & D).
  apply denote_cat in D as (ws3 & ? & ? & -> & [? ->]%denote_star_space & D).
  apply denote_cat in D as (? & ? & ? & -> & [-> ->]%(denote_lit [colon]) & D).
  apply denote_cat in D as (ws4 & method & ? & -> & [? ->]%denote_star_space & D).
  apply denote_group_word in D as (? & ? & ->).
  exists id, path, method. split; [|done].
  exists ws, ws', gap1, ws1, ws2, gap2, ws3, ws4. by split_and!.
Qed.

(** X7.  When the first revision of the API extractor finds an API section,
    every endpoint it reports is complete: its id, path and method are
    all defined and not empty, and they were read off a text
    [endpoint ID { ... path: <dq>PATH<dq> ... method: METHOD] that occurs
    in the source.  An endpoint block without a path or a method yields no
    endpoint of its own. *)
Theorem first_revision_endpoints (sourceText : str) (api : Rev1.API) :
  Rev1.parseDirectApi sourceText = Ok (Some api) ->
  Forall (fun endpoint =>
    ∃ id path method w,
      endpoint = {| Rev1.id := Some id; Rev1.path := Some path; Rev1.method := Some method |}
      ∧ EndpointText id path method w ∧ Substring w sourceText)
    (Rev1.endpoints api).
Proof.
  unfold Rev1.parseDirectApi. destruct (match_ api_re sourceText) as [m|]; [|done].
  destruct (group m 1) as [[|c baseUrl]|]; [done| |done].
  destruct (exec_loop_matches (length sourceText + 2) sourceText (regexp endpoint_re1 true))
    as (ms & -> & Hms); [done | vm_compute; lia | lia | simpl; lia |].
  cbn [mbind outcome_bind]. intros [= <-]. cbn [Rev1.endpoints].
  apply Forall_fmap. eapply Forall_impl; [exact Hms|].
  intros e (w & cs0 & Hsub & D & Hg). cbn [source regexp] in D.
  apply endpoint_re1_shape in D as (id & path & method & HT & ->).
  exists id, path, method, w. unfold compose, group. rewrite Hg. by split_and!.
Qed.

Lemma first_revision_endpoints_witness :
  Rev1.parseDirectApi one_endpoint_source
  = Ok (Some {| Rev1.baseUrl := js "http://x";
                Rev1.endpoints := [{| Rev1.id := Some (js "ping");
                                      Rev1.path := Some (js "/ping");
                                      Rev1.method := Some (js "GET") |}] |})
  ∧ Forall (fun endpoint =>
      ∃ id path method w,
        endpoint = {| Rev1.id := Some id; Rev1.path := Some path;
                      Rev1.method := Some method |}
        ∧ EndpointText id path method w ∧ Substring w one_endpoint_source)
    [{| Rev1.id := Some (js "ping"); Rev1.path := Some (js "/ping");
        Rev1.method := Some (js "GET") |}].
Proof.
  assert (Rev1.parseDirectApi one_endpoint_source
          = Ok (Some {| Rev1.baseUrl := js "http://x";
                        Rev1.endpoints := [{| Rev1.id := Some (js "ping");
                                              Rev1.path := Some (js "/ping");
                                              Rev1.method := Some (js "GET") |}] |})) as H
    by (vm_compute; reflexivity).
  split; [exact H|]. exact (first_revision_endpoints _ _ H).
Defined.

(** ** The attributes of a property line (first revision) *)

Lemma split_nonempty sep s : split sep s ≠ [].
Proof.
  destruct s as [|c s]; [done|]. simpl. destruct (c =? sep); [done|].
  by destruct (split sep s).
Qed.

Lemma split_Without sep : forall s, Forall (Without sep) (split sep s).
Proof.
  induction s as [|c s IH]; simpl.
  - repeat constructor.
  - destruct (c =? sep) eqn:Hc.
    + constructor; [constructor | done].
    + apply N.eqb_neq in Hc. destruct (split sep s) as [|p ps].
      * repeat constructor. done.
      * apply Forall_cons in IH as [Hp Hps]. constructor; [by constructor | done].
Qed.

Lemma drop_while_Forall (P : char -> Prop) p s : Forall P s -> Forall P (drop_while p s).
Proof.
  induction 1 as [|c s Hc Hs IH]; simpl; [constructor|].
  destruct (p c); [done | by constructor].
Qed.

Lemma trim_Forall (P : char -> Prop) s : Forall P s -> Forall P (trim s).
Proof.
  intros H. unfold trim.
  apply Forall_rev, drop_while_Forall, Forall_rev, drop_while_Forall, H.
Qed.








(** ** Loops that remember the keys they have seen *)

Lemma duplicates_from_cons {A} (key : A -> str) (finding : nat -> str -> Diagnostic)
    i before a l :
  duplicates_from key finding i before (a :: l)
  = (if bool_decide (key a ∈ before) then [finding i (key a)] else [])
    ++ duplicates_from key finding (S i) (before ++ [key a]) l.
Proof.
  unfold duplicates_from. cbn [imap concat fmap list_fmap take]. f_equal.
  - by rewrite app_nil_r, Nat.add_0_r.
  - f_equal. apply imap_ext. intros k x _. unfold compose.
    cbn [take]. rewrite <-(assoc_L (++)). cbn [app].
    by replace (S i + k)%nat with (i + S k)%nat by lia.
Qed.

Lemma duplicates_from_nil_iff {A} (key : A -> str) (finding : nat -> str -> Diagnostic) :
  forall l i before,
  duplicates_from key finding i before l = []
  <-> NoDup (key <$> l) ∧ Forall (fun a => key a ∉ before) l.
Proof.
  induction l as [|a l IH]; intros i before.
  - split; [intros _; split; constructor | done].
  - rewrite duplicates_from_cons. cbn [fmap list_fmap]. rewrite NoDup_cons, Forall_cons.
    split.
    + intros [H1 H2]%app_eq_nil. apply IH in H2 as [Hnd Hall].
      case_bool_decide as Hin; [done|]. split_and!; [|done|done|].
      * intros Hk. apply list_elem_of_fmap in Hk as (a' & Hk & Ha').
        rewrite Forall_forall in Hall. apply (Hall a' Ha'). rewrite <-Hk.
        apply elem_of_app. right. apply list_elem_of_here.
      * eapply Forall_impl; [exact Hall|]. intros a' Hn Hb. apply Hn, elem_of_app. by left.
    + intros ([Hk Hnd] & Hb & Hall). rewrite bool_decide_eq_false_2 by done.
      cbn [app]. apply IH. split; [done|].
      apply Forall_forall. intros a' Ha' [Hin|Hin%list_elem_of_singleton]%elem_of_app.
      * rewrite Forall_forall in Hall. by apply (Hall a').
      * apply Hk. rewrite <-Hin. by apply list_elem_of_fmap_2.
Qed.

Lemma duplicates_from_elem {A} (key : A -> str) (finding : nat -> str -> Diagnostic) l i a :
  (forall i n j m, finding i n = finding j m -> i = j ∧ n = m) ->
  l !! i = Some a ->
  finding i (key a) ∈ duplicates_from key finding 0 [] l
  <-> ∃ j a', (j < i)%nat ∧ l !! j = Some a' ∧ key a' = key a.
Proof.
  intros Hinj Hi. unfold duplicates_from. rewrite elem_of_concat_imap.
  assert (key a ∈ take i (key <$> l)
          <-> ∃ j a', (j < i)%nat ∧ l !! j = Some a' ∧ key a' = key a) as Hin.
  { rewrite list_elem_of_lookup. split.
    - intros [j Hj]. apply lookup_take_Some in Hj as [Hj Hlt].
      rewrite list_lookup_fmap in Hj. destruct (l !! j) as [a'|] eqn:Hj'; [|done].
      injection Hj as Hj. by exists j, a'.
    - intros (j & a' & Hlt & Hj & Hk). exists j.
      rewrite lookup_take_lt by done. by rewrite list_lookup_fmap, Hj; simpl; rewrite Hk. }
  rewrite <-Hin. split.
  - intros (k & a' & Hk & Hd).
    destruct (bool_decide_reflect (key a' ∈ [] ++ take k (key <$> l))) as [Hm|];
      [|by apply elem_of_nil in Hd].
    apply list_elem_of_singleton in Hd. apply Hinj in Hd as [-> ->]. done.
  - intros Hm. exists i, a. split; [done|].
    rewrite bool_decide_eq_true_2 by done. apply list_elem_of_here.
Qed.

Lemma duplicates_from_length {A} (key : A -> str) (finding : nat -> str -> Diagnostic) :
  forall l i before,
  (length (duplicates_from key finding i before l)
   + size (list_to_set (key <$> l) ∖ list_to_set before : gset str))%nat
  = length l.
Proof.
  induction l as [|a l IH]; intros i before.
  - cbn. rewrite difference_disjoint_L by (set_unfold; tauto). by rewrite size_empty.
  - rewrite duplicates_from_cons, length_app. cbn [fmap list_fmap list_to_set length].
    specialize (IH (S i) (before ++ [key a])). rewrite list_to_set_app_L in IH.
    cbn [list_to_set] in IH. case_bool_decide as Hin.
    + assert (key a ∈ (list_to_set before : gset str)) as Hin'
        by (by apply elem_of_list_to_set).
      replace (({[key a]} ∪ list_to_set (key <$> l)) ∖ list_to_set before : gset str)
        with (list_to_set (key <$> l) ∖ (list_to_set before ∪ ({[key a]} ∪ ∅)) : gset str).
      * cbn [length]. lia.
      * set_unfold. intros x. destruct (decide (x = key a)) as [->|Hne]; intuition congruence.
    + assert (key a ∉ (list_to_set before : gset str)) as Hin'
        by (by rewrite elem_of_list_to_set).
      replace (({[key a]} ∪ list_to_set (key <$> l)) ∖ list_to_set before : gset str)
        with ({[key a]} ∪ list_to_set (key <$> l) ∖ (list_to_set before ∪ ({[key a]} ∪ ∅))
                : gset str).
      * rewrite size_union by (set_unfold; intros x; intuition congruence). rewrite size_singleton. cbn [length]. lia.
      * set_unfold. intros x. destruct (decide (x = key a)) as [->|Hne]; intuition congruence.
Qed.

Lemma duplicate_enum_value_inj i j n k m :
  duplicate_enum_value i j n = duplicate_enum_value i k m -> j = k ∧ n = m.
Proof.
  unfold duplicate_enum_value. intros [= Hmsg Hnode]. split; [done|].
  by apply app_inv_tail in Hmsg.
Qed.

Lemma duplicate_endpoint_id_inj i n j m :
  duplicate_endpoint_id i n = duplicate_endpoint_id j m -> i = j ∧ n = m.
Proof.
  unfold duplicate_endpoint_id. intros [= Hmsg Hnode]. split; [done|].
  by apply app_inv_tail in Hmsg.
Qed.

Lemma checkEnumValues_duplicates i : forall values j before (seen : gset str),
  (forall v, v ∈ seen <-> v ∈ before) ->
  CustomValidator.checkEnumValues i j values seen
  = duplicates_from ev_value (duplicate_enum_value i) j before values.
Proof.
  induction values as [|value values IH]; intros j before seen Hseen; [done|].
  rewrite duplicates_from_cons. cbn [CustomValidator.checkEnumValues]. f_equal.
  - rewrite (bool_decide_ext _ _ (Hseen (ev_value value))). by destruct (bool_decide _).
  - apply IH. intros v. rewrite elem_of_union, elem_of_singleton, elem_of_app,
      list_elem_of_singleton, Hseen. tauto.
Qed.

Lemma checkEndpointIds_duplicates : forall endpoints i before (ids : gmap str Endpoint),
  (forall k, is_Some (ids !! k) <-> k ∈ before) ->
  CustomValidator.checkEndpointIds i endpoints ids
  = duplicates_from ep_id duplicate_endpoint_id i before endpoints.
Proof.
  induction endpoints as [|e endpoints IH]; intros i before ids Hids; [done|].
  rewrite duplicates_from_cons. cbn [CustomValidator.checkEndpointIds]. f_equal.
  - rewrite (bool_decide_ext _ _ (Hids (ep_id e))). by destruct (bool_decide _).
  - apply IH. intros k. rewrite lookup_insert_is_Some, elem_of_app, list_elem_of_singleton, Hids.
    split.
    + intros [<-|[_ ?]]; [by right | by left].
    + intros [? | ->]; [|by left].
      destruct (decide (ep_id e = k)); [by left | by right].
Qed.

Lemma duplicates_from_Forall {A} (key : A -> str) finding (P : Diagnostic -> Prop) i before l :
  (forall k n, P (finding k n)) -> Forall P (duplicates_from key finding i before l).
Proof.
  intros HP. apply Forall_forall. intros d (k & a & _ & Hd)%elem_of_concat_imap.
  destruct (bool_decide _); [|by apply elem_of_nil in Hd].
  apply list_elem_of_singleton in Hd as ->. apply HP.
Qed.

(** ** Enum values listed twice *)

Lemma startsWith_app p s : startsWith p (p ++ s) = true.
Proof. apply startsWith_spec. by exists s. Qed.

Lemma duplicate_enum_value_counted i j v :
  is_error (duplicate_enum_value i j v)
  && startsWith (js "Duplicate enum value") (message (duplicate_enum_value i j v)) = true.
Proof.
  apply andb_true_iff; split; [done|]. unfold duplicate_enum_value. cbn [message].
  replace (js "Duplicate enum value: ") with (js "Duplicate enum value" ++ js ": ") by done.
  rewrite <-(assoc_L (++)). apply startsWith_app.
Qed.

Lemma duplicate_enum_errors_checkProperty i p values :
  CustomValidator.find_enum (prop_features p) = Some values ->
  duplicate_enum_errors (CustomValidator.checkProperty i p)
  = duplicates_from ev_value (duplicate_enum_value i) 0 [] values.
Proof.
  intros Hf. unfold CustomValidator.checkProperty, duplicate_enum_errors. rewrite Hf.
  rewrite (checkEnumValues_duplicates i values 0 [] ∅)
    by (intros v; rewrite elem_of_empty, elem_of_nil; tauto).
  rewrite !List.filter_app.
  rewrite (filter_all _ (duplicates_from _ _ _ _ _)).
  2:{ apply duplicates_from_Forall. intros k n. apply duplicate_enum_value_counted. }
  destruct (bool_decide (dt_name _ ≠ _)); destruct (_ && _); cbn; by rewrite ?app_nil_r.
Qed.

Lemma elem_of_checkProperty_enum i p values j v :
  CustomValidator.find_enum (prop_features p) = Some values ->
  duplicate_enum_value i j v ∈ CustomValidator.checkProperty i p
  <-> duplicate_enum_value i j v ∈ duplicates_from ev_value (duplicate_enum_value i) 0 [] values.
Proof.
  intros Hf. rewrite <-(duplicate_enum_errors_checkProperty i p values Hf).
  unfold duplicate_enum_errors. rewrite !list_elem_of_In, List.filter_In.
  split; [|by intros [? _]]. intros H. split; [done|]. apply duplicate_enum_value_counted.
Qed.

(** X9.  Among the diagnostics of a model, the errors about a duplicate enum
    value under a property are these: one under every value of its enum
    that an earlier value of the same enum equals.  So a value gets the
    error if and only if it repeats a value before it, and the errors
    together with the distinct values make up the enum. *)
Theorem duplicate_enum_values (toUpperCase : str -> str) (model : Model)
    (i : nat) (p : Property) (values : list EnumValue) :
  model_properties model !! i = Some p ->
  CustomValidator.find_enum (prop_features p) = Some values ->
  duplicate_enum_errors
      (List.filter (about_property i) (CustomValidator.checkModel toUpperCase model))
    = duplicates_from ev_value (duplicate_enum_value i) 0 [] values
  ∧ (forall j value,
       values !! j = Some value ->
       duplicate_enum_value i j (ev_value value)
         ∈ CustomValidator.checkModel toUpperCase model
       <-> ∃ k value', (k < j)%nat ∧ values !! k = Some value'
                       ∧ ev_value value' = ev_value value)
  ∧ (length (duplicate_enum_errors
       (List.filter (about_property i) (CustomValidator.checkModel toUpperCase model)))
     + size (list_to_set (ev_value <$> values) : gset str))%nat
    = length values.
Proof.
  intros Hi Hf. rewrite (checkModel_about_property _ _ _ _ Hi).
  rewrite (duplicate_enum_errors_checkProperty _ _ _ Hf). split_and!; [done | |].
  - intros j value Hj.
    rewrite <-(duplicates_from_elem ev_value (duplicate_enum_value i) values j value
                 (fun a n b m => duplicate_enum_value_inj i a n b m) Hj).
    rewrite <-(elem_of_checkProperty_enum i p values j _ Hf).
    rewrite <-(checkModel_about_property toUpperCase _ _ _ Hi).
    rewrite !list_elem_of_In, List.filter_In. cbn [about_property duplicate_enum_value node].
    rewrite Nat.eqb_refl. tauto.
  - pose proof (duplicates_from_length ev_value (duplicate_enum_value i) values 0 []) as Hl.
    cbn [list_to_set] in Hl. by rewrite difference_empty_L in Hl.
Qed.

Lemma duplicate_enum_values_witness :
  let model := {| model_name := js "Ticket";
                  model_properties := [count_property; status_property] |} in
  duplicate_enum_errors
      (List.filter (about_property 1) (CustomValidator.checkModel id model))
    = [duplicate_enum_value 1 2 (js "open")].
Proof.
  intros model.
  destruct (duplicate_enum_values id model 1 status_property
              [{| ev_value := js "open" |}; {| ev_value := js "closed" |};
               {| ev_value := js "open" |}] eq_refl eq_refl) as (-> & _ & _).
  reflexivity.
Defined.

(** ** Trees that pass without an error *)

Lemma errors_app ds ds' : errors (ds ++ ds') = errors ds ++ errors ds'.
Proof. apply List.filter_app. Qed.

Lemma errors_nil_iff ds : errors ds = [] <-> Forall (fun d => is_error d = false) ds.
Proof.
  unfold errors. induction ds as [|d ds IH]; [by split; [constructor|]|]. simpl.
  rewrite Forall_cons. destruct (is_error d); [by split; [|intros [? _]] | tauto].
Qed.

Lemma errors_all ds : Forall (fun d => is_error d = true) ds -> errors ds = ds.
Proof. apply filter_all. Qed.

Lemma errors_warning (b : bool) msg n pr :
  errors (if b then accept warning msg n pr else []) = [].
Proof. by destruct b. Qed.

Lemma errors_concat_imap_nil {A} (f : nat -> A -> list Diagnostic) (l : list A) :
  errors (concat (imap f l)) = [] <-> forall k a, l !! k = Some a -> errors (f k a) = [].
Proof.
  rewrite errors_nil_iff, Forall_forall. setoid_rewrite elem_of_concat_imap.
  setoid_rewrite errors_nil_iff. setoid_rewrite Forall_forall. split.
  - intros H k a Hk d Hd. apply H. by exists k, a.
  - intros H d (k & a & Hk & Hd). by apply (H k a).
Qed.

Lemma errors_checkProperty i p :
  errors (CustomValidator.checkProperty i p) = [] <-> EnumInOrder p.
Proof.
  unfold CustomValidator.checkProperty, EnumInOrder. rewrite errors_app, errors_warning, app_nil_r.
  destruct (CustomValidator.find_enum (prop_features p)) as [values|]; [|done].
  rewrite errors_app.
  rewrite (checkEnumValues_duplicates i values 0 [] ∅)
    by (intros v; rewrite elem_of_empty, elem_of_nil; tauto).
  rewrite (errors_all (duplicates_from _ _ _ _ _)) by (by apply duplicates_from_Forall).
  destruct (decide (dt_name (prop_type p) = js "string")) as [Ht|Ht].
  - rewrite bool_decide_eq_false_2 by (by intros H). cbn [errors List.filter app].
    rewrite duplicates_from_nil_iff. split; [by intros [? _] | intros [_ Hnd]].
    split; [done|]. apply Forall_forall. intros a _. apply not_elem_of_nil.
  - rewrite bool_decide_eq_true_2 by done. split; [done | by intros [? _]].
Qed.

Lemma occurrences_concat_imap_none {A} (f : nat -> A -> list Diagnostic) (l : list A) d :
  (forall k a, Forall (fun d' => d' ≠ d) (f k a)) -> occurrences d (concat (imap f l)) = 0%nat.
Proof.
  intros H. apply occurrences_none, Forall_forall.
  intros d' (k & a & _ & Hd)%elem_of_concat_imap.
  specialize (H k a). rewrite Forall_forall in H. by apply H.
Qed.

(** X10.  A model passes its check without an error exactly when it has a
    property and the enum of every property is in order: it sits on a
    string property and lists no value twice.  The error about a model
    without properties is reported once for such a model and never for
    another. *)
Theorem model_without_errors (toUpperCase : str -> str) (model : Model) :
  (errors (CustomValidator.checkModel toUpperCase model) = []
   <-> model_properties model ≠ [] ∧ Forall EnumInOrder (model_properties model))
  ∧ occurrences no_properties (CustomValidator.checkModel toUpperCase model)
    = (if decide (model_properties model = []) then 1 else 0)%nat.
Proof.
  unfold CustomValidator.checkModel. split.
  - rewrite !errors_app, errors_warning.
    assert (forall b : bool, errors (if b then [] else
              accept warning (js "Model should have an " ++ [dquote] ++ js "id" ++ [dquote]
                                ++ js " property.") TheNode None) = []) as -> by (by intros []).
    cbn [app]. destruct (model_properties model) as [|p ps].
    + cbn. split; [done | by intros [? _]].
    + cbn [length Nat.eqb errors List.filter app].
      change (List.filter is_error ?l) with (errors l).
      rewrite errors_concat_imap_nil. setoid_rewrite errors_checkProperty. split.
      * intros H. split; [done|]. apply Forall_lookup. intros k a. apply H.
      * intros [_ H] k a. by apply Forall_lookup.
  - rewrite !occurrences_app, occurrences_warning by done.
    assert (forall b : bool, occurrences no_properties (if b then [] else
              accept warning (js "Model should have an " ++ [dquote] ++ js "id" ++ [dquote]
                                ++ js " property.") TheNode None) = 0%nat) as -> by (by intros []).
    rewrite occurrences_concat_imap_none.
    2:{ intros k a. eapply Forall_impl; [apply checkProperty_nodes|].
        intros d [Hn|[j Hn]] ->; done. }
    destruct (model_properties model) as [|p ps]; [by vm_compute|].
    by destruct (decide _).
Qed.

(** ** Applications and navigations that pass without a finding *)

Lemma initial_filter_length app :
  length (List.filter (fun s : nat * Screen => screen_isInitial s.2)
            (imap pair (app_screens app)))
  = initial_count app.
Proof. apply (length_filter_imap_pair screen_isInitial (app_screens app) id). Qed.

(** X11.  The registered validator has nothing to say about an application
    exactly when it has a model and exactly one initial screen; the
    validator of [custom-validator.txt] asks for a platform as well.  So
    whatever passes the second without a finding passes the first. *)
Theorem applications_without_findings (app : App) :
  (Validator.checkApp app = [] <-> app_models app ≠ [] ∧ initial_count app = 1%nat)
  ∧ (CustomValidator.checkApp app = []
     <-> app_platforms app ≠ [] ∧ app_models app ≠ [] ∧ initial_count app = 1%nat)
  ∧ (CustomValidator.checkApp app = [] -> Validator.checkApp app = []).
Proof.
  assert (Validator.checkApp app = []
          <-> app_models app ≠ [] ∧ initial_count app = 1%nat) as H1.
  { unfold Validator.checkApp, initial_count.
    destruct (app_models app) as [|m ms]; [by split; [|intros [? _]]|].
    cbn [length Nat.eqb Datatypes.app].
    destruct (app_screens app) as [|s ss]; [by split; [|intros [_ ?]]|].
    cbn [length Nat.eqb Nat.ltb Nat.leb Datatypes.app].
    destruct (List.filter screen_isInitial (s :: ss)) as [|s1 [|s2 l]]; cbn;
      split; try done; intros [_ ?]; done. }
  assert (CustomValidator.checkApp app = []
          <-> app_platforms app ≠ [] ∧ app_models app ≠ [] ∧ initial_count app = 1%nat) as H2.
  { unfold CustomValidator.checkApp. rewrite <-initial_filter_length.
    destruct (app_platforms app) as [|pl pls]; [by split; [|intros [? _]]|].
    destruct (app_models app) as [|m ms]; [by split; [|intros (_ & ? & _)]|].
    cbn [length Nat.eqb Datatypes.app].
    destruct (List.filter _ (imap pair (app_screens app))) as [|s1 [|s2 l]] eqn:Hf.
    - destruct (app_screens app); cbn; split; try done; intros (_ & _ & ?); done.
    - assert (app_screens app ≠ []) as Hne by (by intros Hs; rewrite Hs in Hf).
      destruct (app_screens app) as [|s ss]; [done|]. cbn. by split.
    - destruct (app_screens app) as [|s ss]; [done|]. cbn. split; [done|].
      intros (_ & _ & ?). done. }
  split_and!; [done | done |]. rewrite H1, H2. tauto.
Qed.

Lemma repeated_from_nil_NoDup : forall items i before,
  repeated_from i before items = [] -> NoDup (omap id before) ->
  NoDup (omap id before ++ omap resolved items).
Proof.
  induction items as [|item items IH]; intros i before Hr Hnd.
  - by rewrite app_nil_r.
  - unfold repeated_from in Hr. cbn [imap concat fmap list_fmap] in Hr.
    apply app_eq_nil in Hr as [Hhead Hr].
    assert (repeated_from (S i) (before ++ [resolved item]) items = []) as Hr'.
    { rewrite <-Hr. unfold repeated_from. f_equal. apply imap_ext. intros k x _.
      unfold compose. cbn [take]. rewrite <-(assoc_L (++)). cbn [app].
      by replace (S i + k)%nat with (i + S k)%nat by lia. }
    cbn [take] in Hhead. rewrite app_nil_r in Hhead.
    specialize (IH (S i) (before ++ [resolved item]) Hr').
    rewrite omap_app, <-(assoc_L (++)) in IH. cbn [omap list_omap] in *.
    destruct (resolved item) as [n|]; cbn [id app] in *; [|by apply IH; rewrite app_nil_r].
    apply IH. apply NoDup_app. split_and!; [done | | apply NoDup_singleton].
    intros x Hx ->%list_elem_of_singleton.
    apply list_elem_of_omap in Hx as (y & Hy & Hid). unfold id in Hid. subst y.
    by rewrite bool_decide_eq_true_2 in Hhead.
Qed.

(** X12.  A navigation passes its check without a finding exactly when it has
    an item, no two of its items resolve to the same screen, and it is no
    tab navigation of more than five items. *)
Theorem navigation_without_findings (navigation : Navigation) :
  resolved_names_nonempty (nav_items navigation) ->
  CustomValidator.checkNavigation navigation = []
  <-> nav_items navigation ≠ []
      ∧ NoDup (omap resolved (nav_items navigation))
      ∧ ¬ (nav_type navigation = js "tab" ∧ (5 < length (nav_items navigation))%nat).
Proof.
  intros Hne. unfold CustomValidator.checkNavigation.
  rewrite (checkNavItems_repeated _ 0 [] ∅ Hne)
    by (intros key; rewrite lookup_empty, elem_of_nil; split; [by intros [? ?] | done]).
  split.
  - intros [H1 [H2 H3]%app_eq_nil]%app_eq_nil. split_and!.
    + intros Hi. by rewrite Hi in H1.
    + apply (repeated_from_nil_NoDup _ 0 []); [done | constructor].
    + intros [Ht Hl]. rewrite bool_decide_eq_true_2 in H3 by done.
      apply Nat.ltb_lt in Hl. by rewrite Hl in H3.
  - intros (Hi & Hnd & Ht).
    destruct (nav_items navigation) as [|item items] eqn:Hitems; [done|].
    cbn [length Nat.eqb app]. rewrite repeated_from_NoDup by done. cbn [app].
    case_bool_decide as Hty; [|done]. cbn [andb].
    destruct (Nat.ltb_spec 5 (S (length items))) as [Hl|Hl]; [|done].
    destruct Ht. by split.
Qed.

Lemma navigation_without_findings_witness :
  let navigation := {| nav_type := js "tab";
                       nav_items := [nav_to "Home"; nav_to "Accounts"] |} in
  resolved_names_nonempty (nav_items navigation)
  ∧ CustomValidator.checkNavigation navigation = [].
Proof.
  intros navigation.
  assert (resolved_names_nonempty (nav_items navigation)) as Hne.
  { repeat constructor; discriminate. }
  split; [exact Hne|].
  apply (navigation_without_findings navigation Hne). split_and!.
  - discriminate.
  - vm_compute. repeat constructor; set_unfold; intuition congruence.
  - intros [_ Hl]. vm_compute in Hl. lia.
Defined.

(** ** The errors of an API *)

Lemma undeclared_nil i (declared tokens : list str) :
  flat_map (fun pathParam =>
    if bool_decide (pathParam ∈ declared) then []
    else CustomValidator.undefinedPathParam i pathParam) tokens = []
  <-> Forall (fun token => token ∈ declared) tokens.
Proof.
  induction tokens as [|t tokens IH]; cbn [flat_map]; [by split; [constructor|]|].
  rewrite Forall_cons, <-IH. case_bool_decide as Ht.
  - cbn [app]. tauto.
  - split; [done | by intros [? _]].
Qed.

Lemma undeclared_errors i (declared tokens : list str) :
  Forall (fun d => is_error d = true ∧ property d = prop "path")
    (flat_map (fun pathParam =>
       if bool_decide (pathParam ∈ declared) then []
       else CustomValidator.undefinedPathParam i pathParam) tokens).
Proof.
  induction tokens as [|t tokens IH]; cbn [flat_map]; [constructor|].
  apply Forall_app. split; [|done]. case_bool_decide; repeat constructor.
Qed.

Lemma checkEndpoint_errors i endpoint :
  ∃ ds, CustomValidator.checkEndpoint i endpoint = Ok ds
    ∧ Forall (fun d => property d ≠ prop "id") ds
    ∧ (errors ds = [] <-> PathParamsDeclared endpoint).
Proof.
  unfold CustomValidator.checkEndpoint. rewrite checkPathParams_spec.
  eexists. split; [done|]. split.
  - repeat (apply Forall_app; split);
      try (by destruct (_ && _); repeat constructor).
    eapply Forall_impl; [apply undeclared_errors|]. intros d [_ Hd]. by rewrite Hd.
  - rewrite !errors_app, !errors_warning. cbn [app]. rewrite app_nil_r.
    rewrite errors_all
      by (eapply Forall_impl; [apply undeclared_errors|]; by intros d [? _]).
    apply undeclared_nil.
Qed.

Lemma checkEndpoints_errors : forall endpoints i,
  ∃ ds, CustomValidator.checkEndpoints i endpoints = Ok ds
    ∧ Forall (fun d => property d ≠ prop "id") ds
    ∧ (errors ds = [] <-> Forall PathParamsDeclared endpoints).
Proof.
  induction endpoints as [|ep eps IH]; intros i.
  - exists []. split_and!; [done | constructor | by split; [constructor|]].
  - cbn [CustomValidator.checkEndpoints].
    destruct (checkEndpoint_errors i ep) as (ds1 & -> & Hp1 & He1).
    destruct (IH (S i)) as (ds2 & -> & Hp2 & He2).
    eexists. split_and!; [done | by apply Forall_app |].
    rewrite errors_app, Forall_cons, <-He1, <-He2. split.
    + by intros [? ?]%app_eq_nil.
    + by intros [-> ->].
Qed.

Lemma checkEndpointIds_from_start endpoints :
  CustomValidator.checkEndpointIds 0 endpoints ∅
  = duplicates_from ep_id duplicate_endpoint_id 0 [] endpoints.
Proof.
  apply checkEndpointIds_duplicates. intros k.
  rewrite lookup_empty, elem_of_nil. split; [by intros [? ?] | done].
Qed.

(** X13.  Among the diagnostics of an API, the errors about a duplicate
    endpoint id are these: one under every endpoint whose id an earlier
    endpoint has as well.  So an endpoint gets the error if and only if
    it repeats the id of an endpoint before it; the diagnostics filed
    under the property [id] together with the distinct ids make up the
    endpoints. *)
Theorem duplicate_endpoint_ids (api : API) :
  ∃ ds,
    CustomValidator.checkAPI api = Ok ds
    ∧ List.filter (fun d => bool_decide (property d = prop "id")) ds
      = duplicates_from ep_id duplicate_endpoint_id 0 [] (api_endpoints api)
    ∧ (forall i endpoint,
         api_endpoints api !! i = Some endpoint ->
         duplicate_endpoint_id i (ep_id endpoint) ∈ ds
         <-> ∃ j endpoint', (j < i)%nat ∧ api_endpoints api !! j = Some endpoint'
                            ∧ ep_id endpoint' = ep_id endpoint)
    ∧ (length (List.filter (fun d => bool_decide (property d = prop "id")) ds)
       + size (list_to_set (ep_id <$> api_endpoints api) : gset str))%nat
      = length (api_endpoints api).
Proof.
  unfold CustomValidator.checkAPI.
  destruct (checkEndpoints_errors (api_endpoints api) 0) as (ds & -> & Hp & _).
  cbn [mbind outcome_bind]. eexists. split; [done|].
  rewrite checkEndpointIds_from_start.
  assert (List.filter (fun d => bool_decide (property d = prop "id"))
            ((if (length (api_endpoints api) =? 0)%nat
              then accept warning (js "API should have at least one endpoint.") TheNode
                     (prop "endpoints")
              else [])
             ++ duplicates_from ep_id duplicate_endpoint_id 0 [] (api_endpoints api) ++ ds)
          = duplicates_from ep_id duplicate_endpoint_id 0 [] (api_endpoints api)) as Hf.
  { rewrite !List.filter_app.
    rewrite (filter_all _ (duplicates_from _ _ _ _ _))
      by (apply duplicates_from_Forall; intros k n; by apply bool_decide_eq_true_2).
    replace (List.filter _ ds) with (@nil Diagnostic).
    - destruct (Nat.eqb _ 0); cbn; by rewrite app_nil_r.
    - symmetry. clear -Hp. induction Hp as [|d ds Hd _ IH]; [done|]. simpl.
      by rewrite bool_decide_eq_false_2. }
  split_and!.
  - exact Hf.
  - intros i endpoint Hi.
    rewrite <-(duplicates_from_elem ep_id duplicate_endpoint_id _ i endpoint
                 duplicate_endpoint_id_inj Hi).
    rewrite <-Hf at 2. rewrite !list_elem_of_In, List.filter_In.
    split; [|by intros [? _]]. intros H. split; [done|]. by apply bool_decide_eq_true_2.
  - rewrite Hf.
    pose proof (duplicates_from_length ep_id duplicate_endpoint_id (api_endpoints api) 0 [])
      as Hl.
    cbn [list_to_set] in Hl. by rewrite difference_empty_L in Hl.
Qed.

(** X14.  An API passes its check without an error exactly when no two of its
    endpoints have the same id and every [{name}] token of every path is
    a declared parameter of its endpoint.  The conventions about methods,
    paths and bodies only ever give warnings. *)
Theorem api_without_errors (api : API) :
  ∃ ds,
    CustomValidator.checkAPI api = Ok ds
    ∧ (errors ds = []
       <-> NoDup (ep_id <$> api_endpoints api)
           ∧ Forall PathParamsDeclared (api_endpoints api)).
Proof.
  unfold CustomValidator.checkAPI.
  destruct (checkEndpoints_errors (api_endpoints api) 0) as (ds & -> & _ & He).
  cbn [mbind outcome_bind]. eexists. split; [done|].
  rewrite checkEndpointIds_from_start, !errors_app, errors_warning. cbn [app].
  rewrite (errors_all (duplicates_from _ _ _ _ _)) by (by apply duplicates_from_Forall).
  rewrite <-He. split.
  - intros [H1 H2]%app_eq_nil. by apply duplicates_from_nil_iff in H1 as [? _].
  - intros [Hnd ->]. rewrite app_nil_r. apply duplicates_from_nil_iff. split; [done|].
    apply Forall_forall. intros a _. apply not_elem_of_nil.
Qed.

(** ** The path parameters of the generator and of the validator *)

Lemma path_param_loops fuel : forall s re,
  global re = true -> source re = CustomValidator.path_param_re ->
  (0 < fuel)%nat -> (length s + 2 <= lastIndex re + fuel)%nat ->
  ∃ ms ws, exec_loop fuel s re = Ok ms ∧ match_loop fuel re s = Some ws
    ∧ (fun m => group m 1) <$> ms = Some <$> CustomValidator.pathParams ws.
Proof.
  induction fuel as [|fuel IH]; intros s re Hg Hsrc Hpos Hfuel; [lia|].
  cbn [exec_loop match_loop]. destruct (exec re s) as [[m|] re'] eqn:He.
  - apply exec_global_some in He
      as (pre & w & post & cs0 & Hs & Hi & Hli & D & Hgr & Hw & ->); [|done].
    rewrite Hsrc in D. apply path_param_shape in D as (n & -> & Hn & Hnb & ->).
    assert (length s = length pre + length ([lbrace] ++ n ++ [rbrace]) + length post)%nat
      as Hlen by (rewrite Hs, !length_app; lia).
    rewrite Hgr. cbn [lookup list_lookup insert list_insert mjoin option_join default].
    destruct (decide _) as [Hnil|_]; [done|].
    destruct (IH s (set_lastIndex re (index m + length ([lbrace] ++ n ++ [rbrace]))))
      as (ms & ws & -> & -> & Heq); [done | done | simpl; lia | |].
    { cbn [lastIndex set_lastIndex]. rewrite !length_app in *. simpl in *. lia. }
    eexists _, _. split_and!; [done | done |].
    cbn [fmap list_fmap option_fmap option_map mbind outcome_bind].
    change (list_fmap _ _ ?f ?l) with (f <$> l).
    unfold CustomValidator.pathParams in *. cbn [fmap list_fmap].
    change (list_fmap _ _ ?f ?l) with (f <$> l). rewrite Heq.
    f_equal. unfold group. rewrite Hgr.
    cbn [lookup list_lookup insert list_insert mjoin option_join].
    unfold id. by rewrite substring_inner.
  - by exists [], [].
Qed.

(** X15.  The web generator substitutes exactly the path parameters the API
    check looks at: on every path, [extractPathParams] returns the names
    between the braces of the [{name}] tokens, in the order and with the
    repetitions the validator sees them. *)
Theorem generator_and_validator_agree (path : str) :
  WebGenerator.extractPathParams path = Ok (Some <$> path_tokens path).
Proof.
  unfold WebGenerator.extractPathParams, path_tokens, match_all.
  destruct (path_param_loops (length path + 2) path
              (regexp CustomValidator.path_param_re true))
    as (ms & ws & Hms & -> & Heq); [done | done | lia | simpl; lia |].
  change WebGenerator.params_re with CustomValidator.path_param_re. rewrite Hms.
  cbn [mbind outcome_bind]. rewrite Heq. by destruct ws.
Qed.

(** ** Property lines *)

Lemma split_Without_whole sep : forall s, Without sep s -> split sep s = [s].
Proof.
  induction s as [|c s IH]; intros Hs; [done|].
  apply Forall_cons in Hs as [Hc Hs]. simpl.
  destruct (c =? sep) eqn:Hcs; [by apply N.eqb_eq in Hcs|]. by rewrite (IH Hs).
Qed.

Lemma split_app_sep sep : forall a x,
  Without sep a -> split sep (a ++ sep :: x) = a :: split sep x.
Proof.
  induction a as [|c a IH]; intros x Ha.
  - simpl. by rewrite N.eqb_refl.
  - apply Forall_cons in Ha as [Hc Ha]. cbn [app split].
    destruct (c =? sep) eqn:Hcs; [by apply N.eqb_eq in Hcs|]. by rewrite (IH x Ha).
Qed.

(** X16.  The second revision cuts a property line at its colons.  A line
    without a colon is no property.  Otherwise the name is the text before
    the first colon and the type the text between the first and the
    second, both trimmed, and there is no property when either is blank;
    whatever follows a second colon is dropped. *)
Theorem second_revision_property (name type rest : str) :
  Without colon name -> Without colon type ->
  Rev2.parseProperty name = None
  ∧ Rev2.parseProperty (name ++ [colon] ++ type)
    = match trim name, trim type with
      | _ :: _, _ :: _ => Some {| Rev2.p_name := trim name; Rev2.p_type := trim type |}
      | _, _ => None
      end
  ∧ Rev2.parseProperty (name ++ [colon] ++ type ++ [colon] ++ rest)
    = Rev2.parseProperty (name ++ [colon] ++ type).
Proof.
  intros Hn Ht. unfold Rev2.parseProperty. cbn [app].
  rewrite (split_Without_whole _ _ Hn), !(split_app_sep _ _ _ Hn),
    (split_Without_whole _ _ Ht), (split_app_sep _ _ _ Ht).
  cbn [fmap list_fmap lookup list_lookup]. split_and!.
  - by destruct (trim name).
  - by destruct (trim name), (trim type).
  - done.
Qed.

Lemma second_revision_property_witness :
  Rev2.parseProperty (js "b") = None
  ∧ Rev2.parseProperty (js "b" ++ [colon] ++ js " number default")
    = Some {| Rev2.p_name := js "b"; Rev2.p_type := js "number default" |}
  ∧ Rev2.parseProperty (js "b" ++ [colon] ++ js " number default" ++ [colon] ++ js " 5")
    = Rev2.parseProperty (js "b" ++ [colon] ++ js " number default").
Proof.
  apply (second_revision_property (js "b") (js " number default") (js " 5"));
    apply Forall_forall; intros c Hc ->; vm_compute in Hc;
    repeat (apply elem_of_cons in Hc as [Hc|Hc]; [discriminate|]);
    by apply elem_of_nil in Hc.
Defined.

Lemma split_head_prefix sep : forall s q qs, split sep s = q :: qs -> ∃ t, s = q ++ t.
Proof.
  induction s as [|c s IH]; intros q qs; simpl.
  - intros [= <- _]. by exists [].
  - destruct (c =? sep); [intros [= <- _]; by exists (c :: s)|].
    destruct (split sep s) as [|q' qs'] eqn:Hq; [by apply split_nonempty in Hq|].
    intros [= <- _]. destruct (IH q' qs' eq_refl) as [t ->]. by exists t.
Qed.

Lemma split_Substring sep : forall s p, p ∈ split sep s -> Substring p s.
Proof.
  induction s as [|c s IH]; intros p; simpl.
  - intros ->%list_elem_of_singleton. by exists [], [].
  - destruct (c =? sep).
    + intros [->|Hp]%elem_of_cons; [by exists [], (c :: s)|].
      destruct (IH p Hp) as (pre & post & ->). by exists (c :: pre), post.
    + destruct (split sep s) as [|q qs] eqn:Hq; [by apply split_nonempty in Hq|].
      intros [->|Hp]%elem_of_cons.
      * destruct (split_head_prefix _ _ _ _ Hq) as [t ->]. by exists [], t.
      * destruct (IH p (list_elem_of_further _ _ _ Hp)) as (pre & post & ->).
        by exists (c :: pre), post.
Qed.

Lemma drop_while_suffix p s : ∃ pre, s = pre ++ drop_while p s.
Proof.
  induction s as [|c s [pre IH]]; [by exists []|]. simpl.
  destruct (p c); [|by exists []]. exists (c :: pre). by rewrite IH at 1.
Qed.

Lemma trim_Substring s : Substring (trim s) s.
Proof.
  unfold trim. destruct (drop_while_suffix is_space s) as [pre Hs].
  destruct (drop_while_suffix is_space (rev (drop_while is_space s))) as [pre' Hr].
  exists pre, (rev pre'). rewrite Hs at 1. f_equal.
  rewrite <-rev_app_distr, <-Hr. by rewrite rev_involutive.
Qed.

Lemma Substring_trans a b c : Substring a b -> Substring b c -> Substring a c.
Proof.
  intros (p & q & ->) (p' & q' & ->). exists (p' ++ p), (q ++ q').
  by rewrite <-!(assoc_L (++)).
Qed.

Lemma drop_while_head p s c : head (drop_while p s) = Some c -> p c = false.
Proof.
  induction s as [|d s IH]; [done|]. simpl. destruct (p d) eqn:Hd; [done|].
  by intros [= <-].
Qed.

Lemma drop_while_last p s c : last (drop_while p s) = Some c -> last s = Some c.
Proof.
  induction s as [|d s IH]; [done|]. simpl. destruct (p d); [|done].
  intros H. specialize (IH H). destruct s; [done|]. done.
Qed.

Lemma last_rev (l : str) : last (rev l) = head l.
Proof. destruct l as [|c l]; [done|]. simpl. apply last_snoc. Qed.

Lemma head_rev (l : str) : head (rev l) = last l.
Proof. rewrite <-(rev_involutive l) at 2. by rewrite last_rev. Qed.

Lemma trim_ends s c :
  (head (trim s) = Some c -> is_space c = false)
  ∧ (last (trim s) = Some c -> is_space c = false).
Proof.
  unfold trim. split.
  - rewrite head_rev. intros H%drop_while_last. rewrite last_rev in H.
    by apply drop_while_head in H.
  - rewrite last_rev. apply drop_while_head.
Qed.

(** X17.  Both revisions hand the same lines of a model body to their property
    parsers: every line is a piece of the body that holds no line feed, is
    not blank, neither starts nor ends with white space, and does not
    start a comment. *)
Theorem property_lines_are_trimmed (body : str) :
  Forall (fun line =>
    Substring line body ∧ line ≠ [] ∧ Without newline line
    ∧ ¬ (∃ rest, line = js "//" ++ rest)
    ∧ (forall c, head line = Some c -> is_space c = false)
    ∧ (forall c, last line = Some c -> is_space c = false))
    (propertyLines body).
Proof.
  apply Forall_forall. intros line Hl. unfold propertyLines in Hl.
  apply list_elem_of_In, List.filter_In in Hl as [Hl Hp].
  apply list_elem_of_In, list_elem_of_fmap in Hl as (raw & -> & Hraw).
  apply andb_true_iff in Hp as [Hlen Hc]. split_and!.
  - eapply Substring_trans; [apply trim_Substring | by eapply split_Substring].
  - intros Hn. by rewrite Hn in Hlen.
  - apply trim_Forall. pose proof (split_Without newline body) as Hw.
    rewrite Forall_forall in Hw. by apply Hw.
  - intros Hs%startsWith_spec. by rewrite Hs in Hc.
  - intros c. apply trim_ends.
  - intros c. apply trim_ends.
Qed.

(** ** The screen check *)

Lemma screen_errors_app ds ds' :
  screen_errors (ds ++ ds') = screen_errors ds ++ screen_errors ds'.
Proof. apply List.filter_app. Qed.

Lemma checkLayout_errors layout :
  screen_errors (ScreenValidator.checkLayout layout) = [] <-> LayoutInOrder layout.
Proof.
  unfold ScreenValidator.checkLayout, LayoutInOrder.
  destruct (decide (lay_type layout = js "form")) as [Hf|Hf].
  - rewrite bool_decide_eq_true_2 by done. rewrite Hf, !screen_errors_app.
    assert (forall (o : option str) m,
      screen_errors (match o with Some _ => [] | None => accept_at warning m TheLayout None end)
      = []) as -> by (by intros [] m).
    assert (forall (o : option (list Action)) m,
      screen_errors (match o with Some _ => [] | None => accept_at warning m TheLayout None end)
      = []) as -> by (by intros [] m).
    rewrite !app_nil_r. destruct (lay_fields layout) as [[|f fs]|]; cbn.
    + split; [done|]. intros [H _]. by destruct (H eq_refl) as (? & ? & ?).
    + split; [|done]. intros _. split_and!; [by eexists _, _ | by intros [|] | done].
    + split; [done|]. intros [H _]. by destruct (H eq_refl) as (? & ? & ?).
  - rewrite bool_decide_eq_false_2 by done.
    destruct (decide (lay_type layout = js "stack" ∨ lay_type layout = js "scroll")) as [Hs|Hs].
    + assert (bool_decide (lay_type layout = js "stack")
              || bool_decide (lay_type layout = js "scroll") = true) as ->.
      { destruct Hs as [Hs|Hs]; rewrite Hs; by vm_compute. }
      destruct (lay_components layout) as [[|c cs]|]; cbn.
      * split; [done|]. intros (_ & H & _). by destruct (H Hs) as (? & ? & ?).
      * split; [|done]. intros _. split_and!; [done | by eexists _, _ |].
        intros Ht. destruct Hs as [Hs|Hs]; rewrite Hs in Ht; discriminate.
      * split; [done|]. intros (_ & H & _). by destruct (H Hs) as (? & ? & ?).
    + assert (bool_decide (lay_type layout = js "stack")
              || bool_decide (lay_type layout = js "scroll") = false) as ->.
      { apply orb_false_iff. split; apply bool_decide_eq_false_2; tauto. }
      destruct (decide (lay_type layout = js "tabs")) as [Ht|Ht].
      * rewrite bool_decide_eq_true_2 by done.
        destruct (ScreenValidator.hasTabItems layout); cbn.
        -- split; [|done]. intros _. by split_and!.
        -- split; [done|]. intros (_ & _ & H). by specialize (H Ht).
      * rewrite bool_decide_eq_false_2 by done. split; [|done]. intros _. by split_and!.
Qed.

(** X18.  The screen check asks whether the screen has a layout and then reads
    it regardless.  Without a layout it reports the missing layout, as
    its only error, and ends in a TypeError raised by
    [validateScreenNavigation].  With a layout it returns, and it reports
    no error exactly when the layout has what its type asks for: a field
    for a form, a component for a stack or a scroll layout, a tabs
    component with an item for a tabs layout. *)
Theorem screen_check_needs_a_layout (toUpperCase : str -> str) (screen : ScreenNode) :
  match sn_layout screen with
  | None =>
      ∃ ds, ScreenValidator.checkScreen toUpperCase screen
            = (ds ++ [layout_missing], Throw TypeError)
            ∧ screen_errors ds = []
  | Some layout =>
      ∃ ds, ScreenValidator.checkScreen toUpperCase screen = (ds, Ok tt)
            ∧ (layout_missing ∉ ds)
            ∧ (screen_errors ds = [] <-> LayoutInOrder layout)
  end.
Proof.
  unfold ScreenValidator.checkScreen, ScreenValidator.validateScreenNavigation.
  destruct (sn_layout screen) as [layout|].
  - eexists. split; [done|]. split.
    + rewrite !elem_of_app. intros [H|[H|H]].
      * destruct (_ && _); [|by apply elem_of_nil in H].
        by apply list_elem_of_singleton in H.
      * by apply elem_of_nil in H.
      * unfold ScreenValidator.checkLayout in H.
        repeat (match type of H with
                | _ ∈ (if ?b then _ else _) => destruct b
                | _ ∈ _ ++ _ => apply elem_of_app in H as [H|H]
                | _ ∈ match ?o with _ => _ end => destruct o
                | _ ∈ [] => by apply elem_of_nil in H
                | _ ∈ accept_at _ _ _ _ => by apply list_elem_of_singleton in H
                end).
    + rewrite !screen_errors_app.
      assert (forall (b : bool) m pr, screen_errors (if b then accept_at warning m TheScreen pr
                                                     else []) = []) as -> by (by intros []).
      cbn [app screen_errors List.filter]. apply checkLayout_errors.
  - eexists. split; [by rewrite app_nil_r|]. by destruct (_ && _).
Qed.

(** ** The command line *)







(** ** An API that passes without a finding *)

Lemma accept_app_nil (c : bool) sev msg n pr (l : list Diagnostic) :
  (if c then accept sev msg n pr else []) ++ l = [] <-> c = false ∧ l = [].
Proof. destruct c; cbn; [by split; [|intros [? _]] | by split; [|intros [_ ?]]]. Qed.

Lemma findings_nil (c1 c2 c3 c5 c6 : bool) (a1 a2 a3 a5 a6 : Diagnostic)
    (params : list Diagnostic) :
  (if c1 then [a1] else []) ++ (if c2 then [a2] else []) ++ (if c3 then [a3] else [])
    ++ params ++ (if c5 then [a5] else []) ++ (if c6 then [a6] else []) = []
  <-> c1 = false ∧ c2 = false ∧ c3 = false ∧ params = [] ∧ c5 = false ∧ c6 = false.
Proof.
  destruct c1, c2, c3, params as [|d params], c5, c6; cbn;
    (split; [first [done | by intros _; split_and!] | intuition congruence]).
Qed.

Lemma checkEndpoint_nil i endpoint :
  ∃ ds, CustomValidator.checkEndpoint i endpoint = Ok ds
    ∧ (ds = [] <-> PathParamsDeclared endpoint ∧ FollowsConventions endpoint).
Proof.
  unfold CustomValidator.checkEndpoint. rewrite checkPathParams_spec.
  eexists. split; [done|]. unfold FollowsConventions, PathParamsDeclared. cbv zeta.
  rewrite <-(undeclared_nil i). set (params := flat_map _ _).
  etrans; [apply findings_nil|].
  destruct (bool_decide_reflect (ep_method endpoint = js "POST")) as [H1|H1];
    destruct (bool_decide_reflect (ep_method endpoint = js "PUT")) as [H2|H2];
    destruct (bool_decide_reflect (ep_method endpoint = js "DELETE")) as [H3|H3];
    destruct (bool_decide_reflect (ep_method endpoint = js "GET")) as [H4|H4];
    destruct (bool_decide_reflect (is_Some (ep_body endpoint))) as [Hb|Hb];
    destruct (includes [lbrace] (ep_path endpoint)) eqn:Hi;
    first [ apply includes_spec in Hi | apply includes_false in Hi ];
    cbn [andb orb negb];
    intuition (try congruence; try discriminate).
Qed.

Lemma checkEndpoints_nil : forall endpoints i,
  ∃ ds, CustomValidator.checkEndpoints i endpoints = Ok ds
    ∧ (ds = [] <-> Forall (fun e => PathParamsDeclared e ∧ FollowsConventions e) endpoints).
Proof.
  induction endpoints as [|ep eps IH]; intros i.
  - exists []. split; [done|]. by split; [constructor|].
  - cbn [CustomValidator.checkEndpoints].
    destruct (checkEndpoint_nil i ep) as (ds1 & -> & H1).
    destruct (IH (S i)) as (ds2 & -> & H2).
    eexists. split; [done|]. rewrite Forall_cons, <-H1, <-H2. apply app_nil.
Qed.

(** X20.  An API passes its check without a finding exactly when it has an
    endpoint, no two endpoints have the same id, every [{name}] token of
    every path is a declared parameter, and every endpoint follows the
    conventions of its method: no [{] in the path of a POST, one in the
    path of a PUT or a DELETE, a body for POST and PUT and none for GET
    and DELETE. *)
Theorem api_without_findings (api : API) :
  ∃ ds,
    CustomValidator.checkAPI api = Ok ds
    ∧ (ds = []
       <-> api_endpoints api ≠ []
           ∧ NoDup (ep_id <$> api_endpoints api)
           ∧ Forall (fun e => PathParamsDeclared e ∧ FollowsConventions e)
               (api_endpoints api)).
Proof.
  unfold CustomValidator.checkAPI.
  destruct (checkEndpoints_nil (api_endpoints api) 0) as (ds & -> & He).
  cbn [mbind outcome_bind]. eexists. split; [done|].
  rewrite checkEndpointIds_from_start, accept_app_nil, app_nil, He.
  rewrite duplicates_from_nil_iff. split.
  - intros (Hl & (Hnd & _) & Hall). split_and!; [|done|done].
    intros Hn. by rewrite Hn in Hl.
  - intros (Hne & Hnd & Hall). split_and!; [|done| |done].
    + by destruct (api_endpoints api).
    + apply Forall_forall. intros a _. apply not_elem_of_nil.
Qed.
